(** * FruitJam animation: the overshoot animator and the step coordinator

    A shallow embedding of [code.py]: the [OvershootAnimator] class (arming a
    move with [animate_to], advancing it with [tick], the sprite-frame
    sub-animation of [sprite_anim_tick]) and the body of the main [while True]
    loop that schedules the steps of the [coordinator].

    Numbers.  Python floats are idealised as real numbers ([R]): the clock
    value [ticks_ms() / 1000], durations, delays and the eased coordinates.
    Element coordinates and sprite indices are Python ints ([Z]); [int(...)]
    truncates toward zero.  Attributes that may hold [None] are [option]s and
    the Python exceptions a call can raise are values of [exn].  Real numbers
    neither overflow nor turn into [nan]: the model stands for the program
    where its floats stay finite, and the properties that say that a call
    returns are stated within [coord_limit]; the [OverflowError] and
    [ValueError] that [math.sqrt], [int()] and the conversion of a large
    [int] raise beyond it are outside the model.

    Shared objects.  Tilegrids and animators are objects that several steps
    refer to; they live in a heap and are named by handles.  The clock is an
    oracle: the n-th call of [ticks_ms()] returns [ticks_ms n].  What the
    main loop does (calls of [animate_to] and [tick], writes to elements,
    refreshes, the sleep, clock reads) is recorded, in program order, in the
    [trace] of the state. *)

From Stdlib Require Import Reals Lra Lia ZArith List String.
From stdpp Require Import base option list strings gmap.

Open Scope R_scope.

(** ** Python exceptions and results *)

Inductive exn : Type :=
| TypeError          (* arithmetic or comparison on [None], [int()] of a complex *)
| ZeroDivisionError  (* [/] by zero *)
| KeyError           (* [d[k]] on a missing key *)
| IndexError.        (* [l[i]] out of range *)

Inductive result (A : Type) : Type :=
| Ok (a : A)
| Raise (e : exn).
Arguments Ok {A} a.
Arguments Raise {A} e.

Definition rbind {A B} (m : result A) (k : A -> result B) : result B :=
  match m with
  | Ok a => k a
  | Raise e => Raise e
  end.

(** [v] when the attribute holds a number, [TypeError] when it holds [None]. *)
Definition not_None {A} (o : option A) : result A :=
  match o with
  | Some a => Ok a
  | None => Raise TypeError
  end.

(** ** Float comparisons and conversions *)

Definition Rleb (a b : R) : bool := if Rle_dec a b then true else false.
Definition Rltb (a b : R) : bool := if Rlt_dec a b then true else false.
Definition Rgeb (a b : R) : bool := Rleb b a.
Definition Rgtb (a b : R) : bool := Rltb b a.

(** [int(r)]: truncation toward zero, of a finite float ([int()] of [inf]
    or [nan] raises; a real number is neither). *)
Definition py_int (r : R) : Z :=
  if Rle_dec 0 r then Int_part r else (- Int_part (- r))%Z.

(** [a / b] on floats. *)
Definition py_div (a b : R) : result R :=
  if Req_dec_T b 0 then Raise ZeroDivisionError else Ok (a / b).

(** [b ** e] for a float [b] and a non-integer exponent [e > 0]: a negative
    base gives a complex number, which the later [int(...)] refuses. *)
Definition py_pow (b e : R) : result R :=
  if Rlt_dec b 0 then Raise TypeError
  else if Req_dec_T b 0 then Ok 0
  else Ok (Rpower b e).

(** ** Display elements *)

(** A [displayio.Palette]: its colours and the indices made transparent. *)
Record Palette : Type := mkPalette {
  colors : list Z;
  transparent : list nat
}.

(** [make_alternate_platte(input_palette, target_color)]. *)
Definition make_alternate_platte (input_palette : Palette) (target_color : Z) : Palette :=
  {| colors := map (fun c => Z.land c target_color) (colors input_palette);
     transparent := [0%nat] |}.

(** What the program reads and writes of a [TileGrid] (or [Group]):
    [.x], [.y], the tile index [element[0]] and [.pixel_shader]. *)
Module Element.
Record t : Type := mk {
  x : Z;
  y : Z;
  tile : Z;                 (* element[0] *)
  pixel_shader : Palette
}.

Definition set_xy (el : t) (nx ny : Z) : t :=
  {| x := nx; y := ny; tile := tile el; pixel_shader := pixel_shader el |}.

Definition set_x (el : t) (nx : Z) : t := set_xy el nx (y el).

Definition set_y (el : t) (ny : Z) : t := set_xy el (x el) ny.

Definition set_tile (el : t) (i : Z) : t :=
  {| x := x el; y := y el; tile := i; pixel_shader := pixel_shader el |}.

Definition set_pixel_shader (el : t) (p : Palette) : t :=
  {| x := x el; y := y el; tile := tile el; pixel_shader := p |}.
End Element.

(** ** class OvershootAnimator *)

Module OvershootAnimator.

(** The attributes of an animator.  [element] is the handle of the element
    it drives; the methods below receive the element itself. *)
Record t : Type := mk {
  element : nat;
  pos_animating : bool;
  start_time : R;
  start_x : Z;
  start_y : Z;
  target_x : Z;
  target_y : Z;
  overshoot_x : R;
  overshoot_y : R;
  duration : R;
  overshoot_pixels : R;
  eased_value : option R;
  cur_sprite_index : option Z;
  last_sprite_frame_time : R;
  sprite_anim_start_time : R;
  sprite_anim_from_index : option Z;
  sprite_anim_to_index : option Z;
  sprite_anim_delay : option R
}.

(** [__init__(self, element)] *)
Definition init (el : nat) : t :=
  {| element := el;
     pos_animating := false;
     start_time := 0;
     start_x := 0; start_y := 0;
     target_x := 0; target_y := 0;
     overshoot_x := 0; overshoot_y := 0;
     duration := 0;
     overshoot_pixels := 0;
     eased_value := None;
     cur_sprite_index := None;
     last_sprite_frame_time := -1;
     sprite_anim_start_time := -1;
     sprite_anim_from_index := None;
     sprite_anim_to_index := None;
     sprite_anim_delay := None |}.

(** Lines 75-77: record starting position and time. *)
Definition record_start (self : t) (el : Element.t) (_now : R) : t :=
  {| element := element self;
     pos_animating := pos_animating self;
     start_time := _now;
     start_x := Element.x el; start_y := Element.y el;
     target_x := target_x self; target_y := target_y self;
     overshoot_x := overshoot_x self; overshoot_y := overshoot_y self;
     duration := duration self;
     overshoot_pixels := overshoot_pixels self;
     eased_value := eased_value self;
     cur_sprite_index := cur_sprite_index self;
     last_sprite_frame_time := last_sprite_frame_time self;
     sprite_anim_start_time := sprite_anim_start_time self;
     sprite_anim_from_index := sprite_anim_from_index self;
     sprite_anim_to_index := sprite_anim_to_index self;
     sprite_anim_delay := sprite_anim_delay self |}.

(** Lines 79-83: the body of [if start_sprite_anim_at is not None]. *)
Definition arm_sprite (self : t) (fire_time : R)
    (sprite_delay : option R) (sprite_from_index sprite_to_index : option Z) : t :=
  {| element := element self;
     pos_animating := pos_animating self;
     start_time := start_time self;
     start_x := start_x self; start_y := start_y self;
     target_x := target_x self; target_y := target_y self;
     overshoot_x := overshoot_x self; overshoot_y := overshoot_y self;
     duration := duration self;
     overshoot_pixels := overshoot_pixels self;
     eased_value := eased_value self;
     cur_sprite_index := sprite_from_index;
     last_sprite_frame_time := last_sprite_frame_time self;
     sprite_anim_start_time := fire_time;
     sprite_anim_from_index := sprite_from_index;
     sprite_anim_to_index := sprite_to_index;
     sprite_anim_delay := sprite_delay |}.

(** Lines 86-89: store target position and parameters. *)
Definition store_target (self : t) (tx ty : Z) (dur op : R) : t :=
  {| element := element self;
     pos_animating := pos_animating self;
     start_time := start_time self;
     start_x := start_x self; start_y := start_y self;
     target_x := tx; target_y := ty;
     overshoot_x := overshoot_x self; overshoot_y := overshoot_y self;
     duration := dur;
     overshoot_pixels := op;
     eased_value := eased_value self;
     cur_sprite_index := cur_sprite_index self;
     last_sprite_frame_time := last_sprite_frame_time self;
     sprite_anim_start_time := sprite_anim_start_time self;
     sprite_anim_from_index := sprite_anim_from_index self;
     sprite_anim_to_index := sprite_anim_to_index self;
     sprite_anim_delay := sprite_anim_delay self |}.

(** Lines 105-111: overshoot position, eased value, [pos_animating = True]. *)
Definition start_motion (self : t) (ox oy : R) (ev : option R) : t :=
  {| element := element self;
     pos_animating := true;
     start_time := start_time self;
     start_x := start_x self; start_y := start_y self;
     target_x := target_x self; target_y := target_y self;
     overshoot_x := ox; overshoot_y := oy;
     duration := duration self;
     overshoot_pixels := overshoot_pixels self;
     eased_value := ev;
     cur_sprite_index := cur_sprite_index self;
     last_sprite_frame_time := last_sprite_frame_time self;
     sprite_anim_start_time := sprite_anim_start_time self;
     sprite_anim_from_index := sprite_anim_from_index self;
     sprite_anim_to_index := sprite_anim_to_index self;
     sprite_anim_delay := sprite_anim_delay self |}.

(** Default values of the keyword arguments of [animate_to]. *)
Definition default_duration : R := 1.
Definition default_overshoot_pixels : R := 20.
Definition default_sprite_delay : option R := Some (1 / 60).

(** [animate_to]; [_now] is the clock value [ticks_ms() / 1000] read on
    entry and [el] the element the animator drives.  The square root of
    line 96 is that of a real number: [math.sqrt] raises [OverflowError]
    once [dx * dx + dy * dy] is too large for a float, which is outside the
    model ([animate_to_in_range]). *)
Definition animate_to (_now : R) (self : t) (el : Element.t)
    (target_x target_y : Z) (duration overshoot_pixels : R)
    (start_sprite_anim_at : option R) (sprite_delay : option R)
    (sprite_from_index sprite_to_index : option Z)
    (eased_value : option R) : bool * t :=
  let self := record_start self el _now in
  let self :=
    match start_sprite_anim_at with
    | Some at_ => arm_sprite self (_now + at_) sprite_delay
                    sprite_from_index sprite_to_index
    | None => self
    end in
  let self := store_target self target_x target_y duration overshoot_pixels in
  let dx := (target_x - start_x self)%Z in
  let dy := (target_y - start_y self)%Z in
  let distance := sqrt (IZR (dx * dx + dy * dy)) in
  if Rleb distance 0 then (false, self)
  else
    let dir_x := IZR dx / distance in
    let dir_y := IZR dy / distance in
    (true,
     start_motion self
       (IZR target_x + dir_x * overshoot_pixels)
       (IZR target_y + dir_y * overshoot_pixels)
       eased_value).

(** Lines 117-121: frame written, time stamped, index advanced. *)
Definition advance_sprite (self : t) (cur_time : R) (next : Z) : t :=
  {| element := element self;
     pos_animating := pos_animating self;
     start_time := start_time self;
     start_x := start_x self; start_y := start_y self;
     target_x := target_x self; target_y := target_y self;
     overshoot_x := overshoot_x self; overshoot_y := overshoot_y self;
     duration := duration self;
     overshoot_pixels := overshoot_pixels self;
     eased_value := eased_value self;
     cur_sprite_index := Some next;
     last_sprite_frame_time := cur_time;
     sprite_anim_start_time := sprite_anim_start_time self;
     sprite_anim_from_index := sprite_anim_from_index self;
     sprite_anim_to_index := sprite_anim_to_index self;
     sprite_anim_delay := sprite_anim_delay self |}.

(** Lines 125-130: the sprite attributes back to their idle values. *)
Definition reset_sprite (self : t) : t :=
  {| element := element self;
     pos_animating := pos_animating self;
     start_time := start_time self;
     start_x := start_x self; start_y := start_y self;
     target_x := target_x self; target_y := target_y self;
     overshoot_x := overshoot_x self; overshoot_y := overshoot_y self;
     duration := duration self;
     overshoot_pixels := overshoot_pixels self;
     eased_value := eased_value self;
     cur_sprite_index := None;
     last_sprite_frame_time := -1;
     sprite_anim_start_time := -1;
     sprite_anim_from_index := None;
     sprite_anim_to_index := None;
     sprite_anim_delay := None |}.

(** [sprite_anim_tick(self, cur_time)] *)
Definition sprite_anim_tick (cur_time : R) (self : t) (el : Element.t)
    : result (bool * t * Element.t) :=
  rbind (not_None (sprite_anim_delay self)) (fun delay =>
  if Rgeb cur_time (last_sprite_frame_time self + delay) then
    rbind (not_None (cur_sprite_index self)) (fun cur =>
    let el := Element.set_tile el cur in
    let self := advance_sprite self cur_time (cur + 1) in
    rbind (not_None (sprite_anim_to_index self)) (fun to =>
    if (cur + 1 >? to)%Z then Ok (false, reset_sprite self, el)
    else Ok (true, self, el)))
  else Ok (true, self, el)).

(** Line 170: [self.pos_animating = False]. *)
Definition clear_pos_animating (self : t) : t :=
  {| element := element self;
     pos_animating := false;
     start_time := start_time self;
     start_x := start_x self; start_y := start_y self;
     target_x := target_x self; target_y := target_y self;
     overshoot_x := overshoot_x self; overshoot_y := overshoot_y self;
     duration := duration self;
     overshoot_pixels := overshoot_pixels self;
     eased_value := eased_value self;
     cur_sprite_index := cur_sprite_index self;
     last_sprite_frame_time := last_sprite_frame_time self;
     sprite_anim_start_time := sprite_anim_start_time self;
     sprite_anim_from_index := sprite_anim_from_index self;
     sprite_anim_to_index := sprite_anim_to_index self;
     sprite_anim_delay := sprite_anim_delay self |}.

(** Lines 177-199: the eased fraction and the two end points between which
    the current position is interpolated, [(from_x, from_y, to_x, to_y, eased)]. *)
Definition curve (self : t) (progress : R) : result (R * R * R * R * R) :=
  if Rgtb (overshoot_pixels self) 0 then
    if Rltb progress 0.7 then
      rbind (py_pow (progress / 0.7) 1.2) (fun eased =>
      Ok (IZR (start_x self), IZR (start_y self),
          overshoot_x self, overshoot_y self, eased))
    else
      let sub_progress := (progress - 0.7) / 0.3 in
      let eased := 1 - (1 - sub_progress) ^ 2 in
      Ok (overshoot_x self, overshoot_y self,
          IZR (target_x self), IZR (target_y self), eased)
  else
    rbind
      match eased_value self with
      | None => Ok (1 - (1 - progress) ^ 4)
      | Some v => py_div progress v
      end (fun eased =>
    Ok (IZR (start_x self), IZR (start_y self),
        IZR (target_x self), IZR (target_y self), eased)).

(** Lines 159-207: the position-motion part of [tick], entered with the
    value of [still_sprite_animating]. *)
Definition tick_position (_now : R) (still_sprite_animating : bool)
    (self : t) (el : Element.t) : result (bool * t * Element.t) :=
  let elapsed := _now - start_time self in
  rbind (py_div elapsed (duration self)) (fun progress =>
  if Rgeb progress 1 then
    let el :=
      if negb (Element.x el =? target_x self)%Z || negb (Element.y el =? target_y self)%Z
      then Element.set_xy el (target_x self) (target_y self)
      else el in
    Ok (still_sprite_animating, clear_pos_animating self, el)
  else
    rbind (curve self progress) (fun '(from_x, from_y, to_x, to_y, eased) =>
    let current_x := from_x + (to_x - from_x) * eased in
    let current_y := from_y + (to_y - from_y) * eased in
    Ok (true, self, Element.set_xy el (py_int current_x) (py_int current_y)))).

(** How the first part of [tick] ends: with [return False], or by going on
    to the position motion with a value of [still_sprite_animating]. *)
Inductive flow : Type :=
| Return_False (self : t) (el : Element.t)
| Continue (still_sprite_animating : bool) (self : t) (el : Element.t).

Definition flow_element (f : flow) : Element.t :=
  match f with
  | Return_False _ el => el
  | Continue _ _ el => el
  end.

(** Lines 145-157: the sprite part of [tick]. *)
Definition tick_sprite (_now : R) (self : t) (el : Element.t) : result flow :=
  match cur_sprite_index self with
  | Some _ =>
      if Rgeb _now (sprite_anim_start_time self) then
        rbind (sprite_anim_tick _now self el) (fun '(still_sprite_animating, self, el) =>
        if negb still_sprite_animating then Ok (Return_False self el)
        else Ok (Continue still_sprite_animating self el))
      else Ok (Continue false self el)
  | None =>
      if negb (pos_animating self) then Ok (Return_False self el)
      else Ok (Continue false self el)
  end.

(** [tick(self)]; [_now] is the clock value read on entry. *)
Definition tick (_now : R) (self : t) (el : Element.t)
    : result (bool * t * Element.t) :=
  rbind (tick_sprite _now self el) (fun f =>
  match f with
  | Return_False self el => Ok (false, self, el)
  | Continue still_sprite_animating self el =>
      tick_position _now still_sprite_animating self el
  end).



(** [sprite_anim_tick] called at each of [times] in turn; after every call
    the result and the tile shown by the element. *)
Fixpoint sprite_anim_tick_seq (times : list R) (self : t) (el : Element.t)
    : result (list (bool * Z) * t * Element.t) :=
  match times with
  | [] => Ok ([], self, el)
  | cur_time :: times' =>
      rbind (sprite_anim_tick cur_time self el) (fun '(r, self, el) =>
      rbind (sprite_anim_tick_seq times' self el) (fun '(obs, self', el') =>
      Ok ((r, Element.tile el) :: obs, self', el')))
  end.

(** The sprite-cycle attributes and the position-motion parameters. *)
Definition sprite_fields (self : t) :=
  (cur_sprite_index self, last_sprite_frame_time self,
   sprite_anim_start_time self, sprite_anim_from_index self,
   sprite_anim_to_index self, sprite_anim_delay self).

Definition motion_fields (self : t) :=
  (start_time self, start_x self, start_y self, target_x self, target_y self,
   overshoot_x self, overshoot_y self, duration self, overshoot_pixels self,
   eased_value self).

(** Conditions under which the position part raises nothing: a positive
    duration, a clock that has not gone back behind the start of the move,
    and no zero [eased_value]. *)
Definition motion_ok (_now : R) (self : t) : Prop :=
  0 < duration self /\ start_time self <= _now /\
  eased_value self <> Some 0.

Definition is_animating (self : t) : bool := pos_animating self.

Definition cancel (self : t) : t := clear_pos_animating self.

End OvershootAnimator.

(** ** The coordinator: steps, the heap of shared objects, observable effects *)

(** One entry of [coordinator["steps"]].  The dict's fixed keys are fields
    ([tilegrid] and [animator] are optional: a [change_palette] step has
    neither); the palette entries added at setup ([default_palette],
    [red_palette], ...) are the map [palettes].  Palette names are taken to
    be distinct from the fixed keys. *)
Module Step.
Record t : Type := mk {
  type : string;
  start_time : R;
  started : bool;
  tilegrid : option nat;
  animator : option nat;
  offscreen_loc : Z * Z;
  onscreen_loc : Z * Z;
  move_duration : R;
  overshoot_pixels : R;
  eased_value : option R;
  sprite_anim_range : option (Z * Z);
  sprite_delay : option R;
  sprite_anim_start : option R;
  new_palette : string;
  palettes : gmap string Palette
}.

(** [step["started"] = b] *)
Definition set_started (s : t) (b : bool) : t :=
  {| type := type s;
     start_time := start_time s;
     started := b;
     tilegrid := tilegrid s;
     animator := animator s;
     offscreen_loc := offscreen_loc s;
     onscreen_loc := onscreen_loc s;
     move_duration := move_duration s;
     overshoot_pixels := overshoot_pixels s;
     eased_value := eased_value s;
     sprite_anim_range := sprite_anim_range s;
     sprite_delay := sprite_delay s;
     sprite_anim_start := sprite_anim_start s;
     new_palette := new_palette s;
     palettes := palettes s |}.
End Step.

(** What the main loop does to the outside and to the shared objects, in
    program order. *)
Inductive Event : Type :=
| ev_ticks_ms (n : nat)                      (* the n-th call of [adafruit_ticks.ticks_ms()] *)
| ev_animate_to (a : nat) (armed : bool)     (* [animator.animate_to(...)] and its result *)
| ev_tick (a : nat) (still : bool)           (* [animator.tick()] and its result *)
| ev_set_x (e : nat) (v : Z)                 (* [tilegrid.x = v] *)
| ev_set_y (e : nat) (v : Z)                 (* [tilegrid.y = v] *)
| ev_set_tile (e : nat) (v : Z)              (* [tilegrid[0] = v] *)
| ev_set_pixel_shader (e : nat) (p : Palette)
| ev_refresh                                 (* [display.refresh()] *)
| ev_sleep (seconds : R).                    (* [time.sleep(seconds)] *)

(** The program state: the elements and animators are shared objects named
    by handles (several steps hold the same tilegrid and animator). *)
Record World : Type := mkWorld {
  elements : nat -> Element.t;
  animators : nat -> OvershootAnimator.t;
  steps : list Step.t;              (* coordinator["steps"] *)
  start_time : R;                   (* the global [start_time], the loop epoch *)
  clock_reads : nat;                (* calls of [ticks_ms()] made so far *)
  trace : list Event
}.

(** Update of object [k] in a heap. *)
Definition upd {A} (h : nat -> A) (k : nat) (v : A) : nat -> A :=
  fun j => if Nat.eqb j k then v else h j.

(** State and exception monad of the main loop. *)
Definition M (A : Type) : Type := World -> result (A * World).

Definition ret {A} (a : A) : M A := fun w => Ok (a, w).

Definition bind {A B} (m : M A) (k : A -> M B) : M B :=
  fun w => match m w with
           | Ok (a, w') => k a w'
           | Raise e => Raise e
           end.

Definition raise {A} (e : exn) : M A := fun _ => Raise e.

Declare Scope loop_scope.
Delimit Scope loop_scope with loop.
Notation "x <- m ;; k" := (bind m (fun x => k))
  (at level 100, m at next level, right associativity) : loop_scope.
Notation "m ;;; k" := (bind m (fun _ => k))
  (at level 100, right associativity) : loop_scope.

Definition log (ev : Event) : M unit := fun w =>
  Ok (tt, {| elements := elements w; animators := animators w; steps := steps w;
             start_time := start_time w; clock_reads := clock_reads w;
             trace := trace w ++ [ev] |}).

Definition set_element (e : nat) (f : Element.t -> Element.t) : M unit := fun w =>
  Ok (tt, {| elements := upd (elements w) e (f (elements w e));
             animators := animators w; steps := steps w;
             start_time := start_time w; clock_reads := clock_reads w;
             trace := trace w |}).

Definition set_animator (a : nat) (v : OvershootAnimator.t) : M unit := fun w =>
  Ok (tt, {| elements := elements w;
             animators := upd (animators w) a v; steps := steps w;
             start_time := start_time w; clock_reads := clock_reads w;
             trace := trace w |}).

Definition set_step_started (i : nat) (b : bool) : M unit := fun w =>
  Ok (tt, {| elements := elements w; animators := animators w;
             steps := alter (fun s => Step.set_started s b) i (steps w);
             start_time := start_time w; clock_reads := clock_reads w;
             trace := trace w |}).

Definition set_start_time (t : R) : M unit := fun w =>
  Ok (tt, {| elements := elements w; animators := animators w; steps := steps w;
             start_time := t; clock_reads := clock_reads w;
             trace := trace w |}).

(** [for x in l: body x] *)
Fixpoint for_each {A} (l : list A) (body : A -> M unit) : M unit :=
  match l with
  | [] => ret tt
  | x :: l' => (body x ;;; for_each l' body)%loop
  end.

Section MainLoop.

(** [ticks_ms n] is the value the [n]-th call of
    [adafruit_ticks.ticks_ms()] returns. *)
Variable ticks_ms : nat -> Z.

(** [adafruit_ticks.ticks_ms() / 1000] *)
Definition read_clock : M R := fun w =>
  Ok (IZR (ticks_ms (clock_reads w)) / 1000,
      {| elements := elements w; animators := animators w; steps := steps w;
         start_time := start_time w; clock_reads := S (clock_reads w);
         trace := trace w ++ [ev_ticks_ms (clock_reads w)] |}).

(** [animators[a].animate_to(...)] on the shared objects. *)
Definition call_animate_to (a : nat)
    (target_x target_y : Z) (duration overshoot_pixels : R)
    (start_sprite_anim_at sprite_delay : option R)
    (sprite_from_index sprite_to_index : option Z)
    (eased_value : option R) : M bool :=
  (_now <- read_clock ;;
   fun w =>
     let self := animators w a in
     let el := elements w (OvershootAnimator.element self) in
     let '(r, self') :=
       OvershootAnimator.animate_to _now self el target_x target_y
         duration overshoot_pixels start_sprite_anim_at sprite_delay
         sprite_from_index sprite_to_index eased_value in
     (set_animator a self' ;;; log (ev_animate_to a r) ;;; ret r) w)%loop.

(** [animators[a].tick()] on the shared objects. *)
Definition call_tick (a : nat) : M bool :=
  (_now <- read_clock ;;
   fun w =>
     let self := animators w a in
     let e := OvershootAnimator.element self in
     match OvershootAnimator.tick _now self (elements w e) with
     | Ok (r, self', el') =>
         (set_animator a self' ;;; set_element e (fun _ => el') ;;;
          log (ev_tick a r) ;;; ret r) w
     | Raise ex => Raise ex
     end)%loop.

(** [step["tilegrid"]] *)
Definition get_tilegrid (s : Step.t) : M nat :=
  match Step.tilegrid s with
  | Some e => ret e
  | None => raise KeyError
  end.

(** [step["animator"]] *)
Definition get_animator (s : Step.t) : M nat :=
  match Step.animator s with
  | Some a => ret a
  | None => raise KeyError
  end.

(** Lines 651-653: the palette broadcast of a [change_palette] step.  The
    palettes of a step are kept apart from its other entries, so the test
    [name in _cur_step] is modelled for the name of a palette, which is none
    of the other keys of a step ([step_keys], [palette_names]). *)
Definition swap_one (name : string) (_cur_step : Step.t) : M unit :=
  match Step.palettes _cur_step !! name with
  | Some p =>
      (e <- get_tilegrid _cur_step ;;
       set_element e (fun el => Element.set_pixel_shader el p) ;;;
       log (ev_set_pixel_shader e p))%loop
  | None => ret tt
  end.

Definition change_palette_broadcast (name : string) : M unit :=
  fun w => for_each (steps w) (swap_one name) w.

(** Lines 633-653: the one-time effect of step [i]. *)
Definition fire (i : nat) (step : Step.t) : M unit :=
  (set_step_started i true ;;;
   if String.eqb (Step.type step) "animation_step" then
     a <- get_animator step ;;
     match Step.sprite_anim_range step with
     | Some (from, to) =>
         call_animate_to a
           (fst (Step.onscreen_loc step)) (snd (Step.onscreen_loc step))
           (Step.move_duration step) (Step.overshoot_pixels step)
           (Step.sprite_anim_start step) (Step.sprite_delay step)
           (Some from) (Some to) (Step.eased_value step) ;;; ret tt
     | None =>
         call_animate_to a
           (fst (Step.onscreen_loc step)) (snd (Step.onscreen_loc step))
           (Step.move_duration step) (Step.overshoot_pixels step)
           None OvershootAnimator.default_sprite_delay
           None None (Step.eased_value step) ;;; ret tt
     end
   else if String.eqb (Step.type step) "change_palette" then
     change_palette_broadcast (Step.new_palette step)
   else ret tt)%loop.

(** Lines 631-662: the body of the [for i, step in enumerate(...)] loop;
    the result is the new value of [still_going]. *)
Definition dispatch (now : R) (i : nat) (step : Step.t) (still_going : bool) : M bool :=
  fun w =>
  if Rgeb (now - start_time w) (Step.start_time step) then
    ((if negb (Step.started step) then fire i step else ret tt) ;;;
     fun w' =>
     let last := (i =? length (steps w') - 1)%nat in
     match Step.animator step with
     | Some a =>
         (r <- call_tick a ;; ret (if last then r else still_going)) w'
     | None => ret (if last then false else still_going) w'
     end)%loop w
  else ret still_going w.

(** The [for] loop over [coordinator["steps"]] from index [i] on.  A pass
    changes of the list only the [started] entry of the step it is at, so
    the steps still to visit are read from the list as it was on entry. *)
Fixpoint for_steps (now : R) (i : nat) (todo : list Step.t) (still_going : bool) : M bool :=
  match todo with
  | [] => ret still_going
  | step :: todo' =>
      (sg <- dispatch now i step still_going ;;
       for_steps now (S i) todo' sg)%loop
  end.

(** Lines 627-664: one pass over the steps and the refresh. *)
Definition steps_pass : M bool :=
  (now <- read_clock ;;
   still_going <- (fun w => for_steps now 0 (steps w) true w) ;;
   log ev_refresh ;;;
   ret still_going)%loop.

(** Lines 668-673: the reset of one step, at index [j]. *)
Definition reset_step (j : nat) (step : Step.t) : M unit :=
  ((if String.eqb (Step.type step) "animation_step" then
      e <- get_tilegrid step ;;
      set_element e (fun el => Element.set_x el (fst (Step.offscreen_loc step))) ;;;
      log (ev_set_x e (fst (Step.offscreen_loc step))) ;;;
      set_element e (fun el => Element.set_y el (snd (Step.offscreen_loc step))) ;;;
      log (ev_set_y e (snd (Step.offscreen_loc step))) ;;;
      match Step.palettes step !! "default_palette" with
      | Some p =>
          set_element e (fun el => Element.set_pixel_shader el p) ;;;
          log (ev_set_pixel_shader e p)
      | None => ret tt
      end
    else ret tt) ;;;
   set_step_started j false)%loop.

Fixpoint reset_steps (j : nat) (todo : list Step.t) : M unit :=
  match todo with
  | [] => ret tt
  | step :: todo' => (reset_step j step ;;; reset_steps (S j) todo')%loop
  end.

(** Lines 666-680: the restart block. *)
Definition restart : M unit :=
  ((fun w => reset_steps 0 (steps w) w) ;;;
   (fun w =>
      match steps w !! 0%nat with
      | None => Raise IndexError
      | Some step0 =>
          (e <- get_tilegrid step0 ;;
           set_element e (fun el => Element.set_tile el 0) ;;;
           log (ev_set_tile e 0)) w
      end) ;;;
   log (ev_sleep 1) ;;;
   log ev_refresh ;;;
   t <- read_clock ;;
   set_start_time t)%loop.

(** The body of [while True]; the result is [still_going]. *)
Definition loop_body : M bool :=
  (still_going <- steps_pass ;;
   (if negb still_going then restart else ret tt) ;;;
   ret still_going)%loop.

End MainLoop.

(** ** Reading a trace *)

(** The writes the palette broadcast for [name] makes over the steps [l]. *)
Definition swap_events (name : string) (l : list Step.t) : list Event :=
  flat_map (fun s =>
    match Step.palettes s !! name, Step.tilegrid s with
    | Some p, Some e => [ev_set_pixel_shader e p]
    | _, _ => []
    end) l.

(** The writes the restart block makes while it resets the steps [l]. *)
Definition reset_events (l : list Step.t) : list Event :=
  flat_map (fun s =>
    if String.eqb (Step.type s) "animation_step" then
      match Step.tilegrid s with
      | Some e =>
          [ev_set_x e (fst (Step.offscreen_loc s));
           ev_set_y e (snd (Step.offscreen_loc s))] ++
          match Step.palettes s !! "default_palette" with
          | Some p => [ev_set_pixel_shader e p]
          | None => []
          end
      | None => []
      end
    else []) l.

(** The animators ticked in a stretch of trace, in order. *)
Definition tick_calls (evs : list Event) : list nat :=
  omap (fun ev => match ev with ev_tick a _ => Some a | _ => None end) evs.

(** The animators armed by [animate_to] in a stretch of trace, in order. *)
Definition animate_to_calls (evs : list Event) : list nat :=
  omap (fun ev => match ev with ev_animate_to a _ => Some a | _ => None end) evs.

(** Whether the start offset of a step has elapsed: [now - start_time >= step["start_time"]]. *)
Definition elapsed (now epoch : R) (s : Step.t) : bool :=
  Rgeb (now - epoch) (Step.start_time s).

(** The events of the restart block after the steps are reset: the apple's
    tile, the pause, the refresh and the clock read that re-bases the epoch. *)
Definition restart_tail (e0 n : nat) : list Event :=
  [ev_set_tile e0 0; ev_sleep 1; ev_refresh; ev_ticks_ms n].

(** The restart block raises nothing when the first step and every
    animation step have a tilegrid. *)
Definition resettable (l : list Step.t) : Prop :=
  (exists s0, l !! 0%nat = Some s0 /\ is_Some (Step.tilegrid s0)) /\
  forall s, s ∈ l -> Step.type s = "animation_step" -> is_Some (Step.tilegrid s).

(** The animators of the steps of [l] whose start offset has elapsed, in
    list order. *)
Definition ticked (now epoch : R) (l : list Step.t) : list nat :=
  omap (fun s => if elapsed now epoch s then Step.animator s else None) l.

(** The animators of the steps of [l] that fire an [animate_to]: animation
    steps whose offset has elapsed and that have not started yet. *)
Definition armed (now epoch : R) (l : list Step.t) : list nat :=
  omap (fun s =>
          if elapsed now epoch s && negb (Step.started s)
             && String.eqb (Step.type s) "animation_step"
          then Step.animator s else None) l.

(** How a pass that visits the steps [l] last sets [still_going], entered
    with the value [sg]: by the last event of [evs] when the last step has
    elapsed and owns an animator. *)
Definition decided_by_last (now epoch : R) (l : list Step.t) (sg : bool)
    (evs : list Event) (sg' : bool) : Prop :=
  match last l with
  | None => sg' = sg
  | Some s =>
      if elapsed now epoch s then
        match Step.animator s with
        | Some a => exists evs0, evs = evs0 ++ [ev_tick a sg']
        | None => sg' = false
        end
      else sg' = sg
  end.

(** ** Sample worlds *)

(** Three letters, two of which carry a red variant, and the swap step. *)
Definition red_a : Palette := mkPalette [0; 16711680]%Z [0%nat].
Definition red_b : Palette := mkPalette [0; 8388608]%Z [0%nat].
Definition plain : Palette := mkPalette [0; 16777215]%Z [0%nat].

Definition letter_at (t : R) (e : nat) (pals : gmap string Palette) : Step.t :=
  Step.mk "animation_step" t false (Some e) (Some e) (83, 240)%Z (83, 50)%Z
    0.45 20 None (Some (0, 15)%Z) (Some (1 / 35)) (Some 0.347) "" pals.

Definition letter (e : nat) (pals : gmap string Palette) : Step.t :=
  letter_at 0 e pals.

Definition swap_step (name : string) : Step.t :=
  Step.mk "change_palette" 4.75 false None None (0, 0)%Z (0, 0)%Z
    0 0 None None None None name ∅.

Definition three_letters : World :=
  {| elements := fun _ => Element.mk 83 50 0 plain;
     animators := fun e => OvershootAnimator.init e;
     steps := [letter 0 {["red_palette" := red_a]};
               letter 1 {["red_palette" := red_b]};
               letter 2 ∅;
               swap_step "red_palette"];
     start_time := 0; clock_reads := 0; trace := [] |}.

(** A show whose last step, a palette swap, is reached while the letter is
    still waiting for its start offset; the clock stands at 5 seconds. *)
Definition show_end : World :=
  {| elements := fun _ => Element.mk 83 50 3 red_a;
     animators := fun e => OvershootAnimator.init e;
     steps := [letter_at 10 0 {["default_palette" := plain]};
               swap_step "red_palette"];
     start_time := 0; clock_reads := 0; trace := [] |}.

Definition five_seconds : nat -> Z := fun _ => 5000%Z.

(** ** Further notions used to state properties *)

(** Times that follow each other, and the time [l], by at least [d]. *)
Fixpoint spaced (d l : R) (times : list R) : Prop :=
  match times with
  | [] => True
  | t :: times' => t >= l + d /\ spaced d t times'
  end.

(** The sprite attributes hold what [sprite_anim_tick] needs: nothing is
    armed, or both the frame delay and the last index are set. *)
Definition sprite_ok (self : OvershootAnimator.t) : Prop :=
  OvershootAnimator.cur_sprite_index self = None \/
  (is_Some (OvershootAnimator.sprite_anim_delay self) /\
   is_Some (OvershootAnimator.sprite_anim_to_index self)).

(** A step as a pass leaves it: started once its start offset has elapsed. *)
Definition mark_started (now epoch : R) (s : Step.t) : Step.t :=
  Step.set_started s (Step.started s || elapsed now epoch s).

(** The first [n] iterations of [while True]; the result lists the values
    of [still_going]. *)
Fixpoint run_loop (ticks_ms : nat -> Z) (n : nat) : M (list bool) :=
  match n with
  | O => ret []
  | S n' =>
      (still_going <- loop_body ticks_ms ;;
       rest <- run_loop ticks_ms n' ;;
       ret (still_going :: rest))%loop
  end.

(** A timeline made of one palette swap only. *)
Definition swap_only : World :=
  {| elements := fun _ => Element.mk 0 0 0 plain;
     animators := fun e => OvershootAnimator.init e;
     steps := [swap_step "red_palette"];
     start_time := 0; clock_reads := 0; trace := [] |}.

(** ** Setup of the show (lines 259-623) *)

(** [step["animator"] = a] and [step[name] = p]. *)
Definition step_set_animator (s : Step.t) (a : nat) : Step.t :=
  {| Step.type := Step.type s;
     Step.start_time := Step.start_time s;
     Step.started := Step.started s;
     Step.tilegrid := Step.tilegrid s;
     Step.animator := Some a;
     Step.offscreen_loc := Step.offscreen_loc s;
     Step.onscreen_loc := Step.onscreen_loc s;
     Step.move_duration := Step.move_duration s;
     Step.overshoot_pixels := Step.overshoot_pixels s;
     Step.eased_value := Step.eased_value s;
     Step.sprite_anim_range := Step.sprite_anim_range s;
     Step.sprite_delay := Step.sprite_delay s;
     Step.sprite_anim_start := Step.sprite_anim_start s;
     Step.new_palette := Step.new_palette s;
     Step.palettes := Step.palettes s |}.

Definition step_set_palette (s : Step.t) (name : string) (p : Palette) : Step.t :=
  {| Step.type := Step.type s;
     Step.start_time := Step.start_time s;
     Step.started := Step.started s;
     Step.tilegrid := Step.tilegrid s;
     Step.animator := Step.animator s;
     Step.offscreen_loc := Step.offscreen_loc s;
     Step.onscreen_loc := Step.onscreen_loc s;
     Step.move_duration := Step.move_duration s;
     Step.overshoot_pixels := Step.overshoot_pixels s;
     Step.eased_value := Step.eased_value s;
     Step.sprite_anim_range := Step.sprite_anim_range s;
     Step.sprite_delay := Step.sprite_delay s;
     Step.sprite_anim_start := Step.sprite_anim_start s;
     Step.new_palette := Step.new_palette s;
     Step.palettes := <[name := p]> (Step.palettes s) |}.

(** Lines 428-434: the palettes recorded on a step whose tilegrid is a
    [TileGrid], from its current [pixel_shader]. *)
Definition register_palettes (step : Step.t) (pixel_shader : Palette) : Step.t :=
  let step := step_set_palette step "default_palette" pixel_shader in
  let step := step_set_palette step "red_palette"
                (make_alternate_platte pixel_shader 0xff0000) in
  let step := step_set_palette step "yellow_palette"
                (make_alternate_platte pixel_shader 0xffff00) in
  let step := step_set_palette step "teal_palette"
                (make_alternate_platte pixel_shader 0x00ffff) in
  let step := step_set_palette step "pink_palette"
                (make_alternate_platte pixel_shader 0xff00ff) in
  let step := step_set_palette step "blue_palette"
                (make_alternate_platte pixel_shader 0x0000ff) in
  step_set_palette step "green_palette"
    (make_alternate_platte pixel_shader 0x00ff00).

(** [coordinator["steps"][k]] changed in place. *)
Definition update_step (k : nat) (f : Step.t -> Step.t) : M unit := fun w =>
  Ok (tt, {| elements := elements w; animators := animators w;
             steps := alter f k (steps w);
             start_time := start_time w; clock_reads := clock_reads w;
             trace := trace w |}).

(** [coordinator = {"steps": l}], [coordinator["steps"].insert(i, s)] and
    [coordinator["steps"].append(s)]. *)
Definition set_steps (l : list Step.t) : M unit := fun w =>
  Ok (tt, {| elements := elements w; animators := animators w; steps := l;
             start_time := start_time w; clock_reads := clock_reads w;
             trace := trace w |}).

Definition insert_step (i : nat) (s : Step.t) : M unit := fun w =>
  set_steps (take i (steps w) ++ s :: drop i (steps w)) w.

Definition append_step (s : Step.t) : M unit := fun w =>
  set_steps (steps w ++ [s]) w.

Section Setup.

(** Whether the object behind a handle is a [TileGrid] (and not a [Group]). *)
Variable is_TileGrid : nat -> bool.

(** Lines 426-438: the body of the setup loop for the step at index [k].  The
    animator created for the step is given the handle [k]; the result lists
    what was appended to [sliding_group]. *)
Definition setup_step (k : nat) (step : Step.t) : M (list nat) :=
  (e <- get_tilegrid step ;;
   appended <-
     (if is_TileGrid e then
        fun w =>
          let pixel_shader := Element.pixel_shader (elements w e) in
          (update_step k (fun s => register_palettes s pixel_shader) ;;; ret [e]) w
      else ret []) ;;
   set_element e (fun el => Element.set_x el (fst (Step.offscreen_loc step))) ;;;
   log (ev_set_x e (fst (Step.offscreen_loc step))) ;;;
   set_element e (fun el => Element.set_y el (snd (Step.offscreen_loc step))) ;;;
   log (ev_set_y e (snd (Step.offscreen_loc step))) ;;;
   set_animator k (OvershootAnimator.init e) ;;;
   update_step k (fun s => step_set_animator s k) ;;;
   ret appended)%loop.

(** The setup loop over the steps [todo], which sit in the list from index
    [k]; a step is read as it was on entry, the loop changing only the
    entries it adds. *)
Fixpoint setup_steps (k : nat) (todo : list Step.t) : M (list nat) :=
  match todo with
  | [] => ret []
  | step :: todo' =>
      (appended <- setup_step k step ;;
       rest <- setup_steps (S k) todo' ;;
       ret (appended ++ rest))%loop
  end.

End Setup.

Definition default_sprite_delay : R := 1 / 35.
Definition letters_x_start : Z := 83.

(** A step as the dict literals of lines 270-420 write it: no animator yet,
    no palette recorded. *)
Definition animation_step (tilegrid : nat) (offscreen_loc onscreen_loc : Z * Z)
    (move_duration overshoot_pixels : R) (eased_value : option R)
    (sprite_anim_range : option (Z * Z)) (sprite_delay : option R)
    (start_time : R) (sprite_anim_start : option R) : Step.t :=
  Step.mk "animation_step" start_time false (Some tilegrid) None
    offscreen_loc onscreen_loc move_duration overshoot_pixels eased_value
    sprite_anim_range sprite_delay sprite_anim_start "" ∅.

(** A step as the dict literals of lines 441-534 and 584-619 write it: the
    tilegrid and the animator are those of the step at index [src]. *)
Definition reused_step (src : nat) (offscreen_loc onscreen_loc : Z * Z)
    (move_duration overshoot_pixels : R) (eased_value : option R)
    (sprite_anim_range : option (Z * Z)) (sprite_delay : option R)
    (start_time : R) (sprite_anim_start : option R) : M Step.t := fun w =>
  match steps w !! src with
  | None => Raise IndexError
  | Some s0 =>
      (tilegrid <- get_tilegrid s0 ;;
       animator <- get_animator s0 ;;
       ret (Step.mk "animation_step" start_time false (Some tilegrid) (Some animator)
              offscreen_loc onscreen_loc move_duration overshoot_pixels eased_value
              sprite_anim_range sprite_delay sprite_anim_start "" ∅))%loop w
  end.

(** A step as the dict literals of lines 536-583 write it. *)
Definition change_palette (start_time : R) (new_palette : string) : Step.t :=
  Step.mk "change_palette" start_time false None None (0, 0)%Z (0, 0)%Z
    0 0 None None None None new_palette ∅.

(** Lines 268-423.  The tilegrids are, in the order of the literal, the
    handles 0 (apple), 1 (f), 2 (r), 3 ([sliding_group]), 4 (u), 5 (i),
    6 (t), 7 (j), 8 (a) and 9 (m). *)
Definition initial_steps : list Step.t :=
  [ animation_step 0 (0, -107)%Z (0, 21)%Z 0.45 1 None
      (Some (0, 11)%Z) (Some (1 / 42)) 0.0 (Some 0.347);
    animation_step 1 (letters_x_start, 240)%Z (letters_x_start, 50)%Z 0.45 20 None
      (Some (0, 15)%Z) (Some default_sprite_delay) 0.45 (Some 0.347);
    animation_step 2 (letters_x_start + 32 + 3, 240)%Z (letters_x_start + 32 + 3, 50)%Z
      0.45 20 None
      (Some (0, 15)%Z) (Some default_sprite_delay) 0.9 (Some 0.347);
    animation_step 3 (100, 0)%Z (30, 0)%Z 1.75 0 (Some 1)
      None None 0.9 None;
    animation_step 4 (letters_x_start + (32 + 3) * 2, 240)%Z
      (letters_x_start + (32 + 3) * 2, 50)%Z 0.45 20 None
      (Some (0, 15)%Z) (Some default_sprite_delay) 1.35 (Some 0.347);
    animation_step 5 (letters_x_start + (32 + 3) * 3, 240)%Z
      (letters_x_start + (32 + 3) * 3, 50)%Z 0.45 20 None
      (Some (0, 15)%Z) (Some default_sprite_delay) 1.8 (Some 0.347);
    animation_step 6 (letters_x_start + (32 + 3) * 3 + 16 + 3, 240)%Z
      (letters_x_start + (32 + 3) * 3 + 16 + 3, 50)%Z 0.45 20 None
      (Some (0, 15)%Z) (Some default_sprite_delay) 2.25 (Some 0.347);
    animation_step 7 (letters_x_start, 240)%Z (letters_x_start, 50 + 39)%Z 0.45 20 None
      (Some (0, 15)%Z) (Some default_sprite_delay) 2.7 (Some 0.347);
    animation_step 8 (letters_x_start + 32 + 3, 240)%Z
      (letters_x_start + 32 + 3, 50 + 39)%Z 0.45 20 None
      (Some (0, 15)%Z) (Some default_sprite_delay) 3.15 (Some 0.347);
    animation_step 9 (letters_x_start + 32 + 3 + 33 + 2, 240)%Z
      (letters_x_start + 32 + 3 + 33 + 2, 50 + 39)%Z 0.45 20 None
      (Some (0, 15)%Z) (Some default_sprite_delay) 3.6 (Some 0.347) ].

(** Lines 268-619: the timeline is built; the result lists the children
    appended to [sliding_group]. *)
Definition build_timeline : M (list nat) :=
  (set_steps initial_steps ;;;
   appended <- (fun w => setup_steps (fun e => negb (e =? 3)%nat) 0 (steps w) w) ;;
   s <- reused_step 1 (letters_x_start, 240)%Z (letters_x_start, 50)%Z 0.3 10 None
          (Some (16, 27)%Z) (Some (1 / 22)) 3.047 (Some 0.15) ;;
   insert_step 8 s ;;;
   s <- reused_step 2 (letters_x_start + 32 + 3, 240)%Z (letters_x_start + 32 + 3, 50)%Z
          0.3 10 None (Some (16, 27)%Z) (Some (1 / 22)) 3.497 (Some 0.15) ;;
   insert_step 10 s ;;;
   s <- reused_step 4 (letters_x_start + (32 + 3) * 2, 240)%Z
          (letters_x_start + (32 + 3) * 2, 50)%Z
          0.3 10 None (Some (16, 27)%Z) (Some (1 / 22)) 3.947 (Some 0.15) ;;
   append_step s ;;;
   s <- reused_step 5 (letters_x_start + (32 + 3) * 3, 240)%Z
          (letters_x_start + (32 + 3) * 3, 50)%Z
          0.3 10 None (Some (16, 27)%Z) (Some (1 / 22)) 4.047 (Some 0.15) ;;
   append_step s ;;;
   s <- reused_step 6 (letters_x_start + (32 + 3) * 3 + 16 + 3, 240)%Z
          (letters_x_start + (32 + 3) * 3 + 16 + 3, 50)%Z
          0.3 10 None (Some (16, 27)%Z) (Some (1 / 22)) 4.147 (Some 0.15) ;;
   append_step s ;;;
   append_step (change_palette 4.75 "red_palette") ;;;
   append_step (change_palette 5 "yellow_palette") ;;;
   append_step (change_palette 5.25 "teal_palette") ;;;
   append_step (change_palette 5.5 "pink_palette") ;;;
   append_step (change_palette 5.75 "blue_palette") ;;;
   append_step (change_palette 6.00 "green_palette") ;;;
   s <- reused_step 0 (0, -107)%Z (0, 21)%Z 0.01 0 None
          (Some (12, 27)%Z) (Some (1 / 32)) 6.25 (Some 0.0) ;;
   append_step s ;;;
   s <- reused_step 0 (0, -107)%Z (0, 21)%Z 0.01 0 None
          (Some (12, 27)%Z) (Some (1 / 32)) 8.55 (Some 0.0) ;;
   append_step s ;;;
   ret appended)%loop.

(** Lines 621-623: the timeline is built, then the epoch is read. *)
Definition program_start (ticks_ms : nat -> Z) : M (list nat) :=
  (appended <- build_timeline ;;
   t <- read_clock ticks_ms ;;
   set_start_time t ;;;
   ret appended)%loop.

(** The objects before the setup: every tilegrid at (0, 0) showing tile 0,
    with the palette of its sprite sheet. *)
Definition fresh_world (sheet_palette : nat -> Palette) : World :=
  {| elements := fun e => Element.mk 0 0 0 (sheet_palette e);
     animators := fun e => OvershootAnimator.init e;
     steps := []; start_time := 0; clock_reads := 0; trace := [] |}.

(** ** Timelines that cannot make the loop raise *)

(** A step whose entries cannot make the loop raise: an animation step has a
    tilegrid and an animator, a positive duration, an eased value other than
    0 and, when it cycles sprites, a frame delay; a step that carries a
    palette has a tilegrid. *)
Definition safe_step (s : Step.t) : Prop :=
  (Step.type s = "animation_step" ->
   is_Some (Step.tilegrid s) /\ is_Some (Step.animator s) /\
   0 < Step.move_duration s /\ Step.eased_value s <> Some 0 /\
   (is_Some (Step.sprite_anim_range s) -> is_Some (Step.sprite_anim_start s) ->
    is_Some (Step.sprite_delay s))) /\
  (forall name, is_Some (Step.palettes s !! name) -> is_Some (Step.tilegrid s)).

Definition safe_timeline (l : list Step.t) : Prop :=
  (exists s0, l !! 0%nat = Some s0 /\ is_Some (Step.tilegrid s0)) /\
  Forall safe_step l.

(** The clock never goes back. *)
Definition monotone_clock (ticks_ms : nat -> Z) : Prop :=
  forall m n, (m <= n)%nat -> (ticks_ms m <= ticks_ms n)%Z.

(** An animator that [tick] can be called on at any clock reading from the
    [reads]-th on: it is idle, or its move has a positive duration and did
    not start after those readings. *)
Definition anim_safe (ticks_ms : nat -> Z) (reads : nat) (an : OvershootAnimator.t) : Prop :=
  sprite_ok an /\ OvershootAnimator.eased_value an <> Some 0 /\
  ((OvershootAnimator.cur_sprite_index an = None /\
    OvershootAnimator.pos_animating an = false) \/
   (0 < OvershootAnimator.duration an /\
    forall m, (reads <= m)%nat ->
              OvershootAnimator.start_time an <= IZR (ticks_ms m) / 1000)).

Definition safe_world (ticks_ms : nat -> Z) (w : World) : Prop :=
  safe_timeline (steps w) /\
  forall a, anim_safe ticks_ms (clock_reads w) (animators w a).

(** ** Notions used to state what the setup and the show do *)

(** What the setup loop makes of the list entry [s] at index [k], read as
    [step]: the palettes recorded when the tilegrid is a [TileGrid], then the
    animator. *)
Definition setup_entry (is_TileGrid : nat -> bool) (els : nat -> Element.t)
    (k : nat) (step s : Step.t) : Step.t :=
  step_set_animator
    (match Step.tilegrid step with
     | Some e =>
         if is_TileGrid e
         then register_palettes s (Element.pixel_shader (els e))
         else s
     | None => s
     end) k.


(** The world the main loop is entered with, short of the epoch: the show as
    lines 268-619 build it from the sprite sheets' palettes. *)
Definition shipped (sheet_palette : nat -> Palette) : World :=
  match build_timeline (fresh_world sheet_palette) with
  | Ok (_, w) => w
  | Raise _ => fresh_world sheet_palette
  end.

(** The program: the setup, then the first [n] iterations of [while True]. *)
Definition program (ticks_ms : nat -> Z) (n : nat) : M (list nat * list bool) :=
  (appended <- program_start ticks_ms ;;
   results <- run_loop ticks_ms n ;;
   ret (appended, results))%loop.

(** Lines 429-434: the names of the palette variants and their masks. *)
Definition variant_masks : list (string * Z) :=
  [("red_palette", 0xff0000); ("yellow_palette", 0xffff00);
   ("teal_palette", 0x00ffff); ("pink_palette", 0xff00ff);
   ("blue_palette", 0x0000ff); ("green_palette", 0x00ff00)]%Z.


(** ** Palette names and the other keys of a step *)

(** The keys of the step dicts other than the names of palettes (the
    literals of lines 270-618 and line 438).  The model keeps the palettes
    of a step apart from its other entries, while [name in _cur_step]
    (line 652) looks at every key: a broadcast is modelled for a name that
    is none of these keys. *)
Definition step_keys : list string :=
  ["type"; "tilegrid"; "animator"; "offscreen_loc"; "onscreen_loc";
   "move_duration"; "overshoot_pixels"; "eased_value"; "sprite_anim_range";
   "sprite_delay"; "start_time"; "sprite_anim_start"; "started"; "new_palette"].

(** The [change_palette] steps of [l] name palettes, not other keys. *)
Definition palette_names (l : list Step.t) : Prop :=
  forall s, s ∈ l -> Step.type s = "change_palette" -> Step.new_palette s ∉ step_keys.

(** The palette writes in a stretch of trace, in order. *)
Definition palette_writes (evs : list Event) : list Event :=
  omap (fun ev => match ev with
                  | ev_set_pixel_shader e p => Some (ev_set_pixel_shader e p)
                  | _ => None
                  end) evs.

(** The palette writes of a pass over the steps [todo] of the list [l]: the
    broadcasts of the [change_palette] steps whose offset has elapsed and
    that have not started yet, in list order. *)
Definition swapped (now epoch : R) (l todo : list Step.t) : list Event :=
  flat_map (fun s =>
              if elapsed now epoch s && negb (Step.started s)
                 && String.eqb (Step.type s) "change_palette"
              then swap_events (Step.new_palette s) l else []) todo.

(** ** The cadence of the frames *)


(** ** Where the real numbers stand for the floats *)

(** The model computes with real numbers, which neither overflow nor turn
    into [nan]; the floats of the program do, and [math.sqrt], [int()] and
    the conversion of a large [int] then raise [OverflowError] or
    [ValueError].  A property that says that a call returns is stated for
    coordinates and distances within [coord_limit] and for an eased value
    that is not tiny: there every float of lines 79-106 and 160-203 is
    finite. *)
Definition coord_limit : Z := 2 ^ 31.

Definition coord_ok (v : Z) : Prop := (Z.abs v <= coord_limit)%Z.

Definition real_ok (v : R) : Prop := Rabs v <= IZR coord_limit.

Definition option_ok (P : R -> Prop) (o : option R) : Prop :=
  match o with
  | Some v => P v
  | None => True
  end.

(** The arguments of a call of [animate_to] on an element at [el]. *)
Definition animate_to_in_range (el : Element.t) (target_x target_y : Z)
    (overshoot_pixels : R) (start_sprite_anim_at : option R) : Prop :=
  coord_ok (Element.x el) /\ coord_ok (Element.y el) /\
  coord_ok target_x /\ coord_ok target_y /\
  real_ok overshoot_pixels /\ option_ok real_ok start_sprite_anim_at.

(** The attributes of an animator that [tick] computes with. *)
Definition tick_in_range (self : OvershootAnimator.t) : Prop :=
  coord_ok (OvershootAnimator.start_x self) /\
  coord_ok (OvershootAnimator.start_y self) /\
  coord_ok (OvershootAnimator.target_x self) /\
  coord_ok (OvershootAnimator.target_y self) /\
  real_ok (OvershootAnimator.overshoot_x self) /\
  real_ok (OvershootAnimator.overshoot_y self) /\
  real_ok (OvershootAnimator.duration self) /\
  option_ok real_ok (OvershootAnimator.sprite_anim_delay self) /\
  option_ok (fun v => / IZR coord_limit <= Rabs v) (OvershootAnimator.eased_value self).

(** A step asks for positions and an overshoot within half the limit, so
    that no position between a start, an overshoot point and a target
    leaves the limit, and for an eased value of 1 or more, with which the
    linear curve stays between the start and the target. *)
Definition step_in_range (s : Step.t) : Prop :=
  (2 * Z.abs (fst (Step.offscreen_loc s)) <= coord_limit)%Z /\
  (2 * Z.abs (snd (Step.offscreen_loc s)) <= coord_limit)%Z /\
  (2 * Z.abs (fst (Step.onscreen_loc s)) <= coord_limit)%Z /\
  (2 * Z.abs (snd (Step.onscreen_loc s)) <= coord_limit)%Z /\
  2 * Rabs (Step.overshoot_pixels s) <= IZR coord_limit /\
  real_ok (Step.move_duration s) /\
  option_ok (fun v => 1 <= v) (Step.eased_value s) /\
  option_ok real_ok (Step.sprite_anim_start s) /\
  option_ok real_ok (Step.sprite_delay s).

(** No palette of the steps of [l] is registered under another key of a
    step. *)
Definition palettes_apart (l : list Step.t) : Prop :=
  forall s k, s ∈ l -> k ∈ step_keys -> Step.palettes s !! k = None.

(** A world within the limit: the [change_palette] steps name palettes, the
    palettes have names of their own, the animation steps are in range, and
    so are the elements and what the animators hold. *)
Definition world_in_range (w : World) : Prop :=
  palette_names (steps w) /\ palettes_apart (steps w) /\
  (forall s, s ∈ steps w -> Step.type s = "animation_step" -> step_in_range s) /\
  (forall e, coord_ok (Element.x (elements w e)) /\ coord_ok (Element.y (elements w e))) /\
  (forall a, coord_ok (OvershootAnimator.start_x (animators w a)) /\
             coord_ok (OvershootAnimator.start_y (animators w a)) /\
             coord_ok (OvershootAnimator.target_x (animators w a)) /\
             coord_ok (OvershootAnimator.target_y (animators w a)) /\
             real_ok (OvershootAnimator.overshoot_x (animators w a)) /\
             real_ok (OvershootAnimator.overshoot_y (animators w a)) /\
             real_ok (OvershootAnimator.duration (animators w a)) /\
             option_ok real_ok (OvershootAnimator.sprite_anim_delay (animators w a)) /\
             option_ok (fun v => 1 <= v) (OvershootAnimator.eased_value (animators w a))).


(** * Properties *)

(** ** Float comparisons *)

Lemma Rleb_true a b : a <= b -> Rleb a b = true.
Proof. intros H. unfold Rleb. destruct (Rle_dec a b); [reflexivity | contradiction]. Qed.

Lemma Rleb_false a b : b < a -> Rleb a b = false.
Proof. intros H. unfold Rleb. destruct (Rle_dec a b); [lra | reflexivity]. Qed.

Lemma Rltb_true a b : a < b -> Rltb a b = true.
Proof. intros H. unfold Rltb. destruct (Rlt_dec a b); [reflexivity | contradiction]. Qed.

Lemma Rltb_false a b : b <= a -> Rltb a b = false.
Proof. intros H. unfold Rltb. destruct (Rlt_dec a b); [lra | reflexivity]. Qed.

Lemma Rgeb_true a b : a >= b -> Rgeb a b = true.
Proof. intros H. apply Rleb_true. lra. Qed.

Lemma Rgeb_false a b : a < b -> Rgeb a b = false.
Proof. intros H. apply Rleb_false. lra. Qed.

Lemma Rgtb_true a b : a > b -> Rgtb a b = true.
Proof. intros H. apply Rltb_true. lra. Qed.

Lemma Rgtb_false a b : a <= b -> Rgtb a b = false.
Proof. intros H. apply Rltb_false. lra. Qed.

Lemma Rgeb_spec a b : Rgeb a b = true <-> a >= b.
Proof.
  unfold Rgeb, Rleb. destruct (Rle_dec b a); split; intros H;
    try lra; try reflexivity; discriminate.
Qed.

Lemma Rdiv_nonneg a b : 0 <= a -> 0 < b -> 0 <= a / b.
Proof.
  intros Ha Hb. unfold Rdiv. apply Rmult_le_pos; [assumption |].
  left. apply Rinv_0_lt_compat. assumption.
Qed.

Lemma py_div_ok a b : b <> 0 -> py_div a b = Ok (a / b).
Proof. intros H. unfold py_div. destruct (Req_dec_T b 0); [contradiction | reflexivity]. Qed.

Lemma py_pow_pos b e : 0 < b -> py_pow b e = Ok (Rpower b e).
Proof.
  intros H. unfold py_pow.
  destruct (Rlt_dec b 0); [lra |]. destruct (Req_dec_T b 0); [lra | reflexivity].
Qed.

(** [int(r)] of a non-negative float between two consecutive integers. *)
Lemma py_int_between (r : R) (z : Z) : 0 <= r -> IZR z <= r < IZR z + 1 -> py_int r = z.
Proof.
  intros H0 H. unfold py_int. destruct (Rle_dec 0 r); [| contradiction].
  symmetry. apply Int_part_spec. lra.
Qed.

Lemma py_int_IZR (z : Z) : py_int (IZR z) = z.
Proof.
  unfold py_int. destruct (Rle_dec 0 (IZR z)).
  - symmetry. apply Int_part_spec. lra.
  - rewrite <- opp_IZR. rewrite <- (Int_part_spec (IZR (- z)) (- z)) by lra. lia.
Qed.

(** [x ** 1.2] lies where its fifth power [x ^ 6] puts it. *)
Lemma Rpower_6_5_fifth (x : R) : 0 < x -> Rpower x 1.2 ^ 5 = x ^ 6.
Proof.
  intros Hx.
  rewrite <- (Rpower_pow 5) by (unfold Rpower; apply exp_pos).
  rewrite Rpower_mult.
  replace (1.2 * INR 5) with (INR 6) by (simpl; lra).
  apply Rpower_pow; assumption.
Qed.

Lemma Rpower_6_5_lower (x lo : R) : 0 < x -> 0 <= lo -> lo ^ 5 < x ^ 6 -> lo < Rpower x 1.2.
Proof.
  intros Hx Hlo H. rewrite <- Rpower_6_5_fifth in H by assumption.
  destruct (Rlt_dec lo (Rpower x 1.2)) as [|Hn]; [assumption | exfalso].
  assert (Hle : Rpower x 1.2 ^ 5 <= lo ^ 5).
  { apply pow_incr. split; [left; unfold Rpower; apply exp_pos | lra]. }
  lra.
Qed.

Lemma Rpower_6_5_upper (x hi : R) : 0 < x -> 0 <= hi -> x ^ 6 < hi ^ 5 -> Rpower x 1.2 < hi.
Proof.
  intros Hx Hhi H. rewrite <- Rpower_6_5_fifth in H by assumption.
  destruct (Rlt_dec (Rpower x 1.2) hi) as [|Hn]; [assumption | exfalso].
  assert (Hle : hi ^ 5 <= Rpower x 1.2 ^ 5).
  { apply pow_incr. split; lra. }
  lra.
Qed.

(** ** [animate_to] *)

Section AnimateTo.
Import OvershootAnimator.

Lemma zero_distance (a b : Z) :
  Rleb (sqrt (IZR ((a - a) * (a - a) + (b - b) * (b - b)))) 0 = true.
Proof.
  rewrite !Z.sub_diag. change (0 * 0 + 0 * 0)%Z with 0%Z. rewrite sqrt_0.
  apply Rleb_true. lra.
Qed.

(** C1, as stated, fails: a call whose target is the element's position,
    made with sprite parameters on an idle animator, returns [False] but
    arms the sprite cycle and overwrites the start time, the duration and
    the overshoot distance. *)
Lemma animate_to_same_position_not_noop :
  let el := Element.mk 5 5 0 (mkPalette [] []) in
  let self := init 0 in
  let r := animate_to 1 self el 5 5 1 20 (Some 0) (Some (1 / 60))
             (Some 0%Z) (Some 3%Z) None in
  fst r = false /\
  cur_sprite_index self = None /\ cur_sprite_index (snd r) = Some 0%Z /\
  sprite_anim_to_index self = None /\ sprite_anim_to_index (snd r) = Some 3%Z /\
  OvershootAnimator.start_time self = 0 /\ OvershootAnimator.start_time (snd r) = 1 /\
  duration self = 0 /\ duration (snd r) = 1 /\
  snd r <> self.
Proof.
  cbv zeta. unfold animate_to.
  cbn [start_x start_y record_start arm_sprite store_target Element.x Element.y].
  rewrite zero_distance. cbn.
  repeat split; try reflexivity.
  intros H. apply (f_equal cur_sprite_index) in H. discriminate H.
Qed.

(** C1, amended: a call of [animate_to] whose target is the element's
    current position returns [False] and arms no position motion
    ([pos_animating], [overshoot_x/y], [eased_value] and
    [last_sprite_frame_time] keep their values); it still records the start
    position and time, the target, the duration and the overshoot distance,
    and it arms the sprite cycle when [start_sprite_anim_at] is given. *)
Theorem animate_to_same_position
    (_now : R) (self : t) (el : Element.t) (tx ty : Z) (dur op : R)
    (start_sprite_anim_at sprite_delay : option R)
    (sprite_from_index sprite_to_index : option Z) (ev : option R) :
  tx = Element.x el -> ty = Element.y el ->
  let r := animate_to _now self el tx ty dur op start_sprite_anim_at
             sprite_delay sprite_from_index sprite_to_index ev in
  let self' := snd r in
  fst r = false /\
  (element self' = element self /\
   pos_animating self' = pos_animating self /\
   overshoot_x self' = overshoot_x self /\
   overshoot_y self' = overshoot_y self /\
   eased_value self' = eased_value self /\
   last_sprite_frame_time self' = last_sprite_frame_time self) /\
  (start_x self' = Element.x el /\ start_y self' = Element.y el /\
   OvershootAnimator.start_time self' = _now /\
   target_x self' = tx /\ target_y self' = ty /\
   duration self' = dur /\ overshoot_pixels self' = op) /\
  match start_sprite_anim_at with
  | Some at_ =>
      cur_sprite_index self' = sprite_from_index /\
      sprite_anim_from_index self' = sprite_from_index /\
      sprite_anim_to_index self' = sprite_to_index /\
      sprite_anim_delay self' = sprite_delay /\
      sprite_anim_start_time self' = _now + at_
  | None =>
      cur_sprite_index self' = cur_sprite_index self /\
      sprite_anim_from_index self' = sprite_anim_from_index self /\
      sprite_anim_to_index self' = sprite_anim_to_index self /\
      sprite_anim_delay self' = sprite_anim_delay self /\
      sprite_anim_start_time self' = sprite_anim_start_time self
  end.
Proof.
  intros -> ->. cbv zeta. unfold animate_to.
  destruct start_sprite_anim_at as [at_|];
    cbn [start_x start_y record_start arm_sprite store_target];
    rewrite zero_distance; cbn; repeat split; reflexivity.
Qed.

Lemma animate_to_same_position_witness :
  let el := Element.mk 83 50 15 (mkPalette [] []) in
  let r := animate_to 3 (init 0) el 83 50 0.3 10 (Some 0.15) (Some (1 / 22))
             (Some 16%Z) (Some 27%Z) None in
  fst r = false /\ pos_animating (snd r) = false /\
  cur_sprite_index (snd r) = Some 16%Z.
Proof.
  pose proof (animate_to_same_position 3 (init 0)
                (Element.mk 83 50 15 (mkPalette [] [])) 83 50 0.3 10
                (Some 0.15) (Some (1 / 22)) (Some 16%Z) (Some 27%Z) None
                eq_refl eq_refl) as H.
  cbv zeta in H. destruct H as (Hr & (_ & Hp & _) & _ & Hc & _).
  cbv zeta. repeat split; [exact Hr | rewrite Hp; reflexivity | exact Hc].
Defined.

End AnimateTo.

(** ** [sprite_anim_tick] and [tick] *)

Section Tick.
Import OvershootAnimator.

(** The sub-tick when the frame delay has elapsed. *)
Lemma sprite_anim_tick_due (cur_time d : R) (c to : Z) (self : t) (el : Element.t) :
  sprite_anim_delay self = Some d ->
  cur_sprite_index self = Some c ->
  sprite_anim_to_index self = Some to ->
  cur_time >= last_sprite_frame_time self + d ->
  sprite_anim_tick cur_time self el =
    Ok (if (c + 1 >? to)%Z
        then (false, reset_sprite (advance_sprite self cur_time (c + 1)),
              Element.set_tile el c)
        else (true, advance_sprite self cur_time (c + 1), Element.set_tile el c)).
Proof.
  intros Hd Hc Hto Hdue. unfold sprite_anim_tick.
  rewrite Hd. cbn [not_None rbind]. rewrite Rgeb_true by assumption.
  rewrite Hc. cbn [not_None rbind advance_sprite sprite_anim_to_index].
  rewrite Hto. cbn [not_None rbind].
  destruct (c + 1 >? to)%Z; reflexivity.
Qed.


(** The position part of [tick] never touches the sprite cycle, the motion
    parameters, the tile or the palette. *)
Lemma tick_position_frame (_now : R) (b : bool) (self self' : t)
    (el el' : Element.t) (r : bool) :
  tick_position _now b self el = Ok (r, self', el') ->
  sprite_fields self' = sprite_fields self /\
  motion_fields self' = motion_fields self /\
  element self' = element self /\
  Element.tile el' = Element.tile el /\
  Element.pixel_shader el' = Element.pixel_shader el.
Proof.
  unfold tick_position. intros H.
  destruct (py_div (_now - OvershootAnimator.start_time self) (duration self))
    as [progress|e]; [| discriminate H].
  cbn [rbind] in H. destruct (Rgeb progress 1).
  - injection H as <- <- <-.
    repeat split; try reflexivity;
      destruct (negb (Element.x el =? target_x self)%Z
                || negb (Element.y el =? target_y self)%Z); reflexivity.
  - destruct (curve self progress) as [[[[[fx fy] tx] ty] eased]|e];
      [| discriminate H].
    cbn [rbind] in H. injection H as <- <- <-. repeat split; reflexivity.
Qed.

(** The completion branch: [progress >= 1.0]. *)
Lemma tick_position_done (_now : R) (b : bool) (self : t) (el : Element.t) :
  duration self <> 0 ->
  (_now - OvershootAnimator.start_time self) / duration self >= 1 ->
  exists el',
    tick_position _now b self el = Ok (b, clear_pos_animating self, el') /\
    Element.x el' = target_x self /\ Element.y el' = target_y self /\
    Element.tile el' = Element.tile el /\
    Element.pixel_shader el' = Element.pixel_shader el.
Proof.
  intros Hd Hp. unfold tick_position.
  rewrite py_div_ok by assumption. cbn [rbind].
  rewrite Rgeb_true by assumption.
  destruct (Element.x el =? target_x self)%Z eqn:Hx;
    destruct (Element.y el =? target_y self)%Z eqn:Hy; cbn [negb orb];
    eexists; (split; [reflexivity |]); repeat split; try reflexivity.
  - apply Z.eqb_eq; assumption.
  - apply Z.eqb_eq; assumption.
Qed.

Lemma curve_ok (self : t) (progress : R) :
  0 <= progress -> eased_value self <> Some 0 ->
  exists c, curve self progress = Ok c.
Proof.
  intros Hp Hev. unfold curve.
  destruct (Rgtb (overshoot_pixels self) 0).
  - destruct (Rltb progress 0.7); [| eexists; reflexivity].
    unfold py_pow. destruct (Rlt_dec (progress / 0.7) 0) as [Hneg|_].
    + exfalso. assert (0 <= progress / 0.7) by (apply Rdiv_nonneg; lra). lra.
    + destruct (Req_dec_T (progress / 0.7) 0); eexists; reflexivity.
  - destruct (eased_value self) as [v|]; [| eexists; reflexivity].
    rewrite py_div_ok by congruence. eexists; reflexivity.
Qed.


(** The sub-tick never touches the position motion or the element's
    position and palette. *)
Lemma sprite_anim_tick_frame (cur_time : R) (self self' : t)
    (el el' : Element.t) (r : bool) :
  sprite_anim_tick cur_time self el = Ok (r, self', el') ->
  motion_fields self' = motion_fields self /\
  pos_animating self' = pos_animating self /\
  element self' = element self /\
  Element.x el' = Element.x el /\ Element.y el' = Element.y el /\
  Element.pixel_shader el' = Element.pixel_shader el.
Proof.
  unfold sprite_anim_tick. intros H.
  destruct (sprite_anim_delay self) as [d|]; [| discriminate H].
  cbn [not_None rbind] in H.
  destruct (Rgeb cur_time (last_sprite_frame_time self + d)).
  - destruct (cur_sprite_index self) as [c|]; [| discriminate H].
    cbn [not_None rbind advance_sprite sprite_anim_to_index] in H.
    destruct (sprite_anim_to_index self) as [to|]; [| discriminate H].
    cbn [not_None rbind] in H.
    destruct (c + 1 >? to)%Z; injection H as <- <- <-; repeat split; reflexivity.
  - injection H as <- <- <-. repeat split; reflexivity.
Qed.

(** A due sub-tick that does not end the range, on the sprite attributes. *)
Lemma sprite_anim_tick_step (cur_time l s d : R) (c to : Z) (f : option Z)
    (self : t) (el : Element.t) :
  sprite_fields self = (Some c, l, s, f, Some to, Some d) ->
  cur_time >= l + d -> (c + 1 <= to)%Z ->
  sprite_anim_tick cur_time self el =
    Ok (true, advance_sprite self cur_time (c + 1), Element.set_tile el c) /\
  sprite_fields (advance_sprite self cur_time (c + 1)) =
    (Some (c + 1)%Z, cur_time, s, f, Some to, Some d).
Proof.
  unfold sprite_fields. intros H Hdue Hle.
  injection H as Hc Hl Hs Hf Hto Hd. split.
  - rewrite (sprite_anim_tick_due cur_time d c to) by (try assumption; lra).
    destruct (c + 1 >? to)%Z eqn:E; [lia | reflexivity].
  - cbn. rewrite Hs, Hf, Hto, Hd. reflexivity.
Qed.

(** A due sub-tick that ends the range, on the sprite attributes. *)
Lemma sprite_anim_tick_last (cur_time l s d : R) (c to : Z) (f : option Z)
    (self : t) (el : Element.t) :
  sprite_fields self = (Some c, l, s, f, Some to, Some d) ->
  cur_time >= l + d -> (c + 1 > to)%Z ->
  sprite_anim_tick cur_time self el =
    Ok (false, reset_sprite (advance_sprite self cur_time (c + 1)),
        Element.set_tile el c) /\
  sprite_fields (reset_sprite (advance_sprite self cur_time (c + 1))) =
    (None, -1, -1, None, None, None).
Proof.
  unfold sprite_fields. intros H Hdue Hgt.
  injection H as Hc Hl Hs Hf Hto Hd. split.
  - rewrite (sprite_anim_tick_due cur_time d c to) by (try assumption; lra).
    destruct (c + 1 >? to)%Z eqn:E; [reflexivity | lia].
  - reflexivity.
Qed.

(** The sprite part of [tick] leaves the position motion alone. *)
Lemma tick_sprite_frame (_now : R) (self : t) (el : Element.t) (f : flow) :
  tick_sprite _now self el = Ok f ->
  let '(self', el') :=
    match f with
    | Return_False self' el' => (self', el')
    | Continue _ self' el' => (self', el')
    end in
  motion_fields self' = motion_fields self /\
  pos_animating self' = pos_animating self /\
  element self' = element self /\
  Element.x el' = Element.x el /\ Element.y el' = Element.y el /\
  Element.pixel_shader el' = Element.pixel_shader el.
Proof.
  unfold tick_sprite. intros H.
  destruct (cur_sprite_index self) as [c|].
  - destruct (Rgeb _now (sprite_anim_start_time self)).
    + destruct (sprite_anim_tick _now self el) as [[[r self1] el1]|e] eqn:E;
        [| discriminate H].
      cbn [rbind] in H. apply sprite_anim_tick_frame in E.
      destruct r; cbn [negb] in H; injection H as <-; exact E.
    + injection H as <-. repeat split; reflexivity.
  - destruct (negb (pos_animating self)); injection H as <-;
      repeat split; reflexivity.
Qed.

(** When the first part of [tick] goes on to the position motion, the value
    of [still_sprite_animating] says whether a sprite cycle is armed and
    its fire time has been reached. *)
Lemma tick_sprite_continue (_now : R) (self self1 : t) (el el1 : Element.t)
    (still : bool) :
  tick_sprite _now self el = Ok (Continue still self1 el1) ->
  still = true <->
  is_Some (cur_sprite_index self) /\ _now >= sprite_anim_start_time self.
Proof.
  unfold tick_sprite. intros H.
  destruct (cur_sprite_index self) as [c|].
  - destruct (Rgeb _now (sprite_anim_start_time self)) eqn:Hfire.
    + apply Rgeb_spec in Hfire.
      destruct (sprite_anim_tick _now self el) as [[[r self2] el2]|e];
        [| discriminate H].
      cbn [rbind] in H. destruct r; cbn [negb] in H; [| discriminate H].
      injection H as <- _ _. split; [intros _; split; [eexists; reflexivity | assumption] | reflexivity].
    + injection H as <- _ _. split; [discriminate |].
      intros [_ Hge]. apply Rgeb_spec in Hge. congruence.
  - destruct (negb (pos_animating self)); [discriminate H |].
    injection H as <- _ _. split; [discriminate |].
    intros [[c Hc] _]. discriminate Hc.
Qed.

End Tick.

Section TickClaims.
Import OvershootAnimator.

(** C4: when the armed sprite sub-animation finishes on a call of [tick]
    (the frame index advances past [sprite_anim_to_index]), the call
    returns [False] at once: the element's position is not updated and
    the position motion is left as it was, [pos_animating] included. *)
Theorem tick_sprite_finish_short_circuit (_now d : R) (c to : Z)
    (self : t) (el : Element.t) :
  cur_sprite_index self = Some c ->
  sprite_anim_to_index self = Some to ->
  sprite_anim_delay self = Some d ->
  _now >= sprite_anim_start_time self ->
  _now >= last_sprite_frame_time self + d ->
  (c + 1 > to)%Z ->
  exists self' el',
    tick _now self el = Ok (false, self', el') /\
    Element.x el' = Element.x el /\ Element.y el' = Element.y el /\
    Element.tile el' = c /\
    pos_animating self' = pos_animating self /\
    motion_fields self' = motion_fields self /\
    sprite_fields self' = (None, -1, -1, None, None, None).
Proof.
  intros Hc Hto Hd Hfire Hdue Hgt.
  exists (reset_sprite (advance_sprite self _now (c + 1))), (Element.set_tile el c).
  split; [| repeat split; reflexivity].
  unfold tick, tick_sprite. rewrite Hc, Rgeb_true by assumption.
  rewrite (sprite_anim_tick_due _now d c to) by assumption.
  destruct (c + 1 >? to)%Z eqn:E; [reflexivity | lia].
Qed.

Lemma tick_sprite_finish_short_circuit_witness :
  let self := mk 0 true 0 0 0 0 100 0 120 1 20 None
                (Some 3%Z) 0.2 0 (Some 0%Z) (Some 3%Z) (Some 0.1) in
  let el := Element.mk 0 40 2 (mkPalette [] []) in
  exists self' el',
    tick 0.5 self el = Ok (false, self', el') /\
    Element.y el' = 40%Z /\ Element.tile el' = 3%Z /\
    pos_animating self' = true.
Proof.
  cbv zeta.
  destruct (tick_sprite_finish_short_circuit 0.5 0.1 3 3
              (mk 0 true 0 0 0 0 100 0 120 1 20 None
                 (Some 3%Z) 0.2 0 (Some 0%Z) (Some 3%Z) (Some 0.1))
              (Element.mk 0 40 2 (mkPalette [] [])))
    as (self' & el' & Ht & _ & Hy & Htile & Hp & _).
  - reflexivity.
  - reflexivity.
  - reflexivity.
  - cbn. lra.
  - cbn. lra.
  - lia.
  - exists self', el'. repeat split; assumption.
Defined.

(** C5: a call of [tick] that reaches the position motion with
    [progress >= 1.0] puts the element exactly at [(target_x, target_y)],
    clears [pos_animating], and returns [True] when the sprite
    sub-animation is running (armed, its fire time reached, not finished
    by this call) and [False] otherwise. *)
Theorem tick_completion_snaps_to_target (_now : R) (self self1 : t)
    (el el1 : Element.t) (still : bool) :
  tick_sprite _now self el = Ok (Continue still self1 el1) ->
  duration self <> 0 ->
  (_now - OvershootAnimator.start_time self) / duration self >= 1 ->
  exists self' el',
    tick _now self el = Ok (still, self', el') /\
    Element.x el' = target_x self /\ Element.y el' = target_y self /\
    pos_animating self' = false /\
    (still = true <->
     is_Some (cur_sprite_index self) /\ _now >= sprite_anim_start_time self).
Proof.
  intros Hflow Hd Hp.
  pose proof (tick_sprite_frame _ _ _ _ Hflow) as Hfr. cbn in Hfr.
  destruct Hfr as (Hm & _). unfold motion_fields in Hm.
  injection Hm as Hst _ _ Htx Hty _ _ Hdur _ _.
  destruct (tick_position_done _now still self1 el1) as (el' & Ht & Hx & Hy & _).
  - rewrite Hdur. assumption.
  - rewrite Hst, Hdur. assumption.
  - exists (clear_pos_animating self1), el'.
    split; [| split; [| split; [| split]]].
    + unfold tick. rewrite Hflow. cbn [rbind]. exact Ht.
    + rewrite Hx. exact Htx.
    + rewrite Hy. exact Hty.
    + reflexivity.
    + eapply tick_sprite_continue. exact Hflow.
Qed.

Lemma tick_completion_snaps_to_target_witness :
  let self := mk 0 true 0 0 0 0 100 0 120 1 20 None
                None (-1) (-1) None None None in
  let el := Element.mk 0 97 0 (mkPalette [] []) in
  exists self' el',
    tick 1.5 self el = Ok (false, self', el') /\
    Element.x el' = 0%Z /\ Element.y el' = 100%Z /\ pos_animating self' = false.
Proof.
  cbv zeta.
  destruct (tick_completion_snaps_to_target 1.5
              (mk 0 true 0 0 0 0 100 0 120 1 20 None None (-1) (-1) None None None)
              (mk 0 true 0 0 0 0 100 0 120 1 20 None None (-1) (-1) None None None)
              (Element.mk 0 97 0 (mkPalette [] []))
              (Element.mk 0 97 0 (mkPalette [] [])) false)
    as (self' & el' & Ht & Hx & Hy & Hp & _).
  - reflexivity.
  - cbn. lra.
  - cbn. lra.
  - exists self', el'. repeat split; assumption.
Defined.

(** C7: a sub-tick of an armed sprite sub-animation at a time [cur_time]
    with [cur_time >= last_sprite_frame_time + sprite_anim_delay] writes
    [cur_sprite_index] to the element's tile index, advances the index by
    one and stamps [last_sprite_frame_time = cur_time]; when the advanced
    index exceeds [sprite_anim_to_index] every sprite attribute is reset to
    its idle value and the sub-tick reports [False], otherwise it reports
    [True].  Hence a sub-animation from 0 to 3 shows the frames 0, 1, 2, 3
    and reports [False] on the sub-tick that advances past 3. *)
Theorem sprite_anim_tick_advances_and_finishes :
  (forall (cur_time l s d : R) (c to : Z) (f : option Z) (self : t) (el : Element.t),
     sprite_fields self = (Some c, l, s, f, Some to, Some d) ->
     cur_time >= l + d ->
     exists self',
       sprite_anim_tick cur_time self el =
         Ok (negb (c + 1 >? to)%Z, self', Element.set_tile el c) /\
       Element.tile (Element.set_tile el c) = c /\
       motion_fields self' = motion_fields self /\
       sprite_fields self' =
         if (c + 1 >? to)%Z then (None, -1, -1, None, None, None)
         else (Some (c + 1)%Z, cur_time, s, f, Some to, Some d)) /\
  (forall (l s d t1 t2 t3 t4 : R) (self : t) (el : Element.t),
     sprite_fields self = (Some 0%Z, l, s, Some 0%Z, Some 3%Z, Some d) ->
     t1 >= l + d -> t2 >= t1 + d -> t3 >= t2 + d -> t4 >= t3 + d ->
     exists self' el',
       sprite_anim_tick_seq [t1; t2; t3; t4] self el =
         Ok ([(true, 0%Z); (true, 1%Z); (true, 2%Z); (false, 3%Z)], self', el') /\
       sprite_fields self' = (None, -1, -1, None, None, None)).
Proof.
  split.
  - intros cur_time l s d c to f self el Hf Hdue.
    destruct (c + 1 >? to)%Z eqn:E.
    + destruct (sprite_anim_tick_last cur_time l s d c to f self el Hf Hdue)
        as [Ht Hs]; [lia |].
      eexists. split; [exact Ht | split; [reflexivity | split; [reflexivity | exact Hs]]].
    + destruct (sprite_anim_tick_step cur_time l s d c to f self el Hf Hdue)
        as [Ht Hs]; [lia |].
      eexists. split; [exact Ht | split; [reflexivity | split; [reflexivity | exact Hs]]].
  - intros l s d t1 t2 t3 t4 self el Hf H1 H2 H3 H4.
    destruct (sprite_anim_tick_step t1 l s d 0 3 (Some 0%Z) self el Hf H1)
      as [E1 F1]; [lia |].
    destruct (sprite_anim_tick_step t2 t1 s d 1 3 (Some 0%Z) _
                (Element.set_tile el 0) F1 H2) as [E2 F2]; [lia |].
    destruct (sprite_anim_tick_step t3 t2 s d 2 3 (Some 0%Z) _
                (Element.set_tile (Element.set_tile el 0) 1) F2 H3)
      as [E3 F3]; [lia |].
    destruct (sprite_anim_tick_last t4 t3 s d 3 3 (Some 0%Z) _
                (Element.set_tile (Element.set_tile (Element.set_tile el 0) 1) 2)
                F3 H4) as [E4 F4]; [lia |].
    do 2 eexists. split; [| exact F4].
    cbn [sprite_anim_tick_seq].
    change (0 + 1)%Z with 1%Z in *. change (1 + 1)%Z with 2%Z in *.
    change (2 + 1)%Z with 3%Z in *. change (3 + 1)%Z with 4%Z in *.
    rewrite E1. cbn [rbind]. rewrite E2. cbn [rbind]. rewrite E3. cbn [rbind].
    rewrite E4. cbn [rbind]. reflexivity.
Qed.

Lemma sprite_anim_tick_advances_and_finishes_witness :
  let self := mk 0 false 0 0 0 0 0 0 0 1 0 None
                (Some 0%Z) (-1) 0 (Some 0%Z) (Some 3%Z) (Some 0.25) in
  let el := Element.mk 0 0 9 (mkPalette [] []) in
  (exists self', sprite_anim_tick 0 self el = Ok (true, self', Element.set_tile el 0)) /\
  (exists self' el',
     sprite_anim_tick_seq [0; 0.25; 0.5; 0.75] self el =
       Ok ([(true, 0%Z); (true, 1%Z); (true, 2%Z); (false, 3%Z)], self', el')).
Proof.
  cbv zeta. destruct sprite_anim_tick_advances_and_finishes as [Hone Hrun]. split.
  - destruct (Hone 0 (-1) 0 0.25 0%Z 3%Z (Some 0%Z)
                (mk 0 false 0 0 0 0 0 0 0 1 0 None
                   (Some 0%Z) (-1) 0 (Some 0%Z) (Some 3%Z) (Some 0.25))
                (Element.mk 0 0 9 (mkPalette [] [])))
      as (self' & Ht & _).
    + reflexivity.
    + lra.
    + exists self'. exact Ht.
  - destruct (Hrun (-1) 0 0.25 0 0.25 0.5 0.75
                (mk 0 false 0 0 0 0 0 0 0 1 0 None
                   (Some 0%Z) (-1) 0 (Some 0%Z) (Some 3%Z) (Some 0.25))
                (Element.mk 0 0 9 (mkPalette [] [])))
      as (self' & el' & Ht & _).
    + reflexivity.
    + lra.
    + lra.
    + lra.
    + lra.
    + exists self', el'. exact Ht.
Defined.

(** C10: while the sprite sub-animation is armed but the clock is still
    before [sprite_anim_start_time], a call of [tick] does not touch the
    element's tile index or the sprite attributes, and the pending
    animation does not count as running: with [progress >= 1.0] the call
    returns [False] although the sprite attributes stay armed, and the
    cycle still fires: a later call of [tick], made once the fire time and
    the frame delay are reached, shows the first frame, with the element on
    the target, and returns [True] unless that frame is also the last. *)
Theorem tick_pending_sprite_not_running (_now : R) (c : Z) (self : t) (el : Element.t) :
  cur_sprite_index self = Some c ->
  _now < sprite_anim_start_time self ->
  (forall r self' el',
     tick _now self el = Ok (r, self', el') ->
     Element.tile el' = Element.tile el /\ sprite_fields self' = sprite_fields self) /\
  (duration self <> 0 ->
   (_now - OvershootAnimator.start_time self) / duration self >= 1 ->
   exists self' el',
     tick _now self el = Ok (false, self', el') /\
     Element.tile el' = Element.tile el /\
     cur_sprite_index self' = Some c /\
     sprite_fields self' = sprite_fields self /\
     forall now2 d to,
       0 < duration self ->
       sprite_anim_delay self = Some d ->
       sprite_anim_to_index self = Some to ->
       now2 >= sprite_anim_start_time self ->
       now2 >= last_sprite_frame_time self + d ->
       exists self2 el2,
         tick now2 self' el' = Ok (negb (c + 1 >? to)%Z, self2, el2) /\
         Element.tile el2 = c /\
         Element.x el2 = target_x self /\ Element.y el2 = target_y self /\
         cur_sprite_index self2 = (if (c + 1 >? to)%Z then None else Some (c + 1)%Z)).
Proof.
  intros Hc Hpending.
  assert (Htick : tick _now self el = tick_position _now false self el).
  { unfold tick, tick_sprite. rewrite Hc, Rgeb_false by assumption. reflexivity. }
  split.
  - intros r self' el' H. rewrite Htick in H.
    apply tick_position_frame in H. tauto.
  - intros Hd Hp.
    destruct (tick_position_done _now false self el Hd Hp) as (el' & Ht & Hx & Hy & Htile & _).
    exists (clear_pos_animating self), el'.
    split; [rewrite Htick; exact Ht |].
    split; [exact Htile |]. split; [exact Hc |]. split; [reflexivity |].
    intros now2 d to Hpos Hdelay Hto Hfire Hdue.
    unfold tick, tick_sprite. cbn [clear_pos_animating cur_sprite_index sprite_anim_start_time].
    rewrite Hc, Rgeb_true by assumption.
    rewrite (sprite_anim_tick_due now2 d c to) by assumption.
    destruct (c + 1 >? to)%Z; cbn [rbind negb].
    + eexists _, _. split; [reflexivity |]. cbn. auto.
    + assert (Hp2 : (now2 - OvershootAnimator.start_time self) / duration self >= 1).
      { assert (Hinv : 0 < / duration self) by (apply Rinv_0_lt_compat; exact Hpos).
        unfold Rdiv in *. nra. }
      destruct (tick_position_done now2 true
                  (advance_sprite (clear_pos_animating self) now2 (c + 1))
                  (Element.set_tile el' c) Hd Hp2)
        as (el2 & Ht2 & Hx2 & Hy2 & Htile2 & _).
      eexists _, el2. split; [exact Ht2 |].
      split; [exact Htile2 |]. split; [exact Hx2 |]. split; [exact Hy2 |]. reflexivity.
Qed.

Lemma tick_pending_sprite_not_running_witness :
  let self := mk 0 true 0 0 0 0 100 0 120 1 20 None
                (Some 0%Z) (-1) 2 (Some 0%Z) (Some 3%Z) (Some 0.25) in
  let el := Element.mk 0 97 7 (mkPalette [] []) in
  exists self' el' self2 el2,
    tick 1.5 self el = Ok (false, self', el') /\
    Element.tile el' = 7%Z /\ cur_sprite_index self' = Some 0%Z /\
    tick 2 self' el' = Ok (true, self2, el2) /\
    Element.tile el2 = 0%Z /\ Element.y el2 = 100%Z /\
    cur_sprite_index self2 = Some 1%Z.
Proof.
  cbv zeta.
  destruct (tick_pending_sprite_not_running 1.5 0
              (mk 0 true 0 0 0 0 100 0 120 1 20 None
                 (Some 0%Z) (-1) 2 (Some 0%Z) (Some 3%Z) (Some 0.25))
              (Element.mk 0 97 7 (mkPalette [] []))) as [_ H].
  - reflexivity.
  - cbn. lra.
  - destruct H as (self' & el' & Ht & Htile & Hc & _ & Hlater).
    + cbn. lra.
    + cbn. lra.
    + destruct (Hlater 2 0.25 3%Z) as (self2 & el2 & Ht2 & Htile2 & _ & Hy2 & Hc2).
      * cbn. lra.
      * reflexivity.
      * reflexivity.
      * cbn. lra.
      * cbn. lra.
      * exists self', el', self2, el2.
        split; [exact Ht |]. split; [exact Htile |]. split; [exact Hc |].
        split; [exact Ht2 |]. split; [exact Htile2 |]. split; [exact Hy2 |]. exact Hc2.
Defined.










(** The state in which C6 is tried is the one [animate_to] leaves. *)
Example cadence_setup :
  animate_to 0 (init 0) (Element.mk 0 0 9 (mkPalette [] [])) 0 0 1 0
    (Some 0) (Some 0.5) (Some 0%Z) (Some 5%Z) None
  = (false, mk 0 false 0 0 0 0 0 0 0 1 0 None
              (Some 0%Z) (-1) 0 (Some 0%Z) (Some 5%Z) (Some 0.5)).
Proof.
  unfold animate_to.
  cbn [start_x start_y record_start arm_sprite store_target Element.x Element.y].
  rewrite zero_distance. cbn. replace (0 + 0) with 0 by lra. reflexivity.
Qed.

(** [tick] in phase 1 of the overshoot curve, no sprite cycle armed. *)
Lemma tick_phase1 (_now : R) (self : t) (el : Element.t) :
  cur_sprite_index self = None -> pos_animating self = true ->
  duration self <> 0 -> overshoot_pixels self > 0 ->
  let progress := (_now - OvershootAnimator.start_time self) / duration self in
  0 < progress < 0.7 ->
  let eased := Rpower (progress / 0.7) 1.2 in
  tick _now self el =
    Ok (true, self,
        Element.set_xy el
          (py_int (IZR (start_x self) + (overshoot_x self - IZR (start_x self)) * eased))
          (py_int (IZR (start_y self) + (overshoot_y self - IZR (start_y self)) * eased))).
Proof.
  intros Hc Hp Hd Ho progress Hpr eased.
  unfold tick, tick_sprite. rewrite Hc, Hp. cbn [negb rbind].
  unfold tick_position. rewrite py_div_ok by assumption. cbn [rbind].
  fold progress. rewrite Rgeb_false by lra.
  unfold curve. rewrite Rgtb_true by assumption. rewrite Rltb_true by lra.
  rewrite py_pow_pos by (apply Rdiv_lt_0_compat; lra).
  reflexivity.
Qed.

Lemma sqrt_10000 : sqrt 10000 = 100.
Proof. replace 10000 with (100 * 100) by lra. apply sqrt_square. lra. Qed.

(** The scenario of C3: an element at (0, 0), no sprite cycle armed,
    [animate_to(0, 100, duration=1.0, overshoot_pixels=20)] at time [t0]. *)
Lemma overshoot_move_arm (t0 : R) (self : t) (el : Element.t) :
  Element.x el = 0%Z -> Element.y el = 0%Z ->
  animate_to t0 self el 0 100 1 20 None default_sprite_delay None None None
  = (true, start_motion (store_target (record_start self el t0) 0 100 1 20) 0 120 None).
Proof.
  intros Hx Hy. unfold animate_to.
  cbn [start_x start_y record_start store_target]. rewrite Hx, Hy.
  change ((0 - 0) * (0 - 0) + (100 - 0) * (100 - 0))%Z with 10000%Z.
  change (0 - 0)%Z with 0%Z. change (100 - 0)%Z with 100%Z.
  rewrite sqrt_10000. rewrite Rleb_false by lra.
  f_equal. f_equal; lra.
Qed.

Lemma Rpower_5_7_bounds : 2 / 3 < Rpower (5 / 7) 1.2 < 0.675.
Proof.
  split.
  - apply Rpower_6_5_lower; lra.
  - apply Rpower_6_5_upper; lra.
Qed.

Lemma Rpower_13_14_bounds : 109 / 120 < Rpower (13 / 14) 1.2 < 110 / 120.
Proof.
  split.
  - apply Rpower_6_5_lower; lra.
  - apply Rpower_6_5_upper; lra.
Qed.

(** Where [tick] puts the element of that scenario at the progress values
    0.5 and 0.65. *)
Lemma overshoot_move_positions (t0 : R) (self : t) (el : Element.t) :
  Element.x el = 0%Z -> Element.y el = 0%Z -> cur_sprite_index self = None ->
  let armed := snd (animate_to t0 self el 0 100 1 20 None default_sprite_delay
                      None None None) in
  (overshoot_x armed = 0 /\ overshoot_y armed = 120) /\
  tick (t0 + 0.5) armed el = Ok (true, armed, Element.set_xy el 0 80) /\
  tick (t0 + 0.65) armed el = Ok (true, armed, Element.set_xy el 0 109).
Proof.
  intros Hx Hy Hc. rewrite overshoot_move_arm by assumption. cbn [snd].
  split; [split; reflexivity |].
  set (armed := start_motion _ _ _ _).
  split.
  - rewrite tick_phase1; try reflexivity; try assumption.
    + cbn [armed start_motion store_target record_start start_x start_y
             overshoot_x overshoot_y duration OvershootAnimator.start_time].
      rewrite Hx, Hy.
      replace ((t0 + 0.5 - t0) / 1 / 0.7) with (5 / 7) by lra.
      pose proof Rpower_5_7_bounds as [Hlo Hhi].
      rewrite (py_int_between _ 0) by lra.
      rewrite (py_int_between _ 80) by lra. reflexivity.
    + cbn. lra.
    + cbn. lra.
    + cbn. lra.
  - rewrite tick_phase1; try reflexivity; try assumption.
    + cbn [armed start_motion store_target record_start start_x start_y
             overshoot_x overshoot_y duration OvershootAnimator.start_time].
      rewrite Hx, Hy.
      replace ((t0 + 0.65 - t0) / 1 / 0.7) with (13 / 14) by lra.
      pose proof Rpower_13_14_bounds as [Hlo Hhi].
      rewrite (py_int_between _ 0) by lra.
      rewrite (py_int_between _ 109) by lra. reflexivity.
    + cbn. lra.
    + cbn. lra.
    + cbn. lra.
Qed.

(** C3, as stated, fails: for the element at (0, 0) armed at time 0 with
    [animate_to(0, 100, duration=1.0, overshoot_pixels=20)] the overshoot
    point is (0, 120), but the position [tick] writes at progress 0.5 is
    (0, 80), which is not beyond the target [y = 100]. *)
Lemma overshoot_move_half_way_short_of_target :
  let el := Element.mk 0 0 0 (mkPalette [] []) in
  let armed := snd (animate_to 0 (init 0) el 0 100 1 20 None default_sprite_delay
                      None None None) in
  (0 + 0.5 - OvershootAnimator.start_time armed) / duration armed = 0.5 /\
  exists el',
    tick (0 + 0.5) armed el = Ok (true, armed, el') /\
    Element.y el' = 80%Z /\
    ~ (100 < Element.y el' < 120)%Z.
Proof.
  cbv zeta.
  destruct (overshoot_move_positions 0 (init 0) (Element.mk 0 0 0 (mkPalette [] [])))
    as (_ & Hhalf & _); try reflexivity.
  split.
  - rewrite overshoot_move_arm by reflexivity. cbn. lra.
  - eexists. split; [exact Hhalf |]. split; [reflexivity |]. cbn. lia.
Qed.

(** C3, amended: for an element at (0, 0) armed with
    [animate_to(0, 100, duration=1.0, overshoot_pixels=20)] the computed
    overshoot point is (0, 120); the position written by [tick] at progress
    0.5 is (0, 80), strictly between the start [y = 0] and the target
    [y = 100]: phase 1 eases toward the overshoot point and has not reached
    the target yet.  Later in phase 1, at progress 0.65, the position is
    (0, 109), strictly between the target and the overshoot point. *)
Theorem overshoot_move_phase1 (t0 : R) (self : t) (el : Element.t) :
  Element.x el = 0%Z -> Element.y el = 0%Z -> cur_sprite_index self = None ->
  let armed := snd (animate_to t0 self el 0 100 1 20 None default_sprite_delay
                      None None None) in
  (overshoot_x armed = 0 /\ overshoot_y armed = 120) /\
  (exists el',
     tick (t0 + 0.5) armed el = Ok (true, armed, el') /\
     Element.x el' = 0%Z /\ Element.y el' = 80%Z /\
     (0 < Element.y el' < 100)%Z) /\
  (exists el',
     tick (t0 + 0.65) armed el = Ok (true, armed, el') /\
     Element.x el' = 0%Z /\ Element.y el' = 109%Z /\
     (100 < Element.y el' < 120)%Z).
Proof.
  intros Hx Hy Hc armed.
  destruct (overshoot_move_positions t0 self el Hx Hy Hc) as (Ho & Hhalf & Hlate).
  split; [exact Ho |]. split.
  - eexists. split; [exact Hhalf |]. cbn. repeat split; lia.
  - eexists. split; [exact Hlate |]. cbn. repeat split; lia.
Qed.

Lemma overshoot_move_phase1_witness :
  let el := Element.mk 0 0 0 (mkPalette [] []) in
  let armed := snd (animate_to 7 (init 0) el 0 100 1 20 None default_sprite_delay
                      None None None) in
  overshoot_y armed = 120 /\
  exists el', tick (7 + 0.5) armed el = Ok (true, armed, el') /\ Element.y el' = 80%Z.
Proof.
  cbv zeta.
  destruct (overshoot_move_phase1 7 (init 0) (Element.mk 0 0 0 (mkPalette [] []))
              eq_refl eq_refl eq_refl)
    as ((_ & Ho) & (el' & Ht & _ & Hy & _) & _).
  split; [exact Ho |]. exists el'. split; assumption.
Defined.

End TickClaims.

(** ** The heap *)

Lemma upd_same {A} (h : nat -> A) (k : nat) (v : A) : upd h k v k = v.
Proof. unfold upd. rewrite Nat.eqb_refl. reflexivity. Qed.

Lemma upd_other {A} (h : nat -> A) (k j : nat) (v : A) : j <> k -> upd h k v j = h j.
Proof. intros H. unfold upd. apply Nat.eqb_neq in H. rewrite H. reflexivity. Qed.

(** ** The palette broadcast *)

Section Broadcast.
Variable name : string.

(** The broadcast loop over a list of steps [l]. *)
Lemma for_each_swap (l : list Step.t) (w w' : World) :
  for_each l (swap_one name) w = Ok (tt, w') ->
  trace w' = trace w ++ swap_events name l /\
  steps w' = steps w /\ animators w' = animators w /\
  start_time w' = start_time w /\ clock_reads w' = clock_reads w /\
  (forall e, Element.x (elements w' e) = Element.x (elements w e) /\
             Element.y (elements w' e) = Element.y (elements w e) /\
             Element.tile (elements w' e) = Element.tile (elements w e)) /\
  (forall e,
     (forall s, s ∈ l -> is_Some (Step.palettes s !! name) -> Step.tilegrid s <> Some e) ->
     elements w' e = elements w e) /\
  (forall e p,
     (forall s p', s ∈ l -> Step.palettes s !! name = Some p' ->
                   Step.tilegrid s = Some e -> p' = p) ->
     (exists s, s ∈ l /\ Step.palettes s !! name = Some p /\ Step.tilegrid s = Some e)
     \/ Element.pixel_shader (elements w e) = p ->
     Element.pixel_shader (elements w' e) = p).
Proof.
  revert w. induction l as [|s l IH]; intros w H.
  - injection H as <-. cbn. rewrite app_nil_r.
    repeat split; try reflexivity.
    intros e p _ [(s & Hin & _)|Hp]; [inversion Hin | exact Hp].
  - cbn [for_each] in H. unfold bind in H.
    destruct (swap_one name s w) as [[[] w1]|ex] eqn:E1; [| discriminate H].
    destruct (IH _ H) as (Ht & Hs & Ha & Hst & Hc & Hxy & Hfr & Hlast).
    clear IH H. unfold swap_one in E1.
    cbn [swap_events flat_map]. fold (swap_events name l).
    destruct (Step.palettes s !! name) as [p0|] eqn:Hp.
    + unfold get_tilegrid in E1.
      destruct (Step.tilegrid s) as [e0|] eqn:He; [| discriminate E1].
      cbn in E1. injection E1 as <-. cbn in *.
      rewrite Ht, <- app_assoc.
      split; [reflexivity |]. do 4 (split; [assumption |]).
      split; [| split].
      * intros e. destruct (Hxy e) as (-> & -> & ->).
        destruct (Nat.eq_dec e e0) as [->|Hne];
          [rewrite upd_same | rewrite upd_other by assumption];
          repeat split; reflexivity.
      * intros e Hno. rewrite Hfr.
        -- apply upd_other. intros ->.
           apply (Hno s); [left | eexists; exact Hp | exact He].
        -- intros s' Hin. apply Hno. right. exact Hin.
      * intros e p Hagree Hex. apply Hlast.
        -- intros s' p' Hin. apply Hagree. right. exact Hin.
        -- destruct Hex as [(s' & Hin & Hp' & He')|Hcur].
           ++ apply elem_of_cons in Hin as [->|Hin].
              ** right. rewrite He in He'. injection He' as ->.
                 rewrite Hp in Hp'. injection Hp' as ->.
                 rewrite upd_same. reflexivity.
              ** left. exists s'. auto.
           ++ right. destruct (Nat.eq_dec e e0) as [->|Hne].
              ** rewrite upd_same. cbn.
                 apply (Hagree s); [left | exact Hp | exact He].
              ** rewrite upd_other by assumption. exact Hcur.
    + injection E1 as <-. cbn [app]. 
      split; [exact Ht |]. do 4 (split; [assumption |]).
      split; [exact Hxy |]. split.
      * intros e Hno. apply Hfr. intros s' Hin. apply Hno. right. exact Hin.
      * intros e p Hagree Hex. apply Hlast.
        -- intros s' p' Hin. apply Hagree. right. exact Hin.
        -- destruct Hex as [(s' & Hin & Hp' & He')|Hcur]; [| right; exact Hcur].
           apply elem_of_cons in Hin as [->|Hin]; [congruence |].
           left. exists s'. auto.
Qed.

(** The broadcast raises nothing when every step that carries the named
    variant has a tilegrid. *)
Lemma for_each_swap_ok (l : list Step.t) (w : World) :
  (forall s, s ∈ l -> is_Some (Step.palettes s !! name) -> is_Some (Step.tilegrid s)) ->
  exists w', for_each l (swap_one name) w = Ok (tt, w').
Proof.
  revert w. induction l as [|s l IH]; intros w Hwf.
  - eexists. reflexivity.
  - cbn [for_each]. unfold bind.
    assert (exists w1, swap_one name s w = Ok (tt, w1)) as [w1 ->].
    { unfold swap_one, get_tilegrid.
      destruct (Step.palettes s !! name) as [p0|] eqn:Hp; [| eexists; reflexivity].
      destruct (Hwf s) as [e0 ->]; [left | exists p0; exact Hp |].
      eexists. reflexivity. }
    apply IH. intros s' Hin. apply Hwf. right. exact Hin.
Qed.

(** No step carries the variant: nothing happens. *)
Lemma for_each_swap_none (l : list Step.t) (w : World) :
  (forall s, s ∈ l -> Step.palettes s !! name = None) ->
  for_each l (swap_one name) w = Ok (tt, w).
Proof.
  induction l as [|s l IH]; intros Hnone; [reflexivity |].
  cbn [for_each]. unfold bind, swap_one at 1.
  rewrite (Hnone s) by left. cbn. apply IH.
  intros s' Hin. apply Hnone. right. exact Hin.
Qed.

End Broadcast.

Section BroadcastClaim.
Variable ticks_ms : nat -> Z.

(** C9: when a [change_palette] step fires, the broadcast goes over every
    step of the coordinator and, for each step that carries a palette
    variant under the swap's name, sets the [pixel_shader] of that step's
    element to that step's variant; a step without the variant is skipped,
    and an element none of whose steps carries it keeps its palette; a name
    that no step carries makes the broadcast a no-op, not an error.  The
    name is the name of a palette: it is none of the other keys of a step
    ([step_keys]), which line 652 would find in every step. *)
Theorem palette_broadcast_by_name (name : string) (w : World) :
  name ∉ step_keys ->
  (forall i step w0,
     Step.type step = "change_palette" -> Step.new_palette step = name ->
     fire ticks_ms i step w0 =
       (set_step_started i true ;;; change_palette_broadcast name)%loop w0) /\
  ((forall s, s ∈ steps w -> is_Some (Step.palettes s !! name) ->
              is_Some (Step.tilegrid s)) ->
   exists w', change_palette_broadcast name w = Ok (tt, w')) /\
  (forall w',
     change_palette_broadcast name w = Ok (tt, w') ->
     trace w' = trace w ++ swap_events name (steps w) /\
     (forall s p e,
        s ∈ steps w -> Step.palettes s !! name = Some p -> Step.tilegrid s = Some e ->
        (forall s' p', s' ∈ steps w -> Step.palettes s' !! name = Some p' ->
                       Step.tilegrid s' = Some e -> p' = p) ->
        Element.pixel_shader (elements w' e) = p) /\
     (forall e,
        (forall s, s ∈ steps w -> is_Some (Step.palettes s !! name) ->
                   Step.tilegrid s <> Some e) ->
        elements w' e = elements w e) /\
     steps w' = steps w /\ animators w' = animators w) /\
  ((forall s, s ∈ steps w -> Step.palettes s !! name = None) ->
   change_palette_broadcast name w = Ok (tt, w)).
Proof.
  intros _. split; [| split; [| split]].
  - intros i step w0 Hty Hname. unfold fire. rewrite Hty, Hname. reflexivity.
  - intros Hwf. unfold change_palette_broadcast. apply for_each_swap_ok. exact Hwf.
  - intros w' H. unfold change_palette_broadcast in H.
    destruct (for_each_swap name _ _ _ H) as (Ht & Hs & Ha & _ & _ & _ & Hfr & Hlast).
    split; [exact Ht |]. split; [| split; [exact Hfr | split; assumption]].
    intros s p e Hin Hp He Hagree. apply Hlast; [exact Hagree |].
    left. exists s. auto.
  - intros Hnone. unfold change_palette_broadcast. apply for_each_swap_none. exact Hnone.
Qed.

End BroadcastClaim.

Lemma palette_broadcast_by_name_witness :
  exists w',
    change_palette_broadcast "red_palette" three_letters = Ok (tt, w') /\
    Element.pixel_shader (elements w' 0%nat) = red_a /\
    Element.pixel_shader (elements w' 1%nat) = red_b /\
    elements w' 2%nat = elements three_letters 2%nat.
Proof.
  assert (Hname : "red_palette" ∉ step_keys).
  { apply (bool_decide_unpack _). vm_compute. exact I. }
  destruct (palette_broadcast_by_name (fun _ => 0%Z) "red_palette" three_letters Hname)
    as (_ & Hok & Heff & _).
  destruct Hok as [w' Hw'].
  - intros s Hin Hreg. cbn in Hin.
    repeat (apply elem_of_cons in Hin as [->|Hin]); try (eexists; reflexivity).
    + destruct Hreg as [p Hp]. vm_compute in Hp. discriminate Hp.
    + inversion Hin.
  - exists w'. split; [exact Hw' |].
    destruct (Heff w' Hw') as (_ & Hset & Hfr & _).
    split; [| split].
    + apply (Hset (letter 0 {["red_palette" := red_a]})); try reflexivity.
      * cbn. left.
      * intros s' p' Hin Hp He. cbn in Hin.
        repeat (apply elem_of_cons in Hin as [->|Hin]);
          try discriminate He;
          try (vm_compute in Hp; injection Hp as <-; reflexivity).
        inversion Hin.
    + apply (Hset (letter 1 {["red_palette" := red_b]})); try reflexivity.
      * cbn. right. left.
      * intros s' p' Hin Hp He. cbn in Hin.
        repeat (apply elem_of_cons in Hin as [->|Hin]);
          try discriminate He;
          try (vm_compute in Hp; injection Hp as <-; reflexivity).
        inversion Hin.
    + apply Hfr. intros s Hin Hreg He. cbn in Hin.
      repeat (apply elem_of_cons in Hin as [->|Hin]); try discriminate He.
      * destruct Hreg as [p Hp]. vm_compute in Hp. discriminate Hp.
      * inversion Hin.
Defined.

(** ** The restart block *)

Section Restart.
Variable ticks_ms : nat -> Z.

Abbreviation clear_started := (fun s => Step.set_started s false).

(** The reset of one step. *)
Lemma reset_step_effect (j : nat) (s : Step.t) (w w1 : World) :
  reset_step j s w = Ok (tt, w1) ->
  trace w1 = trace w ++ reset_events [s] /\
  steps w1 = alter clear_started j (steps w) /\
  animators w1 = animators w /\ start_time w1 = start_time w /\
  clock_reads w1 = clock_reads w /\
  (forall e, Element.tile (elements w1 e) = Element.tile (elements w e)) /\
  if String.eqb (Step.type s) "animation_step" then
    exists e0,
      Step.tilegrid s = Some e0 /\
      (forall e, e <> e0 -> elements w1 e = elements w e) /\
      Element.x (elements w1 e0) = fst (Step.offscreen_loc s) /\
      Element.y (elements w1 e0) = snd (Step.offscreen_loc s) /\
      Element.pixel_shader (elements w1 e0) =
        match Step.palettes s !! "default_palette" with
        | Some p => p
        | None => Element.pixel_shader (elements w e0)
        end
  else elements w1 = elements w.
Proof.
  unfold reset_step, reset_events. cbn [flat_map]. rewrite app_nil_r.
  destruct (String.eqb (Step.type s) "animation_step").
  - unfold get_tilegrid. destruct (Step.tilegrid s) as [e0|]; [| discriminate].
    destruct (Step.palettes s !! "default_palette") as [p|];
      cbn; intros H; injection H as <-; cbn;
      rewrite <- ?app_assoc; cbn [app];
      (repeat split; try reflexivity;
       [ intros e; unfold upd; destruct (e =? e0)%nat eqn:E; [| reflexivity];
         apply Nat.eqb_eq in E; subst e; rewrite ?Nat.eqb_refl; reflexivity
       | exists e0; split; [reflexivity |]; split;
         [ intros e Hne; rewrite !upd_other by assumption; reflexivity
         | rewrite !upd_same; repeat split; reflexivity ] ]).
  - cbn. intros H. injection H as <-. cbn. rewrite app_nil_r.
    repeat split; reflexivity.
Qed.

Lemma reset_events_cons (s : Step.t) (l : list Step.t) :
  reset_events (s :: l) = reset_events [s] ++ reset_events l.
Proof. unfold reset_events. cbn [flat_map]. rewrite app_nil_r. reflexivity. Qed.

(** The reset loop over the steps [l], which sit in the list from index [j]. *)
Lemma reset_steps_effect (l : list Step.t) (j : nat) (w w' : World) :
  reset_steps j l w = Ok (tt, w') ->
  trace w' = trace w ++ reset_events l /\
  animators w' = animators w /\ start_time w' = start_time w /\
  clock_reads w' = clock_reads w /\
  (forall k,
     steps w' !! k =
       if decide (j <= k < j + length l)%nat
       then clear_started <$> steps w !! k
       else steps w !! k) /\
  (forall e, Element.tile (elements w' e) = Element.tile (elements w e)) /\
  (forall e (loc : Z * Z),
     (forall s, s ∈ l -> Step.type s = "animation_step" ->
                Step.tilegrid s = Some e -> Step.offscreen_loc s = loc) ->
     (exists s, s ∈ l /\ Step.type s = "animation_step" /\ Step.tilegrid s = Some e)
     \/ (Element.x (elements w e) = fst loc /\ Element.y (elements w e) = snd loc) ->
     Element.x (elements w' e) = fst loc /\ Element.y (elements w' e) = snd loc) /\
  (forall e p,
     (forall s p', s ∈ l -> Step.type s = "animation_step" ->
                   Step.tilegrid s = Some e ->
                   Step.palettes s !! "default_palette" = Some p' -> p' = p) ->
     (exists s, s ∈ l /\ Step.type s = "animation_step" /\ Step.tilegrid s = Some e /\
                Step.palettes s !! "default_palette" = Some p)
     \/ Element.pixel_shader (elements w e) = p ->
     Element.pixel_shader (elements w' e) = p).
Proof.
  revert j w. induction l as [|s l IH]; intros j w H.
  - injection H as <-. cbn [reset_events flat_map length]. rewrite app_nil_r.
    do 4 (split; [reflexivity |]). split; [| split; [reflexivity | split]].
    + intros k. destruct (decide (j <= k < j + 0)%nat); [lia | reflexivity].
    + intros e loc _ [(s & Hin & _)|Hcur]; [inversion Hin | exact Hcur].
    + intros e p _ [(s & Hin & _)|Hp]; [inversion Hin | exact Hp].
  - cbn [reset_steps] in H. unfold bind in H.
    destruct (reset_step j s w) as [[[] w1]|ex] eqn:E1; [| discriminate H].
    destruct (IH _ _ H) as (Ht & Ha & Hst & Hc & Hsteps & Htile & Hpos & Hpal).
    clear IH H.
    destruct (reset_step_effect _ _ _ _ E1) as (Ht1 & Hs1 & Ha1 & Hst1 & Hc1 & Htile1 & Hel1).
    clear E1.
    split; [| split; [| split; [| split; [| split; [| split; [| split]]]]]].
    + rewrite Ht, Ht1, <- app_assoc, (reset_events_cons s l). reflexivity.
    + congruence.
    + congruence.
    + congruence.
    + intros k. rewrite Hsteps, Hs1. cbn [length].
      destruct (decide (k = j)) as [->|Hne].
      * rewrite list_lookup_alter_eq.
        destruct (decide (S j <= j < S j + length l)%nat); [lia |].
        destruct (decide (j <= j < j + S (length l))%nat); [reflexivity | lia].
      * rewrite list_lookup_alter_ne by congruence.
        destruct (decide (S j <= k < S j + length l)%nat);
          destruct (decide (j <= k < j + S (length l))%nat); try reflexivity; lia.
    + intros e. rewrite Htile, Htile1. reflexivity.
    + intros e loc Hagree Hex. apply Hpos.
      * intros s' Hin. apply Hagree. right. exact Hin.
      * destruct (String.eqb (Step.type s) "animation_step") eqn:Hty.
        -- destruct Hel1 as (e0 & He0 & Hother & Hx & Hy & _).
           apply String.eqb_eq in Hty.
           destruct (Nat.eq_dec e e0) as [->|Hne].
           ++ right. rewrite Hx, Hy, (Hagree s) by (try left; assumption).
              split; reflexivity.
           ++ destruct Hex as [(s' & Hin & Hty' & He')|Hcur].
              ** apply elem_of_cons in Hin as [->|Hin]; [congruence |].
                 left. exists s'. auto.
              ** right. rewrite Hother by assumption. exact Hcur.
        -- rewrite Hel1. destruct Hex as [(s' & Hin & Hty' & He')|Hcur]; [| right; exact Hcur].
           apply elem_of_cons in Hin as [->|Hin].
           ++ apply String.eqb_neq in Hty. contradiction.
           ++ left. exists s'. auto.
    + intros e p Hagree Hex. apply Hpal.
      * intros s' p' Hin. apply Hagree. right. exact Hin.
      * destruct (String.eqb (Step.type s) "animation_step") eqn:Hty.
        -- destruct Hel1 as (e0 & He0 & Hother & _ & _ & Hp).
           apply String.eqb_eq in Hty.
           destruct Hex as [(s' & Hin & Hty' & He' & Hp')|Hcur].
           ++ apply elem_of_cons in Hin as [->|Hin].
              ** right. rewrite He0 in He'. injection He' as <-.
                 rewrite Hp, Hp'. reflexivity.
              ** left. exists s'. auto.
           ++ right. destruct (Nat.eq_dec e e0) as [->|Hne].
              ** rewrite Hp.
                 destruct (Step.palettes s !! "default_palette") as [p0|] eqn:Hp0;
                   [| exact Hcur].
                 apply (Hagree s); [left | | |]; assumption.
              ** rewrite Hother by assumption. exact Hcur.
        -- rewrite Hel1.
           destruct Hex as [(s' & Hin & Hty' & He' & Hp')|Hcur]; [| right; exact Hcur].
           apply elem_of_cons in Hin as [->|Hin].
           ++ apply String.eqb_neq in Hty. contradiction.
           ++ left. exists s'. auto.
Qed.

Lemma reset_steps_ok (l : list Step.t) (j : nat) (w : World) :
  (forall s, s ∈ l -> Step.type s = "animation_step" -> is_Some (Step.tilegrid s)) ->
  exists w', reset_steps j l w = Ok (tt, w').
Proof.
  revert j w. induction l as [|s l IH]; intros j w Hwf.
  - eexists. reflexivity.
  - cbn [reset_steps]. unfold bind.
    assert (exists w1, reset_step j s w = Ok (tt, w1)) as [w1 ->].
    { unfold reset_step, get_tilegrid.
      destruct (String.eqb (Step.type s) "animation_step") eqn:Hty.
      - apply String.eqb_eq in Hty. destruct (Hwf s) as [e0 ->]; [left | exact Hty |].
        destruct (Step.palettes s !! "default_palette"); eexists; reflexivity.
      - eexists. reflexivity. }
    apply IH. intros s' Hin. apply Hwf. right. exact Hin.
Qed.

Lemma tick_calls_reset_events (l : list Step.t) : tick_calls (reset_events l) = [].
Proof.
  induction l as [|s l IH]; [reflexivity |].
  rewrite reset_events_cons. unfold tick_calls in *. rewrite omap_app, IH, app_nil_r.
  unfold reset_events. cbn [flat_map].
  destruct (String.eqb (Step.type s) "animation_step"); [| reflexivity].
  destruct (Step.tilegrid s); [| reflexivity].
  destruct (Step.palettes s !! "default_palette"); reflexivity.
Qed.

(** The restart block as a whole. *)
Lemma restart_effect (w1 w' : World) :
  restart ticks_ms w1 = Ok (tt, w') ->
  exists s0 e0,
    steps w1 !! 0%nat = Some s0 /\ Step.tilegrid s0 = Some e0 /\
    trace w' = trace w1 ++ reset_events (steps w1) ++ restart_tail e0 (clock_reads w1) /\
    animators w' = animators w1 /\
    steps w' = clear_started <$> steps w1 /\
    start_time w' = IZR (ticks_ms (clock_reads w1)) / 1000 /\
    clock_reads w' = S (clock_reads w1) /\
    Element.tile (elements w' e0) = 0%Z /\
    (forall s e,
       s ∈ steps w1 -> Step.type s = "animation_step" -> Step.tilegrid s = Some e ->
       (forall s', s' ∈ steps w1 -> Step.type s' = "animation_step" ->
                   Step.tilegrid s' = Some e ->
                   Step.offscreen_loc s' = Step.offscreen_loc s) ->
       Element.x (elements w' e) = fst (Step.offscreen_loc s) /\
       Element.y (elements w' e) = snd (Step.offscreen_loc s)) /\
    (forall s e p,
       s ∈ steps w1 -> Step.type s = "animation_step" -> Step.tilegrid s = Some e ->
       Step.palettes s !! "default_palette" = Some p ->
       (forall s' p', s' ∈ steps w1 -> Step.type s' = "animation_step" ->
                      Step.tilegrid s' = Some e ->
                      Step.palettes s' !! "default_palette" = Some p' -> p' = p) ->
       Element.pixel_shader (elements w' e) = p).
Proof.
  unfold restart, bind. intros H.
  destruct (reset_steps 0 (steps w1) w1) as [[[] w2]|ex] eqn:E; [| discriminate H].
  destruct (reset_steps_effect _ _ _ _ E) as (Ht & Ha & Hst & Hc & Hsteps & Htile & Hpos & Hpal).
  clear E.
  assert (Hmap : steps w2 = clear_started <$> steps w1).
  { apply list_eq. intros k. rewrite Hsteps, list_lookup_fmap.
    destruct (decide (0 <= k < 0 + length (steps w1))%nat) as [|Hn]; [reflexivity |].
    rewrite (lookup_ge_None_2 (steps w1) k) by lia. reflexivity. }
  rewrite Hmap in H. rewrite list_lookup_fmap in H.
  destruct (steps w1 !! 0%nat) as [s0|] eqn:Hs0; [| discriminate H].
  cbn [fmap option_fmap option_map] in H. unfold get_tilegrid in H.
  cbn [Step.set_started Step.tilegrid] in H.
  destruct (Step.tilegrid s0) as [e0|] eqn:He0; [| discriminate H].
  cbn in H. injection H as <-. cbn.
  exists s0, e0. split; [reflexivity |]. split; [exact He0 |].
  split; [| split; [exact Ha | split; [exact Hmap | split; [| split; [| split; [| split]]]]]].
  - rewrite Ht, Hc. unfold restart_tail. rewrite <- !app_assoc. reflexivity.
  - rewrite Hc. reflexivity.
  - rewrite Hc. reflexivity.
  - rewrite upd_same. reflexivity.
  - intros s e Hin Hty He Hagree.
    destruct (Hpos e (Step.offscreen_loc s) Hagree) as [Hx Hy].
    { left. exists s. auto. }
    destruct (Nat.eq_dec e e0) as [->|Hne];
      [rewrite upd_same | rewrite upd_other by assumption]; split; assumption.
  - intros s e p Hin Hty He Hp Hagree.
    assert (Hps : Element.pixel_shader (elements w2 e) = p).
    { apply Hpal; [exact Hagree |]. left. exists s. auto. }
    destruct (Nat.eq_dec e e0) as [->|Hne];
      [rewrite upd_same | rewrite upd_other by assumption]; assumption.
Qed.

Lemma restart_ok (w1 : World) :
  resettable (steps w1) -> exists w', restart ticks_ms w1 = Ok (tt, w').
Proof.
  intros [(s0 & Hs0 & e0 & He0) Hwf]. unfold restart, bind.
  destruct (reset_steps_ok (steps w1) 0 w1 Hwf) as [w2 E]. rewrite E.
  destruct (reset_steps_effect _ _ _ _ E) as (_ & _ & _ & _ & Hsteps & _).
  rewrite Hsteps, Hs0.
  destruct (decide (0 <= 0 < 0 + length (steps w1))%nat) as [|Hn].
  - cbn [fmap option_fmap option_map]. unfold get_tilegrid.
    cbn [Step.set_started Step.tilegrid]. rewrite He0. eexists. reflexivity.
  - apply lookup_lt_Some in Hs0. lia.
Qed.

(** C8: whenever a pass of the coordinator ends with [still_going = False],
    the restart block runs: every animation step's element is set back to
    its [offscreen_loc] and its default palette is restored when one is
    recorded, [started] is cleared on every step, the tile of the first
    step's element is forced back to 0, the loop sleeps for 1 second, with
    no animator ticked meanwhile, and the epoch [start_time] becomes the
    clock value read after the sleep. *)
Theorem loop_restart_after_completion (w : World) :
  (forall w1,
     steps_pass ticks_ms w = Ok (false, w1) -> resettable (steps w1) ->
     exists w', loop_body ticks_ms w = Ok (false, w')) /\
  (forall w',
     loop_body ticks_ms w = Ok (false, w') ->
     exists w1 s0 e0,
       steps_pass ticks_ms w = Ok (false, w1) /\
       steps w1 !! 0%nat = Some s0 /\ Step.tilegrid s0 = Some e0 /\
       trace w' = trace w1 ++ reset_events (steps w1)
                    ++ restart_tail e0 (clock_reads w1) /\
       tick_calls (reset_events (steps w1) ++ restart_tail e0 (clock_reads w1)) = [] /\
       animators w' = animators w1 /\
       steps w' = clear_started <$> steps w1 /\
       Forall (fun s => Step.started s = false) (steps w') /\
       start_time w' = IZR (ticks_ms (clock_reads w1)) / 1000 /\
       Element.tile (elements w' e0) = 0%Z /\
       (forall s e,
          s ∈ steps w1 -> Step.type s = "animation_step" -> Step.tilegrid s = Some e ->
          (forall s', s' ∈ steps w1 -> Step.type s' = "animation_step" ->
                      Step.tilegrid s' = Some e ->
                      Step.offscreen_loc s' = Step.offscreen_loc s) ->
          Element.x (elements w' e) = fst (Step.offscreen_loc s) /\
          Element.y (elements w' e) = snd (Step.offscreen_loc s)) /\
       (forall s e p,
          s ∈ steps w1 -> Step.type s = "animation_step" -> Step.tilegrid s = Some e ->
          Step.palettes s !! "default_palette" = Some p ->
          (forall s' p', s' ∈ steps w1 -> Step.type s' = "animation_step" ->
                         Step.tilegrid s' = Some e ->
                         Step.palettes s' !! "default_palette" = Some p' -> p' = p) ->
          Element.pixel_shader (elements w' e) = p)).
Proof.
  split.
  - intros w1 Hpass Hwf. unfold loop_body, bind. rewrite Hpass. cbn [negb].
    destruct (restart_ok w1 Hwf) as [w' ->]. exists w'. reflexivity.
  - intros w' H. unfold loop_body, bind in H.
    destruct (steps_pass ticks_ms w) as [[sg w1]|ex] eqn:Hpass; [| discriminate H].
    destruct sg; cbn [negb] in H.
    { unfold ret in H. discriminate H. }
    destruct (restart ticks_ms w1) as [[[] w2]|ex] eqn:Hr; [| discriminate H].
    unfold ret in H. injection H as <-.
    destruct (restart_effect _ _ Hr)
      as (s0 & e0 & Hs0 & He0 & Ht & Ha & Hsteps & Hst & _ & Htile & Hpos & Hpal).
    exists w1, s0, e0.
    split; [reflexivity |]. split; [exact Hs0 |]. split; [exact He0 |].
    split; [exact Ht |]. split.
    { unfold tick_calls. rewrite omap_app. fold (tick_calls (reset_events (steps w1))).
      rewrite tick_calls_reset_events. reflexivity. }
    split; [exact Ha |]. split; [exact Hsteps |]. split.
    { rewrite Hsteps. apply Forall_fmap. apply Forall_forall. intros s _. reflexivity. }
    split; [exact Hst |]. split; [exact Htile |]. split; [exact Hpos | exact Hpal].
Qed.

End Restart.

(** The pass over [show_end] at 5 seconds: the letter waits, the swap fires
    and, being last and without animator, ends the show. *)
Lemma show_end_pass :
  exists w1,
    steps_pass five_seconds show_end = Ok (false, w1) /\
    steps w1 = [letter_at 10 0 {["default_palette" := plain]};
                Step.set_started (swap_step "red_palette") true] /\
    clock_reads w1 = 1%nat /\
    trace w1 = [ev_ticks_ms 0; ev_refresh].
Proof.
  eexists. unfold steps_pass, bind, read_clock.
  cbn [show_end steps for_steps start_time clock_reads].
  unfold bind, dispatch, five_seconds.
  cbn [show_end start_time Step.start_time letter_at swap_step].
  rewrite Rgeb_false by lra.
  unfold ret at 1. cbn [start_time].
  rewrite Rgeb_true by lra.
  split; [reflexivity |]. split; [reflexivity |]. split; reflexivity.
Qed.

Lemma loop_restart_after_completion_witness :
  exists w',
    loop_body five_seconds show_end = Ok (false, w') /\
    start_time w' = 5000 / 1000 /\
    Element.x (elements w' 0%nat) = 83%Z /\ Element.y (elements w' 0%nat) = 240%Z /\
    Element.tile (elements w' 0%nat) = 0%Z /\
    Element.pixel_shader (elements w' 0%nat) = plain /\
    Forall (fun s => Step.started s = false) (steps w').
Proof.
  destruct show_end_pass as (w1 & Hpass & Hsteps & Hreads & _).
  destruct (loop_restart_after_completion five_seconds show_end) as [Hex Heff].
  destruct (Hex w1 Hpass) as [w' Hw'].
  { rewrite Hsteps. split.
    - eexists. split; [reflexivity |]. eexists. reflexivity.
    - intros s Hin Hty.
      repeat (apply elem_of_cons in Hin as [->|Hin]).
      + eexists. reflexivity.
      + discriminate Hty.
      + inversion Hin. }
  exists w'. split; [exact Hw' |].
  destruct (Heff w' Hw')
    as (w1' & s0 & e0 & Hpass' & Hs0 & He0 & _ & _ & _ & _ & Hall & Hstart & Htile & Hpos & Hpal).
  rewrite Hpass in Hpass'. injection Hpass' as <-.
  rewrite Hsteps in Hs0, Hpos, Hpal. injection Hs0 as <-. injection He0 as <-.
  rewrite Hreads in Hstart.
  split; [exact Hstart |].
  destruct (Hpos (letter_at 10 0 {["default_palette" := plain]}) 0%nat) as [Hx Hy];
    try reflexivity.
  { left. }
  { intros s' Hin Hty He.
    repeat (apply elem_of_cons in Hin as [->|Hin]);
      [reflexivity | discriminate Hty | inversion Hin]. }
  split; [exact Hx |]. split; [exact Hy |]. split; [exact Htile |].
  split; [| exact Hall].
  apply (Hpal (letter_at 10 0 {["default_palette" := plain]})); try reflexivity.
  - left.
  - intros s' p' Hin Hty He Hp.
    repeat (apply elem_of_cons in Hin as [->|Hin]);
      [vm_compute in Hp; injection Hp as <-; reflexivity
      | discriminate Hty | inversion Hin].
Defined.


(** ** The pass over the steps *)

Section Pass.
Variable ticks_ms : nat -> Z.

Lemma call_tick_effect (a : nat) (w w' : World) (r : bool) :
  call_tick ticks_ms a w = Ok (r, w') ->
  trace w' = trace w ++ [ev_ticks_ms (clock_reads w); ev_tick a r] /\
  steps w' = steps w /\ start_time w' = start_time w.
Proof.
  unfold call_tick, bind, read_clock. cbn [animators elements].
  destruct (OvershootAnimator.tick _ _ _) as [[[r0 self'] el']|ex]; [| discriminate].
  cbn. intros H. injection H as <- <-. cbn. rewrite <- app_assoc.
  repeat split; reflexivity.
Qed.

Lemma call_animate_to_effect (a : nat) (tx ty : Z) (dur op : R)
    (ssa sd : option R) (sfi sti : option Z) (ev : option R) (w : World) :
  exists r w',
    call_animate_to ticks_ms a tx ty dur op ssa sd sfi sti ev w = Ok (r, w') /\
    trace w' = trace w ++ [ev_ticks_ms (clock_reads w); ev_animate_to a r] /\
    steps w' = steps w /\ start_time w' = start_time w.
Proof.
  unfold call_animate_to, bind, read_clock. cbn [animators elements].
  destruct (OvershootAnimator.animate_to _ _ _ _ _ _ _ _ _ _ _ _) as [r self'].
  cbn. do 2 eexists. split; [reflexivity |]. cbn. rewrite <- app_assoc.
  repeat split; reflexivity.
Qed.

Lemma tick_calls_swap_events (name : string) (l : list Step.t) :
  tick_calls (swap_events name l) = [] /\ animate_to_calls (swap_events name l) = [].
Proof.
  induction l as [|s l [IH1 IH2]]; [split; reflexivity |].
  unfold swap_events. cbn [flat_map]. fold (swap_events name l).
  unfold tick_calls, animate_to_calls in *. rewrite !omap_app, IH1, IH2, !app_nil_r.
  destruct (Step.palettes s !! name); [| split; reflexivity].
  destruct (Step.tilegrid s); split; reflexivity.
Qed.

(** The one-time effect of a step: no animator is ticked, and [animate_to]
    is called exactly for an animation step. *)
Lemma fire_effect (i : nat) (s : Step.t) (w w' : World) :
  fire ticks_ms i s w = Ok (tt, w') ->
  exists evs,
    trace w' = trace w ++ evs /\
    tick_calls evs = [] /\
    animate_to_calls evs =
      (if String.eqb (Step.type s) "animation_step"
       then match Step.animator s with Some a => [a] | None => [] end
       else []) /\
    start_time w' = start_time w /\
    steps w' = alter (fun s => Step.set_started s true) i (steps w).
Proof.
  unfold fire, bind. cbn [set_step_started].
  destruct (String.eqb (Step.type s) "animation_step").
  - unfold get_animator. destruct (Step.animator s) as [a|]; [| discriminate].
    unfold ret at 1.
    destruct (Step.sprite_anim_range s) as [[from to]|].
    + match goal with
      | |- context [call_animate_to ?c ?a ?x ?y ?d ?o ?ssa ?sd ?f ?t ?e ?w0] =>
          destruct (call_animate_to_effect a x y d o ssa sd f t e w0)
            as (r & w1 & -> & Ht & Hs & Hst)
      end.
      unfold ret. intros H. injection H as <-.
      eexists. split; [exact Ht |]. cbn in Hs, Hst. repeat split; assumption.
    + match goal with
      | |- context [call_animate_to ?c ?a ?x ?y ?d ?o ?ssa ?sd ?f ?t ?e ?w0] =>
          destruct (call_animate_to_effect a x y d o ssa sd f t e w0)
            as (r & w1 & -> & Ht & Hs & Hst)
      end.
      unfold ret. intros H. injection H as <-.
      eexists. split; [exact Ht |]. cbn in Hs, Hst. repeat split; assumption.
  - destruct (String.eqb (Step.type s) "change_palette").
    + unfold change_palette_broadcast. intros H.
      destruct (for_each_swap _ _ _ _ H) as (Ht & Hs & _ & Hst & _).
      cbn in Ht, Hs, Hst. eexists. split; [exact Ht |].
      destruct (tick_calls_swap_events (Step.new_palette s)
                  (alter (fun s => Step.set_started s true) i (steps w))) as [H1 H2].
      repeat split; assumption.
    + unfold ret. intros H. injection H as <-. exists []. cbn. rewrite app_nil_r.
      repeat split; reflexivity.
Qed.

(** One iteration of the [for] loop. *)
Lemma dispatch_effect (now : R) (i : nat) (s : Step.t) (sg sg' : bool) (w w' : World) :
  dispatch ticks_ms now i s sg w = Ok (sg', w') ->
  exists evs,
    trace w' = trace w ++ evs /\
    start_time w' = start_time w /\
    length (steps w') = length (steps w) /\
    tick_calls evs = ticked now (start_time w) [s] /\
    animate_to_calls evs = armed now (start_time w) [s] /\
    if elapsed now (start_time w) s then
      if (i =? length (steps w) - 1)%nat then
        match Step.animator s with
        | Some a => exists evs0, evs = evs0 ++ [ev_tick a sg']
        | None => sg' = false
        end
      else sg' = sg
    else sg' = sg.
Proof.
  unfold dispatch, ticked, armed. cbn [omap list_omap].
  fold (elapsed now (start_time w) s).
  destruct (elapsed now (start_time w) s); cbn [andb].
  - unfold bind. intros H.
    assert (Hfire : exists w1 evs1,
               (if negb (Step.started s) then fire ticks_ms i s else ret ()) w = Ok (tt, w1) /\
               trace w1 = trace w ++ evs1 /\ tick_calls evs1 = [] /\
               animate_to_calls evs1 =
                 (if negb (Step.started s) && String.eqb (Step.type s) "animation_step"
                  then match Step.animator s with Some a => [a] | None => [] end
                  else []) /\
               start_time w1 = start_time w /\
               length (steps w1) = length (steps w)).
    { destruct (negb (Step.started s)); cbn [andb].
      - destruct (fire ticks_ms i s w) as [[[] w1]|ex] eqn:E; [| discriminate H].
        destruct (fire_effect _ _ _ _ E) as (evs1 & Ht & Htc & Hac & Hst & Hs).
        exists w1, evs1. rewrite Hs, length_alter. repeat split; assumption.
      - exists w, []. unfold ret. rewrite app_nil_r. repeat split; reflexivity. }
    destruct Hfire as (w1 & evs1 & E & Ht1 & Htc1 & Hac1 & Hst1 & Hlen1).
    rewrite E in H. rewrite <- Hlen1.
    destruct (Step.animator s) as [a|] eqn:Ha.
    + destruct (call_tick ticks_ms a w1) as [[r w2]|ex] eqn:Et; [| discriminate H].
      unfold ret in H. injection H as <- <-.
      destruct (call_tick_effect _ _ _ _ Et) as (Ht2 & Hs2 & Hst2).
      exists (evs1 ++ [ev_ticks_ms (clock_reads w1); ev_tick a r]).
      rewrite Ht2, Ht1, Hst2, Hst1, Hs2, <- app_assoc.
      split; [reflexivity |]. split; [reflexivity |]. split; [reflexivity |].
      split; [| split].
      * unfold tick_calls in *. rewrite omap_app, Htc1. reflexivity.
      * unfold animate_to_calls in *. rewrite omap_app, Hac1, app_nil_r.
        destruct (negb (Step.started s) && String.eqb (Step.type s) "animation_step");
          reflexivity.
      * destruct (i =? length (steps w1) - 1)%nat; [| reflexivity].
        exists (evs1 ++ [ev_ticks_ms (clock_reads w1)]).
        rewrite <- app_assoc. reflexivity.
    + unfold ret in H. injection H as <- <-.
      exists evs1. split; [exact Ht1 |]. split; [exact Hst1 |].
      split; [reflexivity |]. split; [exact Htc1 |]. split.
      * rewrite Hac1.
        destruct (negb (Step.started s) && String.eqb (Step.type s) "animation_step");
          reflexivity.
      * destruct (i =? length (steps w1) - 1)%nat; reflexivity.
  - unfold ret. intros H. injection H as <- <-. exists [].
    rewrite app_nil_r. repeat split; reflexivity.
Qed.

Lemma ticked_cons (now epoch : R) (s : Step.t) (l : list Step.t) :
  ticked now epoch (s :: l) = ticked now epoch [s] ++ ticked now epoch l.
Proof.
  unfold ticked. cbn [omap list_omap].
  destruct (elapsed now epoch s); [| reflexivity].
  destruct (Step.animator s); reflexivity.
Qed.

Lemma armed_cons (now epoch : R) (s : Step.t) (l : list Step.t) :
  armed now epoch (s :: l) = armed now epoch [s] ++ armed now epoch l.
Proof.
  unfold armed. cbn [omap list_omap].
  destruct (elapsed now epoch s && negb (Step.started s)
            && String.eqb (Step.type s) "animation_step"); [| reflexivity].
  destruct (Step.animator s); reflexivity.
Qed.

(** The [for] loop over the steps [todo], which are the steps of the list
    from index [i] to its end. *)
Lemma for_steps_effect (now : R) (todo : list Step.t) (i : nat) (sg sg' : bool)
    (w w' : World) :
  for_steps ticks_ms now i todo sg w = Ok (sg', w') ->
  length (steps w) = (i + length todo)%nat ->
  exists evs,
    trace w' = trace w ++ evs /\
    start_time w' = start_time w /\
    length (steps w') = length (steps w) /\
    tick_calls evs = ticked now (start_time w) todo /\
    animate_to_calls evs = armed now (start_time w) todo /\
    decided_by_last now (start_time w) todo sg evs sg'.
Proof.
  revert i sg w. induction todo as [|s todo IH]; intros i sg w H Hlen.
  - unfold for_steps, ret in H. injection H as <- <-. exists [].
    rewrite app_nil_r. repeat split; reflexivity.
  - cbn [for_steps] in H. unfold bind in H.
    destruct (dispatch ticks_ms now i s sg w) as [[sg1 w1]|ex] eqn:E; [| discriminate H].
    destruct (dispatch_effect _ _ _ _ _ _ _ E) as (evs1 & Ht1 & Hst1 & Hl1 & Htc1 & Hac1 & Hsg1).
    cbn [length] in Hlen.
    destruct (IH (S i) sg1 w1 H) as (evs2 & Ht2 & Hst2 & Hl2 & Htc2 & Hac2 & Hsg2); [lia |].
    exists (evs1 ++ evs2). rewrite Ht2, Ht1, Hst2, Hst1, Hl2, Hl1, <- app_assoc.
    split; [reflexivity |]. split; [reflexivity |]. split; [reflexivity |].
    split; [| split].
    + rewrite ticked_cons, <- Htc1, <- Hst1, <- Htc2.
      unfold tick_calls. apply omap_app.
    + rewrite armed_cons, <- Hac1, <- Hst1, <- Hac2.
      unfold animate_to_calls. apply omap_app.
    + rewrite Hst1 in Hsg2. unfold decided_by_last in *.
      destruct todo as [|s2 todo].
      * cbn [last]. cbn [for_steps] in H. unfold ret in H. injection H as <- <-.
        assert (Hi : (i =? length (steps w) - 1)%nat = true) by (apply Nat.eqb_eq; cbn in Hlen; lia).
        rewrite Hi in Hsg1. cbn [last] in Hsg2.
        assert (evs2 = []) as ->.
        { apply (f_equal length) in Ht2. rewrite length_app in Ht2.
          destruct evs2; [reflexivity | cbn in Ht2; lia]. }
        rewrite app_nil_r. exact Hsg1.
      * assert (Hi : (i =? length (steps w) - 1)%nat = false)
          by (apply Nat.eqb_neq; cbn in Hlen; lia).
        rewrite Hi in Hsg1.
        assert (sg1 = sg) as -> by (destruct (elapsed now (start_time w) s); exact Hsg1).
        change (last (s :: s2 :: todo)) with (last (s2 :: todo)).
        destruct (last (s2 :: todo)) as [sl|]; [| exact Hsg2].
        destruct (elapsed now (start_time w) sl); [| exact Hsg2].
        destruct (Step.animator sl) as [a|]; [| exact Hsg2].
        destruct Hsg2 as [evs0 ->]. exists (evs1 ++ evs0).
        rewrite <- app_assoc. reflexivity.
Qed.

(** The palette writes of a stretch of trace. *)
Lemma palette_writes_app (evs1 evs2 : list Event) :
  palette_writes (evs1 ++ evs2) = palette_writes evs1 ++ palette_writes evs2.
Proof. apply omap_app. Qed.

Lemma palette_writes_swap_events (name : string) (l : list Step.t) :
  palette_writes (swap_events name l) = swap_events name l.
Proof.
  induction l as [|s l IH]; [reflexivity |].
  unfold swap_events. cbn [flat_map]. fold (swap_events name l).
  rewrite palette_writes_app, IH.
  destruct (Step.palettes s !! name); [| reflexivity].
  destruct (Step.tilegrid s); reflexivity.
Qed.

(** The broadcast does not read [started]. *)
Lemma swap_events_alter (name : string) (b : bool) (l : list Step.t) (i : nat) :
  swap_events name (alter (fun s => Step.set_started s b) i l) = swap_events name l.
Proof.
  revert i. induction l as [|s l IH]; intros i; [reflexivity |].
  destruct i as [|i].
  - reflexivity.
  - change (alter (fun s => Step.set_started s b) (S i) (s :: l))
      with (s :: alter (fun s => Step.set_started s b) i l).
    unfold swap_events. cbn [flat_map]. f_equal. apply IH.
Qed.

Lemma swapped_ext (now epoch : R) (l1 l2 todo : list Step.t) :
  (forall name, swap_events name l1 = swap_events name l2) ->
  swapped now epoch l1 todo = swapped now epoch l2 todo.
Proof.
  intros H. unfold swapped. induction todo as [|s todo IH]; [reflexivity |].
  cbn [flat_map]. rewrite IH, H. reflexivity.
Qed.

Lemma type_animation_not_swap (s : Step.t) :
  String.eqb (Step.type s) "animation_step" = true ->
  String.eqb (Step.type s) "change_palette" = false.
Proof. intros H. apply String.eqb_eq in H. rewrite H. reflexivity. Qed.

(** The palette writes of the one-time effect of a step. *)
Lemma fire_writes (i : nat) (s : Step.t) (w w' : World) :
  fire ticks_ms i s w = Ok (tt, w') ->
  exists evs,
    trace w' = trace w ++ evs /\
    palette_writes evs =
      (if String.eqb (Step.type s) "change_palette"
       then swap_events (Step.new_palette s) (steps w) else []).
Proof.
  unfold fire, bind. cbn [set_step_started].
  destruct (String.eqb (Step.type s) "animation_step") eqn:Hty.
  - rewrite (type_animation_not_swap s Hty).
    unfold get_animator. destruct (Step.animator s) as [a|]; [| discriminate].
    unfold ret at 1.
    destruct (Step.sprite_anim_range s) as [[from to]|].
    + match goal with
      | |- context [call_animate_to ?c ?a ?x ?y ?d ?o ?ssa ?sd ?f ?t ?e ?w0] =>
          destruct (call_animate_to_effect a x y d o ssa sd f t e w0)
            as (r & w1 & -> & Ht & _)
      end.
      unfold ret. intros H. injection H as <-.
      eexists. split; [exact Ht | reflexivity].
    + match goal with
      | |- context [call_animate_to ?c ?a ?x ?y ?d ?o ?ssa ?sd ?f ?t ?e ?w0] =>
          destruct (call_animate_to_effect a x y d o ssa sd f t e w0)
            as (r & w1 & -> & Ht & _)
      end.
      unfold ret. intros H. injection H as <-.
      eexists. split; [exact Ht | reflexivity].
  - destruct (String.eqb (Step.type s) "change_palette").
    + unfold change_palette_broadcast. intros H.
      destruct (for_each_swap _ _ _ _ H) as (Ht & _).
      cbn [trace steps] in Ht. eexists. split; [exact Ht |].
      rewrite palette_writes_swap_events. apply swap_events_alter.
    + unfold ret. intros H. injection H as <-. exists []. cbn. rewrite app_nil_r.
      split; reflexivity.
Qed.

(** The palette writes of one iteration of the [for] loop. *)
Lemma dispatch_writes (now : R) (i : nat) (s : Step.t) (sg sg' : bool) (w w' : World) :
  dispatch ticks_ms now i s sg w = Ok (sg', w') ->
  exists evs,
    trace w' = trace w ++ evs /\
    palette_writes evs = swapped now (start_time w) (steps w) [s] /\
    (forall name, swap_events name (steps w') = swap_events name (steps w)).
Proof.
  unfold dispatch, swapped. cbn [flat_map]. rewrite app_nil_r.
  fold (elapsed now (start_time w) s).
  destruct (elapsed now (start_time w) s); cbn [andb].
  - unfold bind. intros H.
    assert (Hfire : exists w1 evs1,
               (if negb (Step.started s) then fire ticks_ms i s else ret ()) w = Ok (tt, w1) /\
               trace w1 = trace w ++ evs1 /\
               palette_writes evs1 =
                 (if negb (Step.started s) && String.eqb (Step.type s) "change_palette"
                  then swap_events (Step.new_palette s) (steps w) else []) /\
               (forall name, swap_events name (steps w1) = swap_events name (steps w))).
    { destruct (negb (Step.started s)); cbn [andb].
      - destruct (fire ticks_ms i s w) as [[[] w1]|ex] eqn:E; [| discriminate H].
        destruct (fire_writes _ _ _ _ E) as (evs1 & Ht & Hw).
        destruct (fire_effect _ _ _ _ E) as (_ & _ & _ & _ & _ & Hs).
        exists w1, evs1. split; [reflexivity |]. split; [exact Ht |].
        split; [exact Hw |]. intros name. rewrite Hs. apply swap_events_alter.
      - exists w, []. unfold ret. rewrite app_nil_r. repeat split; reflexivity. }
    destruct Hfire as (w1 & evs1 & E & Ht1 & Hw1 & Hs1).
    rewrite E in H.
    destruct (Step.animator s) as [a|] eqn:Ha.
    + destruct (call_tick ticks_ms a w1) as [[r w2]|ex] eqn:Et; [| discriminate H].
      unfold ret in H. injection H as <- <-.
      destruct (call_tick_effect _ _ _ _ Et) as (Ht2 & Hs2 & _).
      exists (evs1 ++ [ev_ticks_ms (clock_reads w1); ev_tick a r]).
      rewrite Ht2, Ht1, Hs2, <- app_assoc. split; [reflexivity |].
      split; [| exact Hs1].
      rewrite palette_writes_app, Hw1. cbn. apply app_nil_r.
    + unfold ret in H. injection H as <- <-.
      exists evs1. split; [exact Ht1 |]. split; [exact Hw1 | exact Hs1].
  - unfold ret. intros H. injection H as <- <-. exists [].
    rewrite app_nil_r. repeat split; reflexivity.
Qed.

(** The palette writes of the [for] loop over the steps [todo]. *)
Lemma for_steps_writes (now : R) (todo : list Step.t) (i : nat) (sg sg' : bool)
    (w w' : World) :
  for_steps ticks_ms now i todo sg w = Ok (sg', w') ->
  exists evs,
    trace w' = trace w ++ evs /\
    palette_writes evs = swapped now (start_time w) (steps w) todo.
Proof.
  revert i sg w. induction todo as [|s todo IH]; intros i sg w H.
  - unfold for_steps, ret in H. injection H as <- <-. exists [].
    rewrite app_nil_r. split; reflexivity.
  - cbn [for_steps] in H. unfold bind in H.
    destruct (dispatch ticks_ms now i s sg w) as [[sg1 w1]|ex] eqn:E; [| discriminate H].
    destruct (dispatch_writes _ _ _ _ _ _ _ E) as (evs1 & Ht1 & Hw1 & Hs1).
    destruct (dispatch_effect _ _ _ _ _ _ _ E) as (_ & _ & Hst1 & _).
    destruct (IH (S i) sg1 w1 H) as (evs2 & Ht2 & Hw2).
    exists (evs1 ++ evs2). rewrite Ht2, Ht1, <- app_assoc. split; [reflexivity |].
    rewrite palette_writes_app, Hw1, Hw2, Hst1.
    rewrite (swapped_ext now (start_time w) (steps w1) (steps w) todo Hs1).
    unfold swapped. cbn [flat_map]. rewrite app_nil_r. reflexivity.
Qed.

(** C2, amended: on a pass the animator of a step is ticked when, and only
    when, the step's start offset has elapsed: the animators ticked during
    the pass are, in list order, those of the steps whose offset has elapsed
    (one call of [tick] for each such step), and a step whose offset has not
    elapsed causes neither its firing effect nor a tick.  The firing effect
    is further guarded by [started]: [animate_to] is called for the elapsed
    animation steps not started yet, and the palettes written during the
    pass are those of the broadcasts of the elapsed [change_palette] steps
    not started yet (steps that name palettes, not other keys of a step).
    [still_going] comes from the last step: the result of its [tick] when
    its offset has elapsed and it owns an animator, [False] when it has
    elapsed and owns none, and [True] otherwise. *)
Theorem pass_ticks_elapsed_steps (w w' : World) (sg : bool) :
  palette_names (steps w) ->
  steps_pass ticks_ms w = Ok (sg, w') ->
  let now := IZR (ticks_ms (clock_reads w)) / 1000 in
  let epoch := start_time w in
  exists evs,
    trace w' = trace w ++ [ev_ticks_ms (clock_reads w)] ++ evs ++ [ev_refresh] /\
    tick_calls evs = ticked now epoch (steps w) /\
    animate_to_calls evs = armed now epoch (steps w) /\
    palette_writes evs = swapped now epoch (steps w) (steps w) /\
    (forall s a, s ∈ steps w -> Step.animator s = Some a ->
                 elapsed now epoch s = true -> a ∈ tick_calls evs) /\
    (forall a, a ∈ tick_calls evs ->
               exists s, s ∈ steps w /\ Step.animator s = Some a /\
                         elapsed now epoch s = true) /\
    decided_by_last now epoch (steps w) true evs sg.
Proof.
  intros _ H now epoch. unfold steps_pass, bind, read_clock in H.
  match type of H with
  | context [for_steps _ ?n 0 ?l true ?w0] =>
      destruct (for_steps ticks_ms n 0 l true w0) as [[sg1 w1]|ex] eqn:E;
        [| discriminate H]
  end.
  cbn in H. unfold ret in H. injection H as <- <-.
  destruct (for_steps_effect _ _ _ _ _ _ _ E) as (evs & Ht & Hst & Hl & Htc & Hac & Hsg);
    [reflexivity |].
  destruct (for_steps_writes _ _ _ _ _ _ _ E) as (evs' & Ht' & Hw).
  assert (evs' = evs) as -> by (rewrite Ht in Ht'; apply app_inv_head in Ht'; congruence).
  cbn in Ht, Hst, Hl, Htc, Hac, Hsg, Hw.
  exists evs. cbn. rewrite Ht, <- !app_assoc.
  split; [reflexivity |]. split; [exact Htc |]. split; [exact Hac |].
  split; [exact Hw |].
  split; [| split; [| exact Hsg]].
  - intros s a Hin Ha Hel. fold now epoch in Htc. rewrite Htc.
    unfold ticked. apply list_elem_of_omap. exists s. split; [exact Hin |].
    rewrite Hel. exact Ha.
  - intros a Hin. fold now epoch in Htc. rewrite Htc in Hin.
    unfold ticked in Hin. apply list_elem_of_omap in Hin as (s & Hin & Hs).
    exists s. destruct (elapsed now epoch s); [| discriminate Hs]. auto.
Qed.

End Pass.

(** C2, as stated, fails: in the pass over [show_end] at 5 seconds the
    first step owns an animator and its start offset of 10 seconds has not
    elapsed; no animator is ticked during the pass. *)
Lemma pass_skips_tick_before_offset :
  exists w1 s a,
    steps_pass five_seconds show_end = Ok (false, w1) /\
    steps show_end !! 0%nat = Some s /\ Step.animator s = Some a /\
    elapsed (IZR (five_seconds 0) / 1000) (start_time show_end) s = false /\
    tick_calls (trace w1) = [].
Proof.
  destruct show_end_pass as (w1 & Hpass & _ & _ & Ht).
  exists w1, (letter_at 10 0 {["default_palette" := plain]}), 0%nat.
  split; [exact Hpass |]. split; [reflexivity |]. split; [reflexivity |].
  split; [| rewrite Ht; reflexivity].
  unfold elapsed, five_seconds. cbn [show_end start_time letter_at Step.start_time].
  apply Rgeb_false. lra.
Qed.

(** * Further properties *)

(** ** Arming a move *)

(** Numbers within the limit. *)
Lemma coord_ok_intro (v : Z) : (-2147483648 <= v <= 2147483648)%Z -> coord_ok v.
Proof. unfold coord_ok, coord_limit. change (2 ^ 31)%Z with 2147483648%Z. lia. Qed.

Lemma real_ok_intro (v : R) : -2147483648 <= v <= 2147483648 -> real_ok v.
Proof.
  intros H. unfold real_ok, coord_limit. change (2 ^ 31)%Z with 2147483648%Z.
  apply Rabs_le. exact H.
Qed.

Lemma eased_ok_intro (v : R) : 1 <= v -> / IZR coord_limit <= Rabs v.
Proof.
  intros H. unfold coord_limit. change (2 ^ 31)%Z with 2147483648%Z.
  rewrite Rabs_pos_eq by lra. lra.
Qed.

Ltac in_range :=
  repeat split;
  cbn -[coord_ok real_ok coord_limit Rabs];
  first [ exact I
        | apply coord_ok_intro; cbn; lia
        | apply real_ok_intro; cbn; lra
        | apply eased_ok_intro; cbn; lra
        | unfold coord_limit; change (2 ^ 31)%Z with 2147483648%Z; cbn;
          first [lia | lra | unfold Rabs; destruct (Rcase_abs _); lra] ].

Section Arming.
Import OvershootAnimator.

Lemma sqrt_IZR_nonpos (n : Z) : sqrt (IZR n) <= 0 <-> (n <= 0)%Z.
Proof.
  split.
  - intros H. destruct (Z_lt_le_dec 0 n) as [Hpos|Hle]; [| exact Hle].
    apply IZR_lt in Hpos. apply sqrt_lt_R0 in Hpos. lra.
  - intros H. apply IZR_le in H. rewrite sqrt_neg_0 by exact H. lra.
Qed.

Lemma squares_nonpos (dx dy : Z) : (dx * dx + dy * dy <= 0)%Z <-> dx = 0%Z /\ dy = 0%Z.
Proof. split; [intros H; split; nia | intros [-> ->]; reflexivity]. Qed.

(** The test [distance <= 0] of [animate_to]. *)
Lemma distance_test (x y tx ty : Z) :
  Rleb (sqrt (IZR ((tx - x) * (tx - x) + (ty - y) * (ty - y)))) 0 = true
  <-> tx = x /\ ty = y.
Proof.
  unfold Rleb. destruct (Rle_dec _ 0) as [H|H].
  - apply sqrt_IZR_nonpos, squares_nonpos in H. split; [lia | reflexivity].
  - split; [discriminate |]. intros [-> ->]. exfalso. apply H.
    apply sqrt_IZR_nonpos. lia.
Qed.

(** X1: for positions, a target and an overshoot within [coord_limit]
    (beyond 1e154 the square root of line 96 overflows), [animate_to]
    returns [False] exactly when the target is the element's current
    position; otherwise it returns [True] and the animator reports
    [is_animating()]. *)
Theorem animate_to_result (_now : R) (self : t) (el : Element.t) (tx ty : Z)
    (dur op : R) (ssa sd : option R) (sfi sti : option Z) (ev : option R) :
  animate_to_in_range el tx ty op ssa ->
  let r := animate_to _now self el tx ty dur op ssa sd sfi sti ev in
  (fst r = false <-> tx = Element.x el /\ ty = Element.y el) /\
  (fst r = true -> is_animating (snd r) = true) /\
  (fst r = false -> is_animating (snd r) = is_animating self).
Proof.
  intros _. cbv zeta. unfold animate_to.
  destruct ssa as [at_|];
    cbn [start_x start_y record_start arm_sprite store_target];
    pose proof (distance_test (Element.x el) (Element.y el) tx ty) as Hd;
    destruct (Rleb _ 0); cbn [fst snd].
  - split; [split; [intros _; apply Hd; reflexivity | reflexivity] |].
    split; [discriminate | reflexivity].
  - split; [split; [discriminate | intros H; apply Hd in H; discriminate H] |].
    split; [reflexivity | discriminate].
  - split; [split; [intros _; apply Hd; reflexivity | reflexivity] |].
    split; [discriminate | reflexivity].
  - split; [split; [discriminate | intros H; apply Hd in H; discriminate H] |].
    split; [reflexivity | discriminate].
Qed.

Lemma animate_to_result_witness :
  let r := animate_to 0 (init 1) (Element.mk 83 240 0 (mkPalette [] [])) 83 50
             0.45 20 (Some 0.347) (Some (1 / 35)) (Some 0%Z) (Some 15%Z) None in
  fst r = true /\ is_animating (snd r) = true.
Proof.
  cbv zeta.
  destruct (animate_to_result 0 (init 1) (Element.mk 83 240 0 (mkPalette [] [])) 83 50
              0.45 20 (Some 0.347) (Some (1 / 35)) (Some 0%Z) (Some 15%Z) None)
    as (Hiff & Htrue & _).
  - unfold animate_to_in_range. in_range.
  - assert (Hr : fst (animate_to 0 (init 1) (Element.mk 83 240 0 (mkPalette [] [])) 83 50
                        0.45 20 (Some 0.347) (Some (1 / 35)) (Some 0%Z) (Some 15%Z) None)
                 = true).
    { destruct (fst _); [reflexivity |].
      destruct (proj1 Hiff eq_refl) as [_ E]. discriminate E. }
    split; [exact Hr | exact (Htrue Hr)].
Defined.

(** X2: when the target differs from the element's position, the overshoot
    point lies on the line from the start through the target, beyond the
    target in the direction of travel, at the distance [overshoot_pixels]
    from it. *)
Theorem overshoot_point_geometry (_now : R) (self : t) (el : Element.t) (tx ty : Z)
    (dur op : R) (ssa sd : option R) (sfi sti : option Z) (ev : option R) :
  ~ (tx = Element.x el /\ ty = Element.y el) ->
  let armed := snd (animate_to _now self el tx ty dur op ssa sd sfi sti ev) in
  let dx := IZR (tx - Element.x el) in
  let dy := IZR (ty - Element.y el) in
  let distance := sqrt (dx * dx + dy * dy) in
  0 < distance /\
  (overshoot_x armed - IZR tx) * distance = dx * op /\
  (overshoot_y armed - IZR ty) * distance = dy * op /\
  (overshoot_x armed - IZR tx) ^ 2 + (overshoot_y armed - IZR ty) ^ 2 = op ^ 2.
Proof.
  intros Hne. cbv zeta. rewrite <- !mult_IZR, <- plus_IZR.
  set (n := ((tx - Element.x el) * (tx - Element.x el)
             + (ty - Element.y el) * (ty - Element.y el))%Z).
  assert (Hn : (0 < n)%Z).
  { unfold n. destruct (Z.eq_dec tx (Element.x el)) as [Hx|Hx];
      destruct (Z.eq_dec ty (Element.y el)) as [Hy|Hy]; [tauto | nia | nia | nia]. }
  assert (HD : 0 < sqrt (IZR n)) by (apply sqrt_lt_R0, IZR_lt, Hn).
  assert (HDD : sqrt (IZR n) * sqrt (IZR n) = IZR n)
    by (apply sqrt_sqrt, IZR_le; lia).
  assert (Hsum : IZR n = IZR (tx - Element.x el) * IZR (tx - Element.x el)
                         + IZR (ty - Element.y el) * IZR (ty - Element.y el))
    by (unfold n; rewrite plus_IZR, !mult_IZR; reflexivity).
  assert (Harm : overshoot_x (snd (animate_to _now self el tx ty dur op ssa sd sfi sti ev))
                 = IZR tx + IZR (tx - Element.x el) / sqrt (IZR n) * op /\
                 overshoot_y (snd (animate_to _now self el tx ty dur op ssa sd sfi sti ev))
                 = IZR ty + IZR (ty - Element.y el) / sqrt (IZR n) * op).
  { unfold animate_to.
    destruct ssa as [at_|];
      cbn [start_x start_y record_start arm_sprite store_target];
      fold n; rewrite Rleb_false by exact HD; split; reflexivity. }
  destruct Harm as [-> ->]. set (D := sqrt (IZR n)) in *.
  split; [exact HD |]. split; [| split].
  - field. lra.
  - field. lra.
  - replace (IZR tx + IZR (tx - Element.x el) / D * op - IZR tx)
      with (IZR (tx - Element.x el) / D * op) by ring.
    replace (IZR ty + IZR (ty - Element.y el) / D * op - IZR ty)
      with (IZR (ty - Element.y el) / D * op) by ring.
    replace ((IZR (tx - Element.x el) / D * op) ^ 2 + (IZR (ty - Element.y el) / D * op) ^ 2)
      with ((IZR (tx - Element.x el) * IZR (tx - Element.x el)
             + IZR (ty - Element.y el) * IZR (ty - Element.y el)) / (D * D) * op ^ 2)
      by (field; lra).
    rewrite <- Hsum, HDD. field. apply eq_IZR_contrapositive. lia.
Qed.

Lemma overshoot_point_geometry_witness :
  let el := Element.mk 83 240 0 (mkPalette [] []) in
  let armed := snd (animate_to 0 (init 0) el 83 50 0.45 20 None default_sprite_delay
                      None None None) in
  (overshoot_x armed - 83) ^ 2 + (overshoot_y armed - 50) ^ 2 = 20 ^ 2.
Proof.
  cbv zeta.
  destruct (overshoot_point_geometry 0 (init 0) (Element.mk 83 240 0 (mkPalette [] []))
              83 50 0.45 20 None default_sprite_delay None None None)
    as (_ & _ & _ & H).
  - cbn. intros [_ H]. discriminate H.
  - exact H.
Defined.

End Arming.

(** ** What [tick] keeps and when it raises *)

Section TickFrame.
Import OvershootAnimator.

(** X3: [tick] never changes the parameters of the move (start, target,
    overshoot point, duration, overshoot distance, eased value), the
    element the animator is bound to, or the element's palette. *)
Theorem tick_keeps_motion_parameters (_now : R) (self self' : t)
    (el el' : Element.t) (r : bool) :
  tick _now self el = Ok (r, self', el') ->
  motion_fields self' = motion_fields self /\
  element self' = element self /\
  Element.pixel_shader el' = Element.pixel_shader el.
Proof.
  unfold tick. intros H.
  destruct (tick_sprite _now self el) as [f|ex] eqn:E; [| discriminate H].
  pose proof (tick_sprite_frame _ _ _ _ E) as Hfr. cbn [rbind] in H.
  destruct f as [self1 el1|b self1 el1].
  - injection H as <- <- <-. tauto.
  - destruct Hfr as (Hm & _ & He & _ & _ & Hp).
    destruct (tick_position_frame _ _ _ _ _ _ _ H) as (_ & Hm' & He' & _ & Hp').
    rewrite Hm', He', Hp'. auto.
Qed.

Lemma tick_keeps_motion_parameters_witness :
  let self := mk 0 false 0 0 0 7 9 7 29 1 20 None None (-1) (-1) None None None in
  let el := Element.mk 7 9 0 (mkPalette [] []) in
  exists r self' el',
    tick 3 self el = Ok (r, self', el') /\ motion_fields self' = motion_fields self.
Proof.
  cbv zeta.
  exists false, (mk 0 false 0 0 0 7 9 7 29 1 20 None None (-1) (-1) None None None),
    (Element.mk 7 9 0 (mkPalette [] [])).
  split; [reflexivity |].
  apply (tick_keeps_motion_parameters 3 _ _ (Element.mk 7 9 0 (mkPalette [] []))
           (Element.mk 7 9 0 (mkPalette [] [])) false).
  reflexivity.
Defined.

Lemma tick_position_ok (_now : R) (b : bool) (self : t) (el : Element.t) :
  motion_ok _now self ->
  exists r self' el', tick_position _now b self el = Ok (r, self', el').
Proof.
  intros (Hd & Hs & Hev). unfold tick_position.
  rewrite py_div_ok by lra. cbn [rbind].
  destruct (Rgeb _ 1); [do 3 eexists; reflexivity |].
  destruct (curve_ok self ((_now - OvershootAnimator.start_time self) / duration self))
    as [[[[[fx fy] tx] ty] eased] Hc]; [| assumption |].
  - apply Rdiv_nonneg; lra.
  - rewrite Hc. cbn [rbind]. do 3 eexists; reflexivity.
Qed.

Lemma tick_ok (_now : R) (self : t) (el : Element.t) :
  motion_ok _now self -> sprite_ok self ->
  exists r self' el', tick _now self el = Ok (r, self', el').
Proof.
  intros Hok Hs. unfold tick, tick_sprite.
  destruct (cur_sprite_index self) as [c|] eqn:Hc.
  - destruct Hs as [Hs|[[d Hd] [to Hto]]]; [congruence |].
    destruct (Rgeb _now (sprite_anim_start_time self)).
    + unfold sprite_anim_tick. rewrite Hd. cbn [not_None rbind].
      destruct (Rgeb _now (last_sprite_frame_time self + d)).
      * rewrite Hc. cbn [not_None rbind advance_sprite sprite_anim_to_index].
        rewrite Hto. cbn [not_None rbind].
        destruct (c + 1 >? to)%Z; cbn [rbind negb].
        -- do 3 eexists; reflexivity.
        -- apply tick_position_ok. exact Hok.
      * cbn [rbind negb]. apply tick_position_ok. exact Hok.
    + cbn [rbind]. apply tick_position_ok. exact Hok.
  - destruct (negb (pos_animating self)); cbn [rbind].
    + do 3 eexists; reflexivity.
    + apply tick_position_ok. exact Hok.
Qed.

(** X4: [tick] raises nothing when the duration is positive, the clock is
    not behind the start of the move, [eased_value] is not 0 and an armed
    sprite cycle has its frame delay and last index set, for an animator
    whose coordinates, duration and frame delay are within [coord_limit]
    and whose [eased_value] is not below its inverse (a tiny [eased_value]
    makes line 197 overflow and [int()] raise). *)
Theorem tick_raises_nothing (_now : R) (self : t) (el : Element.t) :
  tick_in_range self ->
  motion_ok _now self -> sprite_ok self ->
  exists r self' el', tick _now self el = Ok (r, self', el').
Proof. intros _. apply tick_ok. Qed.

Lemma tick_raises_nothing_witness :
  let self := mk 0 true 0 0 0 0 100 0 120 1 20 None
                (Some 0%Z) (-1) 0.3 (Some 0%Z) (Some 3%Z) (Some 0.1) in
  let el := Element.mk 0 0 0 (mkPalette [] []) in
  exists r self' el', tick 0.5 self el = Ok (r, self', el').
Proof.
  cbv zeta. apply tick_raises_nothing.
  - unfold tick_in_range. in_range.
  - unfold motion_ok. cbn. repeat split; [lra | lra | discriminate].
  - right. cbn. split; eexists; reflexivity.
Defined.

(** X5: a call of [tick] that reaches the position motion with a zero
    duration raises [ZeroDivisionError]; so does every [tick] after
    [animate_to(..., duration=0)] armed a move to another position with no
    sprite cycle armed. *)
Theorem tick_zero_duration (_now : R) (self : t) (el : Element.t) :
  (forall still self1 el1,
     tick_sprite _now self el = Ok (Continue still self1 el1) ->
     duration self = 0 ->
     tick _now self el = Raise ZeroDivisionError) /\
  (forall t0 tx ty op ev,
     cur_sprite_index self = None ->
     ~ (tx = Element.x el /\ ty = Element.y el) ->
     tick _now (snd (animate_to t0 self el tx ty 0 op None default_sprite_delay
                       None None ev)) el
     = Raise ZeroDivisionError).
Proof.
  split.
  - intros still self1 el1 Hflow Hd.
    pose proof (tick_sprite_frame _ _ _ _ Hflow) as Hfr. cbn in Hfr.
    destruct Hfr as (Hm & _). unfold motion_fields in Hm.
    injection Hm as _ _ _ _ _ _ _ Hdur _ _.
    unfold tick. rewrite Hflow. cbn [rbind]. unfold tick_position, py_div.
    rewrite Hdur, Hd. destruct (Req_dec_T 0 0); [reflexivity | contradiction].
  - intros t0 tx ty op ev Hc Hne.
    pose proof (distance_test (Element.x el) (Element.y el) tx ty) as Hd.
    unfold animate_to. cbn [start_x start_y record_start store_target].
    destruct (Rleb _ 0); [exfalso; apply Hne, Hd; reflexivity |].
    cbn [snd]. unfold tick, tick_sprite.
    cbn [start_motion store_target record_start cur_sprite_index pos_animating].
    rewrite Hc. cbn [negb rbind]. unfold tick_position, py_div.
    cbn [start_motion store_target record_start duration].
    destruct (Req_dec_T 0 0); [reflexivity | contradiction].
Qed.

Lemma tick_zero_duration_witness :
  tick 1 (snd (animate_to 0 (init 0) (Element.mk 0 0 0 (mkPalette [] [])) 0 100 0 20
                 None default_sprite_delay None None None))
    (Element.mk 0 0 0 (mkPalette [] []))
  = Raise ZeroDivisionError.
Proof.
  destruct (tick_zero_duration 1 (init 0) (Element.mk 0 0 0 (mkPalette [] []))) as [_ H].
  apply H.
  - reflexivity.
  - cbn. intros [_ H']. discriminate H'.
Defined.

End TickFrame.

(** ** [cancel], completion and the arming instant *)

Section TickMore.
Import OvershootAnimator.

(** X6: after [cancel()], with no sprite cycle armed, [tick] returns [False]
    and changes nothing; while a sprite cycle is armed, [cancel()] does not
    stop the move: [tick] returns the same result and writes the same
    element as without it. *)
Theorem cancel_then_tick (_now : R) (self : t) (el : Element.t) :
  (cur_sprite_index self = None ->
   tick _now (cancel self) el = Ok (false, cancel self, el)) /\
  (forall c r self' el',
     cur_sprite_index self = Some c ->
     tick _now self el = Ok (r, self', el') ->
     tick _now (cancel self) el = Ok (r, cancel self', el')).
Proof.
  split.
  - intros Hc. unfold tick, tick_sprite.
    cbn [cancel clear_pos_animating cur_sprite_index pos_animating].
    rewrite Hc. reflexivity.
  - intros c r self' el' Hc. unfold cancel, tick, tick_sprite.
    cbn [clear_pos_animating cur_sprite_index sprite_anim_start_time].
    rewrite Hc.
    assert (Hpos : forall b s0 e0 r0 s1 e1,
               tick_position _now b s0 e0 = Ok (r0, s1, e1) ->
               tick_position _now b (clear_pos_animating s0) e0
               = Ok (r0, clear_pos_animating s1, e1)).
    { intros b s0 e0 r0 s1 e1. unfold tick_position.
      cbn [clear_pos_animating OvershootAnimator.start_time duration target_x target_y].
      destruct (py_div _ _) as [progress|ex]; [| discriminate]. cbn [rbind].
      destruct (Rgeb progress 1).
      - intros H. injection H as <- <- <-. reflexivity.
      - change (curve (clear_pos_animating s0) progress) with (curve s0 progress).
        destruct (curve s0 progress) as [[[[[fx fy] tx] ty] eased]|ex]; [| discriminate].
        cbn [rbind]. intros H. injection H as <- <- <-. reflexivity. }
    destruct (Rgeb _now (sprite_anim_start_time self)).
    + unfold sprite_anim_tick.
      cbn [clear_pos_animating sprite_anim_delay last_sprite_frame_time cur_sprite_index].
      destruct (sprite_anim_delay self) as [d|]; [| discriminate]. cbn [not_None rbind].
      destruct (Rgeb _now (last_sprite_frame_time self + d)).
      * rewrite Hc. cbn [not_None rbind advance_sprite sprite_anim_to_index clear_pos_animating].
        destruct (sprite_anim_to_index self) as [to|]; [| discriminate].
        cbn [not_None rbind].
        destruct (c + 1 >? to)%Z; cbn [rbind negb].
        -- intros H. injection H as <- <- <-. reflexivity.
        -- intros H. apply Hpos in H. exact H.
      * cbn [rbind negb]. intros H. apply Hpos in H. exact H.
    + cbn [rbind]. intros H. apply Hpos in H. exact H.
Qed.

Lemma cancel_then_tick_witness :
  let self := mk 0 true 0 0 0 0 100 0 120 1 20 None None (-1) (-1) None None None in
  let el := Element.mk 0 40 0 (mkPalette [] []) in
  tick 0.5 (cancel self) el = Ok (false, cancel self, el).
Proof.
  cbv zeta.
  destruct (cancel_then_tick 0.5
              (mk 0 true 0 0 0 0 100 0 120 1 20 None None (-1) (-1) None None None)
              (Element.mk 0 40 0 (mkPalette [] []))) as [H _].
  apply H. reflexivity.
Defined.

(** X7: once a move with no sprite cycle armed has reached
    [progress >= 1.0], [tick] puts the element on the target, returns
    [False], and the animator is idle for good: every later [tick], at any
    time, returns [False] and changes nothing, until [animate_to] is called
    again. *)
Theorem tick_completion_is_final (_now : R) (self : t) (el : Element.t) :
  cur_sprite_index self = None -> pos_animating self = true ->
  duration self <> 0 ->
  (_now - OvershootAnimator.start_time self) / duration self >= 1 ->
  exists self' el',
    tick _now self el = Ok (false, self', el') /\
    Element.x el' = target_x self /\ Element.y el' = target_y self /\
    is_animating self' = false /\
    forall later, tick later self' el' = Ok (false, self', el').
Proof.
  intros Hc Hp Hd Hpr.
  destruct (tick_position_done _now false self el Hd Hpr) as (el' & Ht & Hx & Hy & _).
  exists (clear_pos_animating self), el'. split; [| split; [exact Hx | split; [exact Hy |]]].
  - unfold tick, tick_sprite. rewrite Hc, Hp. cbn [negb rbind]. exact Ht.
  - split; [reflexivity |]. intros later. unfold tick, tick_sprite.
    cbn [clear_pos_animating cur_sprite_index pos_animating]. rewrite Hc. reflexivity.
Qed.

Lemma tick_completion_is_final_witness :
  let self := mk 0 true 0 0 100 0 0 0 0 1 0 None None (-1) (-1) None None None in
  let el := Element.mk 0 3 0 (mkPalette [] []) in
  exists self' el',
    tick 1 self el = Ok (false, self', el') /\
    Element.y el' = 0%Z /\ tick 2 self' el' = Ok (false, self', el').
Proof.
  cbv zeta.
  destruct (tick_completion_is_final 1
              (mk 0 true 0 0 100 0 0 0 0 1 0 None None (-1) (-1) None None None)
              (Element.mk 0 3 0 (mkPalette [] [])))
    as (self' & el' & Ht & _ & Hy & _ & Hlater).
  - reflexivity.
  - reflexivity.
  - cbn. lra.
  - cbn. lra.
  - exists self', el'. split; [exact Ht |]. split; [exact Hy | apply Hlater].
Defined.

(** X8: a [tick] at the very instant a move was armed (no sprite cycle)
    leaves the element where it is and returns [True], for each of the three
    easing curves. *)
Theorem tick_at_arming_instant (_now : R) (self : t) (el : Element.t) (tx ty : Z)
    (dur op : R) (sd : option R) (ev : option R) :
  cur_sprite_index self = None ->
  ~ (tx = Element.x el /\ ty = Element.y el) ->
  dur <> 0 -> ev <> Some 0 ->
  let armed := snd (animate_to _now self el tx ty dur op None sd None None ev) in
  tick _now armed el = Ok (true, armed, el).
Proof.
  intros Hc Hne Hd Hev. cbv zeta.
  pose proof (distance_test (Element.x el) (Element.y el) tx ty) as Hdist.
  unfold animate_to. cbn [start_x start_y record_start store_target].
  destruct (Rleb _ 0); [exfalso; apply Hne, Hdist; reflexivity |].
  cbn [snd]. set (armed := start_motion _ _ _ _).
  unfold tick, tick_sprite.
  assert (Hca : cur_sprite_index armed = None) by exact Hc.
  rewrite Hca. cbn [armed start_motion pos_animating negb rbind].
  unfold tick_position.
  cbn [start_motion store_target record_start duration OvershootAnimator.start_time].
  change (OvershootAnimator.start_time armed) with _now.
  change (duration armed) with dur.
  rewrite py_div_ok by exact Hd. cbn [rbind].
  replace ((_now - _now) / dur) with 0 by (field; exact Hd).
  rewrite Rgeb_false by lra.
  assert (Hfin : forall fx fy,
             Ok (true, armed,
                 Element.set_xy el
                   (py_int (IZR (Element.x el) + (fx - IZR (Element.x el)) * 0))
                   (py_int (IZR (Element.y el) + (fy - IZR (Element.y el)) * 0)))
             = Ok (true, armed, el)).
  { intros fx fy.
    replace (IZR (Element.x el) + (fx - IZR (Element.x el)) * 0)
      with (IZR (Element.x el)) by ring.
    replace (IZR (Element.y el) + (fy - IZR (Element.y el)) * 0)
      with (IZR (Element.y el)) by ring.
    rewrite !py_int_IZR. destruct el; reflexivity. }
  unfold curve.
  change (overshoot_pixels armed) with op. change (eased_value armed) with ev.
  change (start_x armed) with (Element.x el). change (start_y armed) with (Element.y el).
  destruct (Rgtb op 0).
  - rewrite Rltb_true by lra. unfold py_pow.
    replace (0 / 0.7) with 0 by lra.
    destruct (Rlt_dec 0 0); [lra |]. destruct (Req_dec_T 0 0); [| contradiction].
    cbn [rbind]. apply Hfin.
  - destruct ev as [v|].
    + rewrite py_div_ok by congruence. cbn [rbind].
      replace (0 / v) with 0 by (field; congruence). apply Hfin.
    + cbn [rbind]. replace (1 - (1 - 0) ^ 4) with 0 by ring. apply Hfin.
Qed.

Lemma tick_at_arming_instant_witness :
  let el := Element.mk 100 0 0 (mkPalette [] []) in
  let armed := snd (animate_to 0.9 (init 3) el 30 0 1.75 0 None default_sprite_delay
                      None None (Some 1)) in
  tick 0.9 armed el = Ok (true, armed, el).
Proof.
  cbv zeta. apply tick_at_arming_instant.
  - reflexivity.
  - cbn. intros [H _]. discriminate H.
  - lra.
  - intros H. injection H as H. lra.
Defined.

End TickMore.

(** ** The easing curves *)

Section Curves.
Import OvershootAnimator.

Lemma Int_part_nonneg (r : R) : 0 <= r -> (0 <= Int_part r)%Z.
Proof.
  intros H. destruct (base_Int_part r) as [_ Hgt].
  apply Z.lt_succ_r. apply lt_IZR. rewrite succ_IZR. lra.
Qed.

Lemma Int_part_mono (a b : R) : a <= b -> (Int_part a <= Int_part b)%Z.
Proof.
  intros H. destruct (base_Int_part a) as [Ha _]. destruct (base_Int_part b) as [_ Hb].
  apply Z.lt_succ_r. apply lt_IZR. rewrite succ_IZR. lra.
Qed.

(** [int()] is monotone. *)
Lemma py_int_mono (a b : R) : a <= b -> (py_int a <= py_int b)%Z.
Proof.
  intros H. unfold py_int.
  destruct (Rle_dec 0 a) as [Ha|Ha]; destruct (Rle_dec 0 b) as [Hb|Hb].
  - apply Int_part_mono. exact H.
  - lra.
  - assert (0 <= Int_part (- a))%Z by (apply Int_part_nonneg; lra).
    assert (0 <= Int_part b)%Z by (apply Int_part_nonneg; lra). lia.
  - assert (Int_part (- b) <= Int_part (- a))%Z by (apply Int_part_mono; lra). lia.
Qed.

(** [tick] on the ease-out curve used when no overshoot is asked for and no
    [eased_value] is given. *)
Lemma tick_ease_out (_now : R) (self : t) (el : Element.t) :
  cur_sprite_index self = None -> pos_animating self = true ->
  duration self <> 0 -> overshoot_pixels self <= 0 -> eased_value self = None ->
  let progress := (_now - OvershootAnimator.start_time self) / duration self in
  progress < 1 ->
  let eased := 1 - (1 - progress) ^ 4 in
  tick _now self el =
    Ok (true, self,
        Element.set_xy el
          (py_int (IZR (start_x self) + (IZR (target_x self) - IZR (start_x self)) * eased))
          (py_int (IZR (start_y self) + (IZR (target_y self) - IZR (start_y self)) * eased))).
Proof.
  intros Hc Hp Hd Ho Hev progress Hpr eased.
  unfold tick, tick_sprite. rewrite Hc, Hp. cbn [negb rbind].
  unfold tick_position. rewrite py_div_ok by assumption. cbn [rbind].
  fold progress. rewrite Rgeb_false by lra.
  unfold curve. rewrite Rgtb_false by assumption. rewrite Hev. reflexivity.
Qed.

Lemma ease_out_range (p : R) : 0 <= p < 1 -> 0 <= 1 - (1 - p) ^ 4 <= 1.
Proof.
  intros Hp. assert (H0 : 0 <= (1 - p) ^ 4) by (apply pow_le; lra).
  assert (H1 : (1 - p) ^ 4 <= 1 ^ 4) by (apply pow_incr; lra).
  rewrite pow1 in H1. lra.
Qed.

Lemma ease_out_mono (p q : R) : 0 <= p <= q -> q < 1 ->
  1 - (1 - p) ^ 4 <= 1 - (1 - q) ^ 4.
Proof.
  intros Hpq Hq. assert (H : (1 - q) ^ 4 <= (1 - p) ^ 4) by (apply pow_incr; lra).
  lra.
Qed.

(** A coordinate eased from [a] to the integer [t] stays between them after
    [int()]. *)
Lemma lerp_between (a : R) (t : Z) (e : R) :
  0 <= e <= 1 ->
  (Z.min (py_int a) t <= py_int (a + (IZR t - a) * e) <= Z.max (py_int a) t)%Z.
Proof.
  intros He. set (c := a + (IZR t - a) * e).
  destruct (Rle_dec a (IZR t)) as [Hst|Hst].
  - assert (a <= c <= IZR t) by (unfold c; nra).
    assert (H1 : (py_int a <= py_int c)%Z) by (apply py_int_mono; lra).
    assert (H2 : (py_int c <= py_int (IZR t))%Z) by (apply py_int_mono; lra).
    rewrite py_int_IZR in H2. lia.
  - assert (IZR t <= c <= a) by (unfold c; nra).
    assert (H1 : (py_int (IZR t) <= py_int c)%Z) by (apply py_int_mono; lra).
    assert (H2 : (py_int c <= py_int a)%Z) by (apply py_int_mono; lra).
    rewrite py_int_IZR in H1. lia.
Qed.

(** A coordinate eased from [a] to the integer [t] never moves away from
    [t]. *)
Lemma lerp_approach (a : R) (t : Z) (e1 e2 : R) :
  0 <= e1 <= e2 -> e2 <= 1 ->
  (Z.abs (py_int (a + (IZR t - a) * e2) - t)
   <= Z.abs (py_int (a + (IZR t - a) * e1) - t))%Z.
Proof.
  intros He He2.
  set (c1 := a + (IZR t - a) * e1). set (c2 := a + (IZR t - a) * e2).
  destruct (Rle_dec a (IZR t)) as [Hst|Hst].
  - assert (c1 <= c2 <= IZR t) by (unfold c1, c2; nra).
    assert (H1 : (py_int c1 <= py_int c2)%Z) by (apply py_int_mono; lra).
    assert (H2 : (py_int c2 <= py_int (IZR t))%Z) by (apply py_int_mono; lra).
    rewrite py_int_IZR in H2. lia.
  - assert (IZR t <= c2 <= c1) by (unfold c1, c2; nra).
    assert (H1 : (py_int c2 <= py_int c1)%Z) by (apply py_int_mono; lra).
    assert (H2 : (py_int (IZR t) <= py_int c2)%Z) by (apply py_int_mono; lra).
    rewrite py_int_IZR in H2. lia.
Qed.

(** X9: with no overshoot asked for and no [eased_value], every position
    [tick] writes before completion lies between the start and the target,
    and from one [tick] to a later one the element never moves away from
    the target, in either coordinate. *)
Theorem ease_out_never_overshoots (t1 t2 : R) (self : t) (el : Element.t) :
  cur_sprite_index self = None -> pos_animating self = true ->
  0 < duration self -> overshoot_pixels self <= 0 -> eased_value self = None ->
  OvershootAnimator.start_time self <= t1 <= t2 ->
  (t2 - OvershootAnimator.start_time self) / duration self < 1 ->
  exists el1 el2,
    tick t1 self el = Ok (true, self, el1) /\
    tick t2 self el1 = Ok (true, self, el2) /\
    (Z.min (start_x self) (target_x self) <= Element.x el1
       <= Z.max (start_x self) (target_x self))%Z /\
    (Z.min (start_y self) (target_y self) <= Element.y el1
       <= Z.max (start_y self) (target_y self))%Z /\
    (Z.abs (Element.x el2 - target_x self) <= Z.abs (Element.x el1 - target_x self))%Z /\
    (Z.abs (Element.y el2 - target_y self) <= Z.abs (Element.y el1 - target_y self))%Z.
Proof.
  intros Hc Hp Hd Ho Hev Ht Hpr.
  set (p1 := (t1 - OvershootAnimator.start_time self) / duration self).
  set (p2 := (t2 - OvershootAnimator.start_time self) / duration self) in *.
  assert (Hp1 : 0 <= p1) by (apply Rdiv_nonneg; lra).
  assert (Hp12 : p1 <= p2).
  { unfold p1, p2, Rdiv. apply Rmult_le_compat_r; [| lra].
    left. apply Rinv_0_lt_compat. exact Hd. }
  assert (Hd' : duration self <> 0) by lra.
  pose proof (fun e => tick_ease_out t1 self e Hc Hp Hd' Ho Hev) as E1.
  pose proof (fun e => tick_ease_out t2 self e Hc Hp Hd' Ho Hev) as E2.
  cbv zeta in E1, E2. fold p1 in E1. fold p2 in E2.
  do 2 eexists.
  split; [apply E1; lra |]. split; [apply E2; lra |].
  cbn [Element.set_xy Element.x Element.y].
  pose proof (ease_out_range p1) as R1. pose proof (ease_out_range p2) as R2.
  pose proof (ease_out_mono p1 p2) as M.
  split; [| split; [| split]].
  - pose proof (lerp_between (IZR (start_x self)) (target_x self) (1 - (1 - p1) ^ 4)) as B.
    rewrite py_int_IZR in B. apply B. apply R1. lra.
  - pose proof (lerp_between (IZR (start_y self)) (target_y self) (1 - (1 - p1) ^ 4)) as B.
    rewrite py_int_IZR in B. apply B. apply R1. lra.
  - apply lerp_approach; [split; [apply R1; lra | apply M; lra] | apply R2; lra].
  - apply lerp_approach; [split; [apply R1; lra | apply M; lra] | apply R2; lra].
Qed.

Lemma ease_out_never_overshoots_witness :
  let self := mk 0 true 0 0 100 0 0 0 0 1 0 None None (-1) (-1) None None None in
  let el := Element.mk 0 100 0 (mkPalette [] []) in
  exists el1 el2,
    tick 0.25 self el = Ok (true, self, el1) /\
    tick 0.5 self el1 = Ok (true, self, el2) /\
    (0 <= Element.y el1 <= 100)%Z /\
    (Z.abs (Element.y el2 - 0) <= Z.abs (Element.y el1 - 0))%Z.
Proof.
  cbv zeta.
  destruct (ease_out_never_overshoots 0.25 0.5
              (mk 0 true 0 0 100 0 0 0 0 1 0 None None (-1) (-1) None None None)
              (Element.mk 0 100 0 (mkPalette [] [])))
    as (el1 & el2 & H1 & H2 & _ & Hy & _ & Hay).
  - reflexivity.
  - reflexivity.
  - cbn. lra.
  - cbn. lra.
  - reflexivity.
  - cbn. lra.
  - cbn. lra.
  - exists el1, el2. split; [exact H1 |]. split; [exact H2 |].
    split; [exact Hy | exact Hay].
Defined.

(** [tick] in phase 2 of the overshoot curve, no sprite cycle armed. *)
Lemma tick_phase2 (_now : R) (self : t) (el : Element.t) :
  cur_sprite_index self = None -> pos_animating self = true ->
  duration self <> 0 -> overshoot_pixels self > 0 ->
  let progress := (_now - OvershootAnimator.start_time self) / duration self in
  0.7 <= progress < 1 ->
  let eased := 1 - (1 - (progress - 0.7) / 0.3) ^ 2 in
  tick _now self el =
    Ok (true, self,
        Element.set_xy el
          (py_int (overshoot_x self + (IZR (target_x self) - overshoot_x self) * eased))
          (py_int (overshoot_y self + (IZR (target_y self) - overshoot_y self) * eased))).
Proof.
  intros Hc Hp Hd Ho progress Hpr eased.
  unfold tick, tick_sprite. rewrite Hc, Hp. cbn [negb rbind].
  unfold tick_position. rewrite py_div_ok by assumption. cbn [rbind].
  fold progress. rewrite Rgeb_false by lra.
  unfold curve. rewrite Rgtb_true by assumption. rewrite Rltb_false by lra.
  reflexivity.
Qed.

(** X10: on the overshoot curve the turn is at [progress = 0.7]: there
    [tick] writes the overshoot point itself, and from then on, from one
    [tick] to a later one before completion, the element never moves away
    from the target. *)
Theorem overshoot_return_phase (t1 t2 : R) (self : t) (el : Element.t) :
  cur_sprite_index self = None -> pos_animating self = true ->
  0 < duration self -> overshoot_pixels self > 0 ->
  let turn := OvershootAnimator.start_time self + 0.7 * duration self in
  turn <= t1 <= t2 ->
  (t2 - OvershootAnimator.start_time self) / duration self < 1 ->
  exists el0 el1 el2,
    tick turn self el = Ok (true, self, el0) /\
    Element.x el0 = py_int (overshoot_x self) /\
    Element.y el0 = py_int (overshoot_y self) /\
    tick t1 self el0 = Ok (true, self, el1) /\
    tick t2 self el1 = Ok (true, self, el2) /\
    (Z.abs (Element.x el2 - target_x self) <= Z.abs (Element.x el1 - target_x self))%Z /\
    (Z.abs (Element.y el2 - target_y self) <= Z.abs (Element.y el1 - target_y self))%Z.
Proof.
  intros Hc Hp Hd Ho turn Ht Hpr.
  set (s := OvershootAnimator.start_time self) in *. set (d := duration self) in *.
  assert (Hturn : (turn - s) / d = 0.7) by (unfold turn; field; lra).
  set (p1 := (t1 - s) / d). set (p2 := (t2 - s) / d) in *.
  assert (Hp1 : 0.7 <= p1).
  { rewrite <- Hturn. unfold p1, Rdiv. apply Rmult_le_compat_r; [| lra].
    left. apply Rinv_0_lt_compat. exact Hd. }
  assert (Hp12 : p1 <= p2).
  { unfold p1, p2, Rdiv. apply Rmult_le_compat_r; [| lra].
    left. apply Rinv_0_lt_compat. exact Hd. }
  assert (Hd' : d <> 0) by lra.
  pose proof (fun e => tick_phase2 turn self e Hc Hp Hd' Ho) as E0.
  pose proof (fun e => tick_phase2 t1 self e Hc Hp Hd' Ho) as E1.
  pose proof (fun e => tick_phase2 t2 self e Hc Hp Hd' Ho) as E2.
  cbv zeta in E0, E1, E2. fold s d in E0, E1, E2.
  rewrite Hturn in E0. fold p1 in E1. fold p2 in E2.
  do 3 eexists.
  split; [apply E0; lra |].
  cbn [Element.set_xy Element.x Element.y].
  split; [f_equal; lra |]. split; [f_equal; lra |].
  split; [apply E1; lra |]. split; [apply E2; lra |].
  cbn [Element.set_xy Element.x Element.y].
  set (u1 := (p1 - 0.7) / 0.3). set (u2 := (p2 - 0.7) / 0.3).
  assert (Hu : 0 <= u1 <= u2 /\ u2 < 1) by (unfold u1, u2; lra).
  assert (He : 0 <= 1 - (1 - u1) ^ 2 <= 1 - (1 - u2) ^ 2 /\ 1 - (1 - u2) ^ 2 <= 1) by nra.
  split; apply lerp_approach; tauto.
Qed.

Lemma overshoot_return_phase_witness :
  let self := mk 0 true 0 0 0 0 100 0 120 1 20 None None (-1) (-1) None None None in
  let el := Element.mk 0 0 0 (mkPalette [] []) in
  exists el0 el1 el2,
    tick (0 + 0.7 * 1) self el = Ok (true, self, el0) /\
    Element.y el0 = py_int 120 /\
    tick 0.8 self el0 = Ok (true, self, el1) /\
    tick 0.9 self el1 = Ok (true, self, el2) /\
    (Z.abs (Element.y el2 - 100) <= Z.abs (Element.y el1 - 100))%Z.
Proof.
  cbv zeta.
  destruct (overshoot_return_phase 0.8 0.9
              (mk 0 true 0 0 0 0 100 0 120 1 20 None None (-1) (-1) None None None)
              (Element.mk 0 0 0 (mkPalette [] [])))
    as (el0 & el1 & el2 & H0 & _ & Hy0 & H1 & H2 & _ & Hay).
  - reflexivity.
  - reflexivity.
  - cbn. lra.
  - cbn. lra.
  - cbn. lra.
  - cbn. lra.
  - exists el0, el1, el2. repeat split; assumption.
Defined.

End Curves.

(** ** The sprite cycle *)

Section SpriteMore.
Import OvershootAnimator.

(** X11: the [False] that [tick] returns when the sprite cycle finishes in
    mid-move does not end the move: [pos_animating] is still set, and a
    later [tick] at [progress >= 1.0] puts the element on the target and
    returns [False]. *)
Theorem sprite_finish_leaves_move_armed (_now later d : R) (c to : Z)
    (self : t) (el : Element.t) :
  cur_sprite_index self = Some c ->
  sprite_anim_to_index self = Some to ->
  sprite_anim_delay self = Some d ->
  _now >= sprite_anim_start_time self ->
  _now >= last_sprite_frame_time self + d ->
  (c + 1 > to)%Z ->
  pos_animating self = true ->
  duration self <> 0 ->
  (later - OvershootAnimator.start_time self) / duration self >= 1 ->
  exists self1 el1 self2 el2,
    tick _now self el = Ok (false, self1, el1) /\
    is_animating self1 = true /\
    tick later self1 el1 = Ok (false, self2, el2) /\
    Element.x el2 = target_x self /\ Element.y el2 = target_y self /\
    is_animating self2 = false.
Proof.
  intros Hc Hto Hd Hfire Hdue Hgt Hp Hdur Hpr.
  set (self1 := reset_sprite (advance_sprite self _now (c + 1))).
  assert (H1 : tick _now self el = Ok (false, self1, Element.set_tile el c)).
  { unfold tick, tick_sprite. rewrite Hc, Rgeb_true by assumption.
    rewrite (sprite_anim_tick_due _now d c to) by assumption.
    destruct (c + 1 >? to)%Z eqn:E; [reflexivity | lia]. }
  destruct (tick_position_done later false self1 (Element.set_tile el c))
    as (el2 & H2 & Hx & Hy & _); try assumption.
  exists self1, (Element.set_tile el c), (clear_pos_animating self1), el2.
  split; [exact H1 |]. split; [exact Hp |]. split; [| repeat split; assumption].
  unfold tick, tick_sprite.
  change (cur_sprite_index self1) with (@None Z).
  change (pos_animating self1) with (pos_animating self). rewrite Hp.
  cbn [negb rbind]. exact H2.
Qed.

Lemma sprite_finish_leaves_move_armed_witness :
  let self := mk 0 true 0 0 0 0 100 0 120 1 20 None
                (Some 3%Z) 0.2 0 (Some 0%Z) (Some 3%Z) (Some 0.1) in
  let el := Element.mk 0 40 2 (mkPalette [] []) in
  exists self1 el1 self2 el2,
    tick 0.5 self el = Ok (false, self1, el1) /\
    tick 1.5 self1 el1 = Ok (false, self2, el2) /\
    Element.y el2 = 100%Z.
Proof.
  cbv zeta.
  destruct (sprite_finish_leaves_move_armed 0.5 1.5 0.1 3 3
              (mk 0 true 0 0 0 0 100 0 120 1 20 None
                 (Some 3%Z) 0.2 0 (Some 0%Z) (Some 3%Z) (Some 0.1))
              (Element.mk 0 40 2 (mkPalette [] [])))
    as (self1 & el1 & self2 & el2 & H1 & _ & H2 & _ & Hy & _).
  - reflexivity.
  - reflexivity.
  - reflexivity.
  - cbn. lra.
  - cbn. lra.
  - lia.
  - reflexivity.
  - cbn. lra.
  - cbn. lra.
  - exists self1, el1, self2, el2. repeat split; assumption.
Defined.

(** X12: a sprite cycle armed without a frame delay makes [tick] raise
    [TypeError] as soon as the fire time is reached, and one armed without
    a last index makes it raise [TypeError] at the first frame that is due. *)
Theorem tick_sprite_missing_parameter (_now : R) (c : Z) (self : t) (el : Element.t) :
  cur_sprite_index self = Some c ->
  _now >= sprite_anim_start_time self ->
  (sprite_anim_delay self = None -> tick _now self el = Raise TypeError) /\
  (forall d, sprite_anim_delay self = Some d ->
             sprite_anim_to_index self = None ->
             _now >= last_sprite_frame_time self + d ->
             tick _now self el = Raise TypeError).
Proof.
  intros Hc Hfire. split.
  - intros Hd. unfold tick, tick_sprite. rewrite Hc, Rgeb_true by assumption.
    unfold sprite_anim_tick. rewrite Hd. reflexivity.
  - intros d Hd Hto Hdue. unfold tick, tick_sprite. rewrite Hc, Rgeb_true by assumption.
    unfold sprite_anim_tick. rewrite Hd. cbn [not_None rbind].
    rewrite Rgeb_true by assumption. rewrite Hc.
    cbn [not_None rbind advance_sprite sprite_anim_to_index]. rewrite Hto. reflexivity.
Qed.

Lemma tick_sprite_missing_parameter_witness :
  let el := Element.mk 0 0 0 (mkPalette [] []) in
  let armed := snd (animate_to 0 (init 0) el 0 0 1 0 (Some 0) (Some 0.5)
                      (Some 0%Z) None None) in
  tick 0 armed el = Raise TypeError.
Proof.
  cbv zeta.
  set (armed := snd (animate_to 0 (init 0) (Element.mk 0 0 0 (mkPalette [] [])) 0 0 1 0
                       (Some 0) (Some 0.5) (Some 0%Z) None None)).
  assert (Ha : armed = mk 0 false 0 0 0 0 0 0 0 1 0 None
                         (Some 0%Z) (-1) (0 + 0) (Some 0%Z) None (Some 0.5)).
  { unfold armed, animate_to.
    cbn [start_x start_y record_start arm_sprite store_target Element.x Element.y].
    rewrite zero_distance. reflexivity. }
  destruct (tick_sprite_missing_parameter 0 0 armed (Element.mk 0 0 0 (mkPalette [] [])))
    as [_ H].
  - rewrite Ha. reflexivity.
  - rewrite Ha. cbn. lra.
  - apply (H 0.5).
    + rewrite Ha. reflexivity.
    + rewrite Ha. reflexivity.
    + rewrite Ha. cbn. lra.
Defined.

(** X13: a sprite cycle armed on the range [c .. to], sub-ticked once per
    frame at times that respect the frame delay, shows the tiles
    [c, c + 1, ..., to] in this order, reports [True] for every frame but
    the last and [False] for the last, and ends with the sprite attributes
    idle. *)
Theorem sprite_cycle_shows_range (times : list R) (l s d : R) (c to : Z)
    (f : option Z) (self : t) (el : Element.t) :
  sprite_fields self = (Some c, l, s, f, Some to, Some d) ->
  (c <= to)%Z -> spaced d l times -> length times = Z.to_nat (to - c + 1) ->
  exists obs self' el',
    sprite_anim_tick_seq times self el = Ok (obs, self', el') /\
    map snd obs = seqZ c (to - c + 1) /\
    map fst obs = replicate (Z.to_nat (to - c)) true ++ [false] /\
    sprite_fields self' = (None, -1, -1, None, None, None) /\
    Element.tile el' = to.
Proof.
  revert l c self el. induction times as [|t times IH]; intros l c self el Hf Hle Hsp Hlen.
  - cbn [length] in Hlen. lia.
  - destruct Hsp as [Hdue Hsp]. cbn [length] in Hlen.
    destruct (Z.eq_dec c to) as [->|Hne].
    + assert (times = []) as -> by (destruct times; [reflexivity | cbn in Hlen; lia]).
      destruct (sprite_anim_tick_last t l s d to to f self el Hf Hdue) as [E F]; [lia |].
      eexists _, _, _. cbn [sprite_anim_tick_seq]. rewrite E. cbn [rbind].
      split; [reflexivity |]. cbn [map fst snd Element.set_tile Element.tile].
      replace (to - to + 1)%Z with 1%Z by lia. replace (to - to)%Z with 0%Z by lia.
      rewrite seqZ_cons, seqZ_nil by lia.
      split; [reflexivity |]. split; [reflexivity |]. split; [exact F | reflexivity].
    + destruct (sprite_anim_tick_step t l s d c to f self el Hf Hdue) as [E F]; [lia |].
      destruct (IH t (c + 1)%Z _ (Element.set_tile el c) F) as (obs & self' & el' & Es & Hs & Hr & Hi & Ht);
        [lia | exact Hsp | lia |].
      exists ((true, c) :: obs), self', el'. cbn [sprite_anim_tick_seq].
      rewrite E. cbn [rbind]. rewrite Es. cbn [rbind].
      split; [reflexivity |]. cbn [map fst snd]. rewrite Hs, Hr.
      split; [| split; [| split; assumption]].
      * rewrite (seqZ_cons c) by lia. f_equal. f_equal; lia.
      * replace (Z.to_nat (to - c)) with (S (Z.to_nat (to - (c + 1)))) by lia.
        reflexivity.
Qed.

Lemma sprite_cycle_shows_range_witness :
  let self := mk 0 false 0 0 0 0 0 0 0 1 0 None
                (Some 16%Z) (-1) 0 (Some 16%Z) (Some 18%Z) (Some 0.25) in
  let el := Element.mk 0 0 9 (mkPalette [] []) in
  exists obs self' el',
    sprite_anim_tick_seq [0; 0.25; 0.5] self el = Ok (obs, self', el') /\
    map snd obs = [16; 17; 18]%Z.
Proof.
  cbv zeta.
  destruct (sprite_cycle_shows_range [0; 0.25; 0.5] (-1) 0 0.25 16 18 (Some 16%Z)
              (mk 0 false 0 0 0 0 0 0 0 1 0 None
                 (Some 16%Z) (-1) 0 (Some 16%Z) (Some 18%Z) (Some 0.25))
              (Element.mk 0 0 9 (mkPalette [] [])))
    as (obs & self' & el' & H & Hs & _).
  - reflexivity.
  - lia.
  - cbn. repeat split; lra.
  - reflexivity.
  - exists obs, self', el'. split; [exact H |]. rewrite Hs. reflexivity.
Defined.

End SpriteMore.

(** ** [make_alternate_platte] *)

Section AlternatePalette.

Lemma Z_land_le_l (a b : Z) : (0 <= a)%Z -> (Z.land a b <= a)%Z.
Proof.
  intros Ha.
  assert (Hd : Z.land (Z.ldiff a b) (Z.land a b) = 0%Z).
  { apply Z.bits_inj'. intros n Hn.
    rewrite !Z.land_spec, Z.ldiff_spec, Z.bits_0.
    destruct (Z.testbit a n), (Z.testbit b n); reflexivity. }
  pose proof (Z.add_lor_land (Z.ldiff a b) (Z.land a b)) as H.
  rewrite Z.lor_ldiff_and, Hd in H.
  assert (0 <= Z.ldiff a b)%Z by (apply Z.ldiff_nonneg; left; exact Ha).
  lia.
Qed.

(** X14: the alternate palette has as many colours as the input; each colour
    is the input colour masked with [target_color], so it has no bit that
    the input colour or the mask lacks and, for colours and masks that are
    not negative, it exceeds neither; only index 0 is transparent, whatever
    was transparent in the input. *)
Theorem make_alternate_platte_entries (input_palette : Palette) (target_color : Z) :
  colors input_palette <> [] ->
  let new_palette := make_alternate_platte input_palette target_color in
  length (colors new_palette) = length (colors input_palette) /\
  transparent new_palette = [0%nat] /\
  forall i c,
    colors input_palette !! i = Some c ->
    colors new_palette !! i = Some (Z.land c target_color) /\
    (forall n, Z.testbit (Z.land c target_color) n = true ->
               Z.testbit c n = true /\ Z.testbit target_color n = true) /\
    ((0 <= c)%Z -> (0 <= target_color)%Z ->
     (0 <= Z.land c target_color <= c)%Z /\ (Z.land c target_color <= target_color)%Z).
Proof.
  intros _. cbv zeta. unfold make_alternate_platte. cbn [colors transparent].
  split; [apply length_map |]. split; [reflexivity |].
  intros i c Hi. split; [| split].
  - change (map (fun c0 => Z.land c0 target_color) (colors input_palette))
      with ((fun c0 => Z.land c0 target_color) <$> colors input_palette).
    rewrite list_lookup_fmap, Hi. reflexivity.
  - intros n Hn. rewrite Z.land_spec in Hn. apply andb_prop in Hn. exact Hn.
  - intros Hc Ht. split; [split |].
    + apply Z.land_nonneg. left. exact Hc.
    + apply Z_land_le_l. exact Hc.
    + rewrite Z.land_comm. apply Z_land_le_l. exact Ht.
Qed.

Lemma make_alternate_platte_entries_witness :
  colors (make_alternate_platte (mkPalette [0; 16777215; 8421504]%Z []) 16711680)
    !! 2%nat = Some (Z.land 8421504 16711680).
Proof.
  destruct (make_alternate_platte_entries (mkPalette [0; 16777215; 8421504]%Z []) 16711680)
    as (_ & _ & H).
  - discriminate.
  - destruct (H 2%nat 8421504%Z) as [E _]; [reflexivity | exact E].
Defined.

(** X15: masking a palette twice is masking it once with the conjunction of
    the two masks; in particular a mask applied a second time changes
    nothing. *)
Theorem make_alternate_platte_twice (input_palette : Palette) (c1 c2 : Z) :
  colors input_palette <> [] ->
  make_alternate_platte (make_alternate_platte input_palette c1) c2
    = make_alternate_platte input_palette (Z.land c1 c2) /\
  make_alternate_platte (make_alternate_platte input_palette c1) c1
    = make_alternate_platte input_palette c1.
Proof.
  intros _. unfold make_alternate_platte. cbn [colors]. rewrite !map_map.
  split; f_equal; apply map_ext; intros c.
  - rewrite Z.land_assoc. reflexivity.
  - rewrite <- Z.land_assoc, Z.land_diag. reflexivity.
Qed.

Lemma make_alternate_platte_twice_witness :
  make_alternate_platte (make_alternate_platte plain 16711680) 65280
    = make_alternate_platte plain 0.
Proof.
  destruct (make_alternate_platte_twice plain 16711680 65280) as [H _].
  - discriminate.
  - exact H.
Defined.

End AlternatePalette.

(** ** The pass and the loop *)

Section Loop.
Variable ticks_ms : nat -> Z.

Lemma set_started_same (s : Step.t) : Step.set_started s (Step.started s) = s.
Proof. destruct s. reflexivity. Qed.

(** What one iteration of the [for] loop does to the list of steps. *)
Lemma dispatch_steps (now : R) (i : nat) (s : Step.t) (sg sg' : bool) (w w' : World) :
  dispatch ticks_ms now i s sg w = Ok (sg', w') ->
  steps w' =
    if elapsed now (start_time w) s && negb (Step.started s)
    then alter (fun s => Step.set_started s true) i (steps w)
    else steps w.
Proof.
  unfold dispatch. fold (elapsed now (start_time w) s).
  destruct (elapsed now (start_time w) s); cbn [andb].
  - unfold bind. intros H.
    assert (Hfire : exists w1,
               (if negb (Step.started s) then fire ticks_ms i s else ret ()) w = Ok (tt, w1) /\
               steps w1 = if negb (Step.started s)
                          then alter (fun s => Step.set_started s true) i (steps w)
                          else steps w).
    { destruct (negb (Step.started s)).
      - destruct (fire ticks_ms i s w) as [[[] w1]|ex] eqn:E; [| discriminate H].
        destruct (fire_effect _ _ _ _ _ E) as (evs1 & _ & _ & _ & _ & Hs).
        exists w1. split; [reflexivity | exact Hs].
      - exists w. split; reflexivity. }
    destruct Hfire as (w1 & E & Hs1). rewrite E in H. rewrite <- Hs1.
    destruct (Step.animator s) as [a|].
    + destruct (call_tick ticks_ms a w1) as [[r w2]|ex] eqn:Et; [| discriminate H].
      unfold ret in H. injection H as _ <-.
      destruct (call_tick_effect _ _ _ _ _ Et) as (_ & Hs2 & _). exact Hs2.
    + unfold ret in H. injection H as _ <-. reflexivity.
  - unfold ret. intros H. injection H as _ <-. reflexivity.
Qed.

(** What the [for] loop does to the list of steps. *)
Lemma for_steps_started (now : R) (todo : list Step.t) (i : nat) (sg sg' : bool)
    (w w' : World) :
  for_steps ticks_ms now i todo sg w = Ok (sg', w') ->
  (forall k, todo !! k = steps w !! (i + k)%nat) ->
  forall k,
    steps w' !! k =
      if decide (i <= k)%nat
      then mark_started now (start_time w) <$> steps w !! k
      else steps w !! k.
Proof.
  revert i sg w. induction todo as [|s todo IH]; intros i sg w H Hsnap k.
  - unfold for_steps, ret in H. injection H as _ <-.
    destruct (decide (i <= k)%nat) as [Hik|]; [| reflexivity].
    specialize (Hsnap (k - i)%nat). replace (i + (k - i))%nat with k in Hsnap by lia.
    rewrite <- Hsnap. reflexivity.
  - cbn [for_steps] in H. unfold bind in H.
    destruct (dispatch ticks_ms now i s sg w) as [[sg1 w1]|ex] eqn:E; [| discriminate H].
    pose proof (dispatch_steps _ _ _ _ _ _ _ E) as Hs1.
    destruct (dispatch_effect _ _ _ _ _ _ _ _ E) as (_ & _ & Hst1 & _).
    assert (Hi : steps w !! i = Some s).
    { specialize (Hsnap 0%nat). rewrite Nat.add_0_r in Hsnap. symmetry. exact Hsnap. }
    assert (Hother : forall j, j <> i -> steps w1 !! j = steps w !! j).
    { intros j Hj. rewrite Hs1.
      destruct (elapsed now (start_time w) s && negb (Step.started s)); [| reflexivity].
      apply list_lookup_alter_ne. congruence. }
    rewrite (IH (S i) sg1 w1 H).
    + rewrite Hst1.
      destruct (decide (S i <= k)%nat) as [Hk|Hk].
      * rewrite Hother by lia. destruct (decide (i <= k)%nat); [reflexivity | lia].
      * destruct (decide (i <= k)%nat) as [Hik|Hik]; [| apply Hother; lia].
        assert (k = i) as -> by lia. rewrite Hs1, Hi. cbn [fmap option_fmap option_map].
        unfold mark_started.
        destruct (elapsed now (start_time w) s); cbn [andb].
        -- destruct (Step.started s) eqn:Hstd; cbn [negb orb].
           ++ rewrite Hi, <- Hstd, set_started_same. reflexivity.
           ++ rewrite list_lookup_alter_eq, Hi. reflexivity.
        -- rewrite Hi, orb_false_r, set_started_same. reflexivity.
    + intros j. rewrite Hother by lia. specialize (Hsnap (S j)).
      replace (i + S j)%nat with (S i + j)%nat in Hsnap by lia. exact Hsnap.
Qed.

Lemma armed_marked (now epoch : R) (l : list Step.t) :
  armed now epoch (mark_started now epoch <$> l) = [].
Proof.
  induction l as [|s l IH]; [reflexivity |].
  cbn [fmap list_fmap]. rewrite armed_cons. fold (fmap (mark_started now epoch) l).
  rewrite IH, app_nil_r. unfold armed. cbn [omap list_omap].
  unfold mark_started at 1 2. unfold elapsed at 1.
  cbn [Step.set_started Step.start_time Step.started].
  fold (elapsed now epoch s).
  destruct (elapsed now epoch s); [| reflexivity].
  rewrite orb_true_r. reflexivity.
Qed.

(** What a pass does to the timeline. *)
Lemma steps_pass_steps (w w' : World) (sg : bool) :
  steps_pass ticks_ms w = Ok (sg, w') ->
  start_time w' = start_time w /\
  steps w' = mark_started (IZR (ticks_ms (clock_reads w)) / 1000) (start_time w) <$> steps w.
Proof.
  intros H. unfold steps_pass, bind, read_clock in H.
  match type of H with
  | context [for_steps _ ?n 0 ?l true ?w0] =>
      destruct (for_steps ticks_ms n 0 l true w0) as [[sg1 w1]|ex] eqn:E;
        [| discriminate H]
  end.
  cbn in H. unfold ret in H. injection H as _ <-. cbn [steps start_time].
  destruct (for_steps_effect _ _ _ _ _ _ _ _ E) as (_ & _ & Hst & _); [reflexivity |].
  pose proof (for_steps_started _ _ _ _ _ _ _ E) as Hs. cbn in Hst, Hs.
  split; [exact Hst |].
  apply list_eq. intros k. rewrite Hs by (intros j; reflexivity).
  destruct (decide (0 <= k)%nat); [| lia]. rewrite list_lookup_fmap. reflexivity.
Qed.

(** X16: a pass changes nothing of the timeline but the [started] entries:
    it sets [started] on exactly the steps whose start offset has elapsed
    and keeps the epoch, so none of them fires again on a later pass of the
    same loop: [animate_to] is called for no step already marked. *)
Theorem pass_marks_started (w w' : World) (sg : bool) :
  steps_pass ticks_ms w = Ok (sg, w') ->
  let now := IZR (ticks_ms (clock_reads w)) / 1000 in
  let epoch := start_time w in
  start_time w' = epoch /\
  steps w' = mark_started now epoch <$> steps w /\
  armed now epoch (steps w') = [].
Proof.
  intros H now epoch. destruct (steps_pass_steps _ _ _ H) as [Hst Hsteps].
  split; [exact Hst |]. split; [exact Hsteps |].
  rewrite Hsteps. apply armed_marked.
Qed.

(** X17: an iteration of the main loop never changes the timeline apart
    from the [started] entries: while the show runs it keeps the epoch and
    marks the elapsed steps, and when the show ends it leaves every step
    un-started. *)
Theorem loop_keeps_timeline (w w' : World) (sg : bool) :
  loop_body ticks_ms w = Ok (sg, w') ->
  let now := IZR (ticks_ms (clock_reads w)) / 1000 in
  (fun s => Step.set_started s false) <$> steps w'
    = (fun s => Step.set_started s false) <$> steps w /\
  (sg = true ->
   start_time w' = start_time w /\
   steps w' = mark_started now (start_time w) <$> steps w) /\
  (sg = false -> steps w' = (fun s => Step.set_started s false) <$> steps w).
Proof.
  intros H now. unfold loop_body, bind in H.
  destruct (steps_pass ticks_ms w) as [[sg1 w1]|ex] eqn:Hpass; [| discriminate H].
  destruct (steps_pass_steps _ _ _ Hpass) as (Hst & Hsteps).
  fold now in Hsteps.
  assert (Hclear : (fun s => Step.set_started s false) <$> steps w1
                   = (fun s => Step.set_started s false) <$> steps w).
  { rewrite Hsteps, <- list_fmap_compose. apply list_fmap_ext. intros i s _. reflexivity. }
  destruct sg1; cbn [negb] in H.
  - unfold ret in H. injection H as <- <-.
    split; [exact Hclear |]. split; [intros _; split; assumption | discriminate].
  - destruct (restart ticks_ms w1) as [[[] w2]|ex] eqn:Hr; [| discriminate H].
    unfold ret in H. injection H as <- <-.
    destruct (restart_effect _ _ _ Hr) as (_ & _ & _ & _ & _ & _ & Hs2 & _).
    rewrite Hs2. split; [| split; [discriminate |]].
    + rewrite <- list_fmap_compose, <- Hclear. apply list_fmap_ext. intros i s _. reflexivity.
    + intros _. exact Hclear.
Qed.

(** X18: with an empty list of steps a pass has nothing to decide
    [still_going] from: every iteration of the loop reads the clock,
    refreshes, reports [True] and raises nothing, so the show never
    restarts. *)
Theorem empty_timeline_never_restarts (n : nat) (w : World) :
  steps w = [] ->
  exists w',
    run_loop ticks_ms n w = Ok (replicate n true, w') /\
    steps w' = [] /\ start_time w' = start_time w /\
    clock_reads w' = (clock_reads w + n)%nat.
Proof.
  revert w. induction n as [|n IH]; intros w Hs.
  - exists w. cbn. rewrite Nat.add_0_r.
    split; [reflexivity |]. split; [exact Hs |]. split; reflexivity.
  - cbn [run_loop]. unfold bind at 1.
    assert (Hbody : exists w1, loop_body ticks_ms w = Ok (true, w1) /\ steps w1 = [] /\
                               start_time w1 = start_time w /\
                               clock_reads w1 = S (clock_reads w)).
    { unfold loop_body, steps_pass, bind, read_clock. cbn [steps]. rewrite Hs.
      cbn. eexists. split; [reflexivity |]. cbn. repeat split; reflexivity. }
    destruct Hbody as (w1 & -> & Hs1 & Hst1 & Hc1).
    destruct (IH w1 Hs1) as (w' & Hrun & Hs' & Hst' & Hc').
    exists w'. unfold bind. rewrite Hrun. unfold ret. cbn [replicate].
    split; [reflexivity |]. split; [exact Hs' |]. split; [congruence | lia].
Qed.

Lemma reset_steps_raises_KeyError (l : list Step.t) (j : nat) (w : World) (ex : exn) :
  reset_steps j l w = Raise ex -> ex = KeyError.
Proof.
  revert j w. induction l as [|s l IH]; intros j w; [discriminate |].
  cbn [reset_steps]. unfold bind.
  destruct (reset_step j s w) as [[[] w1]|ex1] eqn:E.
  - apply IH.
  - intros H. injection H as <-. unfold reset_step, bind, get_tilegrid in E.
    destruct (String.eqb (Step.type s) "animation_step").
    + destruct (Step.tilegrid s).
      * destruct (Step.palettes s !! "default_palette"); discriminate E.
      * cbn in E. injection E as <-. reflexivity.
    + discriminate E.
Qed.

(** X19: the restart block writes to [coordinator["steps"][0]["tilegrid"]]:
    when a pass ends the show and the first step has no tilegrid (a
    [change_palette] step, say), the loop raises [KeyError]. *)
Theorem restart_needs_first_tilegrid (w w1 : World) (s0 : Step.t) :
  steps_pass ticks_ms w = Ok (false, w1) ->
  steps w1 !! 0%nat = Some s0 -> Step.tilegrid s0 = None ->
  loop_body ticks_ms w = Raise KeyError.
Proof.
  intros Hpass Hs0 Ht. unfold loop_body, bind. rewrite Hpass. cbn [negb].
  unfold restart, bind.
  destruct (reset_steps 0 (steps w1) w1) as [[[] w2]|ex] eqn:E.
  - destruct (reset_steps_effect _ _ _ _ E) as (_ & _ & _ & _ & Hsteps & _).
    rewrite Hsteps, Hs0.
    destruct (decide (0 <= 0 < 0 + length (steps w1))%nat) as [|Hn].
    + cbn [fmap option_fmap option_map]. unfold get_tilegrid.
      cbn [Step.set_started Step.tilegrid]. rewrite Ht. reflexivity.
    + apply lookup_lt_Some in Hs0. lia.
  - apply reset_steps_raises_KeyError in E. rewrite E. reflexivity.
Qed.

End Loop.

Lemma pass_marks_started_witness :
  exists w1,
    steps_pass five_seconds show_end = Ok (false, w1) /\
    steps w1 = mark_started (5000 / 1000) 0 <$> steps show_end.
Proof.
  destruct show_end_pass as (w1 & Hpass & _).
  destruct (pass_marks_started five_seconds show_end w1 false Hpass) as (_ & Hs & _).
  exists w1. split; [exact Hpass | exact Hs].
Defined.

(** The whole iteration over [show_end] at 5 seconds: the show ends and
    the restart block runs. *)
Lemma show_end_loop : exists w', loop_body five_seconds show_end = Ok (false, w').
Proof.
  destruct show_end_pass as (w1 & Hpass & Hsteps & _).
  destruct (restart_ok five_seconds w1) as [w' Hr].
  { rewrite Hsteps. split.
    - eexists. split; [reflexivity |]. eexists. reflexivity.
    - intros s Hin Hty.
      repeat (apply elem_of_cons in Hin as [->|Hin]).
      + eexists. reflexivity.
      + discriminate Hty.
      + inversion Hin. }
  exists w'. unfold loop_body, bind. rewrite Hpass. cbn [negb]. rewrite Hr. reflexivity.
Qed.

Lemma loop_keeps_timeline_witness :
  exists w',
    loop_body five_seconds show_end = Ok (false, w') /\
    steps w' = (fun s => Step.set_started s false) <$> steps show_end.
Proof.
  destruct show_end_loop as (w' & Hw').
  destruct (loop_keeps_timeline five_seconds show_end w' false Hw') as (_ & _ & Hs).
  exists w'. split; [exact Hw' | apply Hs; reflexivity].
Defined.

Lemma empty_timeline_never_restarts_witness :
  exists w',
    run_loop five_seconds 3
      {| elements := fun _ => Element.mk 0 0 0 plain;
         animators := fun e => OvershootAnimator.init e;
         steps := []; start_time := 0; clock_reads := 0; trace := [] |}
    = Ok ([true; true; true], w').
Proof.
  destruct (empty_timeline_never_restarts five_seconds 3
              {| elements := fun _ => Element.mk 0 0 0 plain;
                 animators := fun e => OvershootAnimator.init e;
                 steps := []; start_time := 0; clock_reads := 0; trace := [] |}
              eq_refl) as (w' & H & _).
  exists w'. exact H.
Defined.

(** The pass over [swap_only] at 5 seconds: the swap fires and ends the show. *)
Lemma swap_only_pass :
  exists w1,
    steps_pass five_seconds swap_only = Ok (false, w1) /\
    steps w1 = [Step.set_started (swap_step "red_palette") true].
Proof.
  eexists. unfold steps_pass, bind, read_clock.
  cbn [swap_only steps for_steps start_time clock_reads].
  unfold bind, dispatch, five_seconds.
  cbn [swap_only start_time Step.start_time swap_step].
  rewrite Rgeb_true by lra.
  split; reflexivity.
Qed.

Lemma restart_needs_first_tilegrid_witness :
  loop_body five_seconds swap_only = Raise KeyError.
Proof.
  destruct swap_only_pass as (w1 & Hpass & Hs).
  apply (restart_needs_first_tilegrid five_seconds swap_only w1
           (Step.set_started (swap_step "red_palette") true) Hpass).
  - rewrite Hs. reflexivity.
  - reflexivity.
Defined.

(** ** The loop on a safe timeline *)

Section SafeAnimator.
Import OvershootAnimator.
Variable ticks_ms : nat -> Z.

Lemma anim_safe_later (reads reads' : nat) (an : t) :
  anim_safe ticks_ms reads an -> (reads <= reads')%nat -> anim_safe ticks_ms reads' an.
Proof.
  intros (Hs & He & H) Hle. split; [exact Hs |]. split; [exact He |].
  destruct H as [H|[Hd Hst]]; [left; exact H | right].
  split; [exact Hd |]. intros m Hm. apply Hst. lia.
Qed.

(** [sprite_anim_tick] keeps the sprite attributes usable. *)
Lemma sprite_anim_tick_sprite_ok (cur_time : R) (self self' : t)
    (el el' : Element.t) (r : bool) :
  sprite_anim_tick cur_time self el = Ok (r, self', el') ->
  sprite_ok self -> sprite_ok self'.
Proof.
  unfold sprite_anim_tick. intros H Hok.
  destruct (sprite_anim_delay self) as [d|] eqn:Hd; [| discriminate H].
  cbn [not_None rbind] in H.
  destruct (Rgeb cur_time (last_sprite_frame_time self + d)).
  - destruct (cur_sprite_index self) as [c|] eqn:Hc; [| discriminate H].
    cbn [not_None rbind advance_sprite sprite_anim_to_index] in H.
    destruct (sprite_anim_to_index self) as [to|] eqn:Hto; [| discriminate H].
    cbn [not_None rbind] in H.
    destruct (c + 1 >? to)%Z; injection H as _ <- _.
    + left. reflexivity.
    + right. cbn. rewrite Hd, Hto. split; eexists; reflexivity.
  - injection H as _ <- _. exact Hok.
Qed.

(** [tick] keeps the sprite attributes usable. *)
Lemma tick_sprite_ok (_now : R) (self self' : t) (el el' : Element.t) (r : bool) :
  tick _now self el = Ok (r, self', el') -> sprite_ok self -> sprite_ok self'.
Proof.
  unfold tick, tick_sprite. intros H Hok.
  assert (Hpos : forall b s0 e0 r0 s1 e1,
             tick_position _now b s0 e0 = Ok (r0, s1, e1) -> sprite_ok s0 -> sprite_ok s1).
  { intros b s0 e0 r0 s1 e1 Hp Hs0.
    destruct (tick_position_frame _ _ _ _ _ _ _ Hp) as (Hsf & _).
    unfold sprite_fields in Hsf. injection Hsf as Hc _ _ _ Hto Hd.
    unfold sprite_ok in *. rewrite Hc, Hto, Hd. exact Hs0. }
  destruct (cur_sprite_index self) as [c|] eqn:Hc.
  - destruct (Rgeb _now (sprite_anim_start_time self)).
    + destruct (sprite_anim_tick _now self el) as [[[r1 self1] el1]|ex] eqn:E;
        [| discriminate H].
      cbn [rbind] in H. pose proof (sprite_anim_tick_sprite_ok _ _ _ _ _ _ E Hok) as Hok1.
      destruct r1; cbn [negb rbind] in H.
      * eapply Hpos; eassumption.
      * injection H as _ <- _. exact Hok1.
    + cbn [rbind] in H. eapply Hpos; eassumption.
  - destruct (negb (pos_animating self)); cbn [rbind] in H.
    + injection H as _ <- _. exact Hok.
    + eapply Hpos; eassumption.
Qed.

(** [tick] on a safe animator, at a reading of the clock it is safe for. *)
Lemma tick_safe (reads m : nat) (self : t) (el : Element.t) :
  anim_safe ticks_ms reads self -> (reads <= m)%nat ->
  exists r self' el',
    tick (IZR (ticks_ms m) / 1000) self el = Ok (r, self', el') /\
    anim_safe ticks_ms reads self'.
Proof.
  intros (Hs & He & H) Hm.
  destruct H as [[Hc Hp]|[Hd Hst]].
  - exists false, self, el. split.
    + unfold tick, tick_sprite. rewrite Hc, Hp. reflexivity.
    + split; [exact Hs |]. split; [exact He |]. left. split; assumption.
  - destruct (tick_ok (IZR (ticks_ms m) / 1000) self el) as (r & self' & el' & Ht).
    { split; [exact Hd |]. split; [apply Hst; exact Hm | exact He]. }
    { exact Hs. }
    exists r, self', el'. split; [exact Ht |].
    assert (Hm' : motion_fields self' = motion_fields self).
    { unfold tick in Ht.
      destruct (tick_sprite _ self el) as [f|ex] eqn:E; [| discriminate Ht].
      pose proof (tick_sprite_frame _ _ _ _ E) as Hfr. cbn [rbind] in Ht.
      destruct f as [self1 el1|b self1 el1].
      - injection Ht as _ <- _. tauto.
      - destruct Hfr as (Hm1 & _).
        destruct (tick_position_frame _ _ _ _ _ _ _ Ht) as (_ & Hm2 & _).
        rewrite Hm2. exact Hm1. }
    unfold motion_fields in Hm'. injection Hm' as Hst' _ _ _ _ _ _ Hd' _ He'.
    split; [eapply tick_sprite_ok; eassumption |].
    split; [rewrite He'; exact He |]. right.
    rewrite Hd', Hst'. split; assumption.
Qed.

(** [animate_to] with a positive duration leaves a safe animator. *)
Lemma animate_to_safe (reads m : nat) (self : t) (el : Element.t) (tx ty : Z)
    (dur op : R) (ssa sd : option R) (sfi sti : option Z) (ev : option R) :
  monotone_clock ticks_ms ->
  anim_safe ticks_ms reads self ->
  0 < dur -> ev <> Some 0 ->
  (is_Some ssa -> is_Some sd /\ is_Some sti) ->
  anim_safe ticks_ms m
    (snd (animate_to (IZR (ticks_ms m) / 1000) self el tx ty dur op ssa sd sfi sti ev)).
Proof.
  intros Hmono (Hs & He & _) Hd Hev Hsp.
  assert (Hclock : forall n, (m <= n)%nat ->
                             IZR (ticks_ms m) / 1000 <= IZR (ticks_ms n) / 1000).
  { intros n Hn. apply Hmono, IZR_le in Hn. lra. }
  unfold animate_to.
  destruct ssa as [at_|];
    cbn [start_x start_y record_start arm_sprite store_target];
    destruct (Rleb _ 0); cbn [snd].
  - destruct Hsp as [[d ->] [to ->]]; [eexists; reflexivity |].
    split; [right; split; eexists; reflexivity |]. split; [exact He |].
    right. split; [exact Hd | exact Hclock].
  - destruct Hsp as [[d ->] [to ->]]; [eexists; reflexivity |].
    split; [right; split; eexists; reflexivity |]. split; [exact Hev |].
    right. split; [exact Hd | exact Hclock].
  - split; [exact Hs |]. split; [exact He |].
    right. split; [exact Hd | exact Hclock].
  - split; [exact Hs |]. split; [exact Hev |].
    right. split; [exact Hd | exact Hclock].
Qed.

End SafeAnimator.

Section SafeLoop.
Variable ticks_ms : nat -> Z.
Hypothesis Hmono : monotone_clock ticks_ms.

Lemma safe_step_set_started (s : Step.t) (b : bool) :
  safe_step s -> safe_step (Step.set_started s b).
Proof. intros H. exact H. Qed.

Lemma safe_timeline_alter (l : list Step.t) (i : nat) (b : bool) :
  safe_timeline l -> safe_timeline (alter (fun s => Step.set_started s b) i l).
Proof.
  intros [(s0 & Hs0 & Ht) Hall]. split.
  - destruct (decide (i = 0%nat)) as [->|Hne].
    + exists (Step.set_started s0 b). rewrite list_lookup_alter_eq, Hs0.
      split; [reflexivity | exact Ht].
    + exists s0. rewrite list_lookup_alter_ne by exact Hne. split; assumption.
  - apply Forall_alter; [exact Hall |]. intros s _ Hs. exact Hs.
Qed.

Lemma safe_timeline_fmap (l : list Step.t) (b : bool) :
  safe_timeline l -> safe_timeline ((fun s => Step.set_started s b) <$> l).
Proof.
  intros [(s0 & Hs0 & Ht) Hall]. split.
  - exists (Step.set_started s0 b). rewrite list_lookup_fmap, Hs0.
    split; [reflexivity | exact Ht].
  - apply Forall_fmap. eapply Forall_impl; [exact Hall |]. intros s Hs. exact Hs.
Qed.

Lemma call_tick_safe (a : nat) (w : World) :
  safe_world ticks_ms w ->
  exists r w',
    call_tick ticks_ms a w = Ok (r, w') /\ safe_world ticks_ms w' /\
    steps w' = steps w /\ start_time w' = start_time w.
Proof.
  intros [Hl Han]. unfold call_tick, bind, read_clock. cbn [animators elements].
  destruct (tick_safe ticks_ms (clock_reads w) (clock_reads w) (animators w a)
              (elements w (OvershootAnimator.element (animators w a))) (Han a))
    as (r & self' & el' & -> & Hsafe); [lia |].
  cbn. eexists _, _. split; [reflexivity |]. cbn.
  split; [| split; reflexivity]. split; [exact Hl |]. cbn.
  intros b. unfold upd. destruct (b =? a)%nat.
  - eapply anim_safe_later; [exact Hsafe | lia].
  - eapply anim_safe_later; [apply Han | lia].
Qed.

Lemma call_animate_to_safe (a : nat) (tx ty : Z) (dur op : R)
    (ssa sd : option R) (sfi sti : option Z) (ev : option R) (w : World) :
  safe_world ticks_ms w ->
  0 < dur -> ev <> Some 0 -> (is_Some ssa -> is_Some sd /\ is_Some sti) ->
  exists r w',
    call_animate_to ticks_ms a tx ty dur op ssa sd sfi sti ev w = Ok (r, w') /\
    safe_world ticks_ms w' /\ steps w' = steps w /\ start_time w' = start_time w.
Proof.
  intros [Hl Han] Hd Hev Hsp. unfold call_animate_to, bind, read_clock.
  cbn [animators elements].
  pose proof (animate_to_safe ticks_ms (clock_reads w) (clock_reads w) (animators w a)
                (elements w (OvershootAnimator.element (animators w a)))
                tx ty dur op ssa sd sfi sti ev Hmono (Han a) Hd Hev Hsp) as Hsafe.
  destruct (OvershootAnimator.animate_to _ _ _ _ _ _ _ _ _ _ _ _) as [r self'].
  cbn [snd] in Hsafe. cbn. eexists _, _. split; [reflexivity |]. cbn.
  split; [| split; reflexivity]. split; [exact Hl |]. cbn.
  intros b. unfold upd. destruct (b =? a)%nat.
  - eapply anim_safe_later; [exact Hsafe | lia].
  - eapply anim_safe_later; [apply Han | lia].
Qed.

Lemma broadcast_safe (name : string) (w : World) :
  safe_world ticks_ms w ->
  exists w',
    change_palette_broadcast name w = Ok (tt, w') /\ safe_world ticks_ms w' /\
    steps w' = steps w /\ start_time w' = start_time w.
Proof.
  intros [Hl Han]. unfold change_palette_broadcast.
  destruct (for_each_swap_ok name (steps w) w) as [w' Hw'].
  { intros s Hin Hreg. destruct Hl as [_ Hall].
    rewrite Forall_forall in Hall. destruct (Hall s Hin) as [_ Hpal]. apply (Hpal name Hreg). }
  exists w'. split; [exact Hw' |].
  destruct (for_each_swap _ _ _ _ Hw') as (_ & Hs & Ha & Hst & Hc & _).
  split; [| split; assumption]. split; [rewrite Hs; exact Hl |].
  intros a. rewrite Ha, Hc. apply Han.
Qed.

Lemma fire_safe (i : nat) (s : Step.t) (w : World) :
  safe_world ticks_ms w -> safe_step s ->
  exists w',
    fire ticks_ms i s w = Ok (tt, w') /\ safe_world ticks_ms w' /\
    start_time w' = start_time w.
Proof.
  intros [Hl Han] [Hanim Hpal]. unfold fire, bind. cbn [set_step_started].
  set (w0 := {| elements := elements w; animators := animators w;
                steps := alter (fun s0 => Step.set_started s0 true) i (steps w);
                start_time := start_time w; clock_reads := clock_reads w;
                trace := trace w |}).
  assert (Hw0 : safe_world ticks_ms w0).
  { split; [apply safe_timeline_alter; exact Hl | exact Han]. }
  destruct (String.eqb (Step.type s) "animation_step") eqn:Hty.
  - apply String.eqb_eq in Hty.
    destruct (Hanim Hty) as (_ & [a Ha] & Hd & Hev & Hsp).
    unfold get_animator. rewrite Ha. unfold ret at 1.
    destruct (Step.sprite_anim_range s) as [[from to]|].
    + destruct (call_animate_to_safe a (fst (Step.onscreen_loc s)) (snd (Step.onscreen_loc s))
                  (Step.move_duration s) (Step.overshoot_pixels s)
                  (Step.sprite_anim_start s) (Step.sprite_delay s)
                  (Some from) (Some to) (Step.eased_value s) w0 Hw0 Hd Hev)
        as (r & w' & -> & Hsafe & _ & Hst).
      { intros Hssa. split; [apply Hsp; [eexists; reflexivity | exact Hssa] |
                             eexists; reflexivity]. }
      exists w'. split; [reflexivity | split; [exact Hsafe | exact Hst]].
    + destruct (call_animate_to_safe a (fst (Step.onscreen_loc s)) (snd (Step.onscreen_loc s))
                  (Step.move_duration s) (Step.overshoot_pixels s)
                  None OvershootAnimator.default_sprite_delay
                  None None (Step.eased_value s) w0 Hw0 Hd Hev)
        as (r & w' & -> & Hsafe & _ & Hst).
      { intros [x Hx]. discriminate Hx. }
      exists w'. split; [reflexivity | split; [exact Hsafe | exact Hst]].
  - destruct (String.eqb (Step.type s) "change_palette").
    + destruct (broadcast_safe (Step.new_palette s) w0 Hw0) as (w' & -> & Hsafe & _ & Hst).
      exists w'. split; [reflexivity | split; [exact Hsafe | exact Hst]].
    + exists w0. split; [reflexivity | split; [exact Hw0 | reflexivity]].
Qed.

Lemma dispatch_safe (now : R) (i : nat) (s : Step.t) (sg : bool) (w : World) :
  safe_world ticks_ms w -> safe_step s ->
  exists sg' w',
    dispatch ticks_ms now i s sg w = Ok (sg', w') /\ safe_world ticks_ms w'.
Proof.
  intros Hw Hs. unfold dispatch.
  destruct (Rgeb (now - start_time w) (Step.start_time s)).
  - unfold bind.
    assert (Hfire : exists w1,
               (if negb (Step.started s) then fire ticks_ms i s else ret ()) w = Ok (tt, w1) /\
               safe_world ticks_ms w1).
    { destruct (negb (Step.started s)).
      - destruct (fire_safe i s w Hw Hs) as (w1 & E & Hw1 & _). exists w1. auto.
      - exists w. split; [reflexivity | exact Hw]. }
    destruct Hfire as (w1 & -> & Hw1).
    destruct (Step.animator s) as [a|].
    + destruct (call_tick_safe a w1 Hw1) as (r & w2 & -> & Hw2 & _).
      unfold ret. eexists _, _. split; [reflexivity | exact Hw2].
    + unfold ret. eexists _, _. split; [reflexivity | exact Hw1].
  - unfold ret. eexists _, _. split; [reflexivity | exact Hw].
Qed.

Lemma for_steps_safe (now : R) (todo : list Step.t) (i : nat) (sg : bool) (w : World) :
  Forall safe_step todo -> safe_world ticks_ms w ->
  exists sg' w',
    for_steps ticks_ms now i todo sg w = Ok (sg', w') /\ safe_world ticks_ms w'.
Proof.
  revert i sg w. induction todo as [|s todo IH]; intros i sg w Hall Hw.
  - eexists _, _. split; [reflexivity | exact Hw].
  - apply Forall_cons in Hall as [Hs Hall]. cbn [for_steps]. unfold bind.
    destruct (dispatch_safe now i s sg w Hw Hs) as (sg1 & w1 & -> & Hw1).
    apply IH; assumption.
Qed.

Lemma steps_pass_safe (w : World) :
  safe_world ticks_ms w ->
  exists sg w', steps_pass ticks_ms w = Ok (sg, w') /\ safe_world ticks_ms w'.
Proof.
  intros [Hl Han]. unfold steps_pass, bind, read_clock.
  match goal with
  | |- context [for_steps _ ?n 0 ?l true ?w0] =>
      destruct (for_steps_safe n l 0 true w0) as (sg & w1 & E & [Hl1 Han1])
  end.
  - cbn. apply Hl.
  - split; [exact Hl |]. cbn. intros a. eapply anim_safe_later; [apply Han | lia].
  - cbn in E. cbn. rewrite E. cbn. eexists _, _. split; [reflexivity |].
    split; [exact Hl1 | exact Han1].
Qed.

Lemma loop_body_safe (w : World) :
  safe_world ticks_ms w ->
  exists sg w', loop_body ticks_ms w = Ok (sg, w') /\ safe_world ticks_ms w'.
Proof.
  intros [Hl Han]. unfold loop_body, bind at 1.
  assert (Hpass : exists sg w1,
             steps_pass ticks_ms w = Ok (sg, w1) /\ safe_world ticks_ms w1).
  { unfold steps_pass, bind, read_clock.
    match goal with
    | |- context [for_steps _ ?n 0 ?l true ?w0] =>
        destruct (for_steps_safe n l 0 true w0) as (sg & w1 & E & [Hl1 Han1])
    end.
    - cbn. apply Hl.
    - split; [exact Hl |]. cbn. intros a. eapply anim_safe_later; [apply Han | lia].
    - cbn in E. cbn. rewrite E. cbn. eexists _, _. split; [reflexivity |].
      split; [exact Hl1 | exact Han1]. }
  destruct Hpass as (sg & w1 & -> & [Hl1 Han1]).
  destruct sg; cbn [negb].
  - unfold bind, ret. eexists _, _. split; [reflexivity |]. split; assumption.
  - destruct (restart_ok ticks_ms w1) as [w2 Hr].
    { destruct Hl1 as [Hfirst Hall]. split; [exact Hfirst |].
      intros s Hin Hty. rewrite Forall_forall in Hall.
      destruct (Hall s Hin) as [Hanim _]. apply (Hanim Hty). }
    unfold bind. rewrite Hr. unfold ret. eexists _, _. split; [reflexivity |].
    destruct (restart_effect _ _ _ Hr) as (_ & _ & _ & _ & _ & Ha & Hs & _ & Hc & _).
    split.
    + rewrite Hs. apply safe_timeline_fmap. exact Hl1.
    + intros a. rewrite Ha, Hc. eapply anim_safe_later; [apply Han1 | lia].
Qed.

Lemma run_loop_safe (n : nat) (w : World) :
  safe_world ticks_ms w ->
  exists results w',
    run_loop ticks_ms n w = Ok (results, w') /\
    length results = n /\ safe_world ticks_ms w'.
Proof.
  revert w. induction n as [|n IH]; intros w Hw.
  - exists [], w. split; [reflexivity |]. split; [reflexivity | exact Hw].
  - cbn [run_loop]. unfold bind at 1.
    destruct (loop_body_safe w Hw) as (sg & w1 & -> & Hw1).
    destruct (IH w1 Hw1) as (results & w' & Hrun & Hlen & Hw').
    unfold bind. rewrite Hrun. unfold ret.
    exists (sg :: results), w'. split; [reflexivity |].
    split; [cbn; lia | exact Hw'].
Qed.

(** X20: on a timeline whose steps are complete (tilegrids and animators
    present, positive durations, no zero eased value, a frame delay where
    sprites cycle, a tilegrid on the first step), with animators that are
    safe to tick and a clock that never goes back, the main loop raises
    nothing, however many iterations it runs, restarts included.  The world
    is within the limit ([world_in_range]): the [change_palette] steps name
    palettes and no other key of a step, and the positions, overshoots and
    eased values are such that every position the loop computes stays
    between positions within [coord_limit]. *)
Theorem safe_timeline_never_raises (n : nat) (w : World) :
  world_in_range w ->
  safe_world ticks_ms w ->
  exists results w',
    run_loop ticks_ms n w = Ok (results, w') /\
    length results = n /\ safe_world ticks_ms w'.
Proof. intros _. apply run_loop_safe. Qed.

End SafeLoop.

(** ** The setup loop *)

Section SetupProps.
Variable is_TileGrid : nat -> bool.


(** One turn of the setup loop. *)
Lemma setup_step_effect (k : nat) (step : Step.t) (e : nat) (w : World) :
  Step.tilegrid step = Some e ->
  exists w1,
    setup_step is_TileGrid k step w = Ok (if is_TileGrid e then [e] else [], w1) /\
    steps w1 = alter (setup_entry is_TileGrid (elements w) k step) k (steps w) /\
    animators w1 = upd (animators w) k (OvershootAnimator.init e) /\
    (forall e', e' <> e -> elements w1 e' = elements w e') /\
    Element.x (elements w1 e) = fst (Step.offscreen_loc step) /\
    Element.y (elements w1 e) = snd (Step.offscreen_loc step) /\
    (forall e', Element.pixel_shader (elements w1 e') = Element.pixel_shader (elements w e') /\
                Element.tile (elements w1 e') = Element.tile (elements w e')) /\
    trace w1 = trace w ++ [ev_set_x e (fst (Step.offscreen_loc step));
                           ev_set_y e (snd (Step.offscreen_loc step))] /\
    start_time w1 = start_time w /\ clock_reads w1 = clock_reads w.
Proof.
  intros He. unfold setup_step, get_tilegrid, bind. rewrite He. cbn [ret].
  assert (Hel : forall (h : nat -> Element.t) e' v, e' <> e -> upd h e v e' = h e').
  { intros h e' v Hne. apply upd_other. exact Hne. }
  destruct (is_TileGrid e) eqn:Htg; cbn; eexists; (split; [reflexivity |]); cbn.
  - split.
    { rewrite list_alter_alter_eq. apply list_alter_ext; [| reflexivity].
      intros s _. unfold setup_entry. rewrite He, Htg. reflexivity. }
    split; [reflexivity |].
    split; [intros e' Hne; rewrite !Hel by exact Hne; reflexivity |].
    rewrite !upd_same. cbn.
    split; [reflexivity |]. split; [reflexivity |].
    split.
    { intros e'. destruct (decide (e' = e)) as [->|Hne].
      - rewrite !upd_same. cbn. split; reflexivity.
      - rewrite !Hel by exact Hne. split; reflexivity. }
    split; [rewrite <- app_assoc; reflexivity |]. split; reflexivity.
  - split.
    { apply list_alter_ext; [| reflexivity].
      intros s _. unfold setup_entry. rewrite He, Htg. reflexivity. }
    split; [reflexivity |].
    split; [intros e' Hne; rewrite !Hel by exact Hne; reflexivity |].
    rewrite !upd_same. cbn.
    split; [reflexivity |]. split; [reflexivity |].
    split.
    { intros e'. destruct (decide (e' = e)) as [->|Hne].
      - rewrite !upd_same. cbn. split; reflexivity.
      - rewrite !Hel by exact Hne. split; reflexivity. }
    split; [rewrite <- app_assoc; reflexivity |]. split; reflexivity.
Qed.




(** X22: the setup loop reads [step["tilegrid"]] of every step: over a list
    with a step that has none (a [change_palette] step, as the ones the
    program appends after the loop) it raises [KeyError]. *)
Theorem setup_loop_missing_tilegrid (todo : list Step.t) (k : nat) (w : World) :
  Exists (fun s => Step.tilegrid s = None) todo ->
  setup_steps is_TileGrid k todo w = Raise KeyError.
Proof.
  revert k w. induction todo as [|step todo IH]; intros k w Hex.
  - inversion Hex.
  - cbn [setup_steps]. unfold bind.
    destruct (Step.tilegrid step) as [e|] eqn:He.
    + destruct (setup_step_effect k step e w He) as (w1 & -> & _).
      apply Exists_cons in Hex as [Hex|Hex]; [congruence |].
      rewrite (IH (S k) w1 Hex). reflexivity.
    + unfold setup_step, get_tilegrid, bind. rewrite He. reflexivity.
Qed.

End SetupProps.



Lemma setup_loop_missing_tilegrid_witness :
  setup_steps (fun _ => true) 0 (steps show_end) show_end = Raise KeyError.
Proof.
  apply setup_loop_missing_tilegrid.
  apply Exists_cons. right. apply Exists_cons. left. reflexivity.
Defined.

(** ** The show of the program *)

Abbreviation clear_started := (fun s => Step.set_started s false).

(** Evaluation of the construction of the timeline: the monad, the list
    operations and the record fields, not the palette maps. *)
Ltac run_setup :=
  cbv [shipped build_timeline fresh_world initial_steps animation_step
       reused_step change_palette setup_steps setup_step register_palettes
       step_set_palette step_set_animator update_step set_steps insert_step
       append_step get_tilegrid get_animator set_element set_animator log
       bind ret raise elements animators steps start_time clock_reads trace
       Step.type Step.tilegrid Step.animator Step.offscreen_loc Step.onscreen_loc
       Step.move_duration Step.overshoot_pixels Step.eased_value Step.start_time
       Step.started Step.sprite_anim_range Step.sprite_delay Step.sprite_anim_start
       Step.new_palette Step.palettes Step.set_started
       Element.set_x Element.set_y Element.x Element.y Element.tile
       Element.pixel_shader
       alter list_alter lookup list_lookup firstn skipn app Nat.eqb negb fst snd
       fmap list_fmap upd].

Ltac run_setup_in H :=
  cbv [shipped build_timeline fresh_world initial_steps animation_step
       reused_step change_palette setup_steps setup_step register_palettes
       step_set_palette step_set_animator update_step set_steps insert_step
       append_step get_tilegrid get_animator set_element set_animator log
       bind ret raise elements animators steps start_time clock_reads trace
       Step.type Step.tilegrid Step.animator Step.offscreen_loc Step.onscreen_loc
       Step.move_duration Step.overshoot_pixels Step.eased_value Step.start_time
       Step.started Step.sprite_anim_range Step.sprite_delay Step.sprite_anim_start
       Step.new_palette Step.palettes Step.set_started
       Element.set_x Element.set_y Element.x Element.y Element.tile
       Element.pixel_shader
       alter list_alter lookup list_lookup firstn skipn app Nat.eqb negb fst snd
       fmap list_fmap upd] in H.

(** The construction of the timeline raises nothing and appends the nine
    [TileGrid]s to [sliding_group]. *)
Lemma build_timeline_shipped (pal : nat -> Palette) :
  build_timeline (fresh_world pal) = Ok ([0; 1; 2; 4; 5; 6; 7; 8; 9]%nat, shipped pal).
Proof. run_setup. reflexivity. Qed.

(** No step of the built timeline is started. *)
Lemma shipped_unstarted (pal : nat -> Palette) :
  clear_started <$> steps (shipped pal) = steps (shipped pal).
Proof. run_setup. reflexivity. Qed.

Lemma shipped_length (pal : nat -> Palette) : length (steps (shipped pal)) = 23%nat.
Proof. run_setup. reflexivity. Qed.

(** A criterion for [safe_step] that suits a step given by its entries. *)
Lemma safe_step_check (s : Step.t) :
  (Step.type s = "animation_step" ->
   is_Some (Step.tilegrid s) /\ is_Some (Step.animator s) /\
   0 < Step.move_duration s /\ Step.eased_value s <> Some 0 /\
   (is_Some (Step.sprite_anim_range s) -> is_Some (Step.sprite_delay s))) ->
  Step.palettes s = ∅ \/ is_Some (Step.tilegrid s) ->
  safe_step s.
Proof.
  intros H1 H2. split.
  - intros Hty. destruct (H1 Hty) as (Ht & Ha & Hd & He & Hs).
    split; [exact Ht |]. split; [exact Ha |]. split; [exact Hd |]. split; [exact He |].
    intros Hr _. exact (Hs Hr).
  - intros name [p Hp]. destruct H2 as [H2 | H2]; [| exact H2].
    rewrite H2, lookup_empty in Hp. discriminate Hp.
Qed.

Ltac safe_one :=
  apply safe_step_check;
  [ intros Hty; first [ discriminate Hty |
      split; [eexists; reflexivity |];
      split; [eexists; reflexivity |];
      split; [cbv [Step.move_duration]; lra |];
      split; [cbv [Step.eased_value];
              first [discriminate | intros H; injection H as H; lra] |];
      intros Hr; first [eexists; reflexivity | destruct Hr as [? Hr]; discriminate Hr] ]
  | first [left; reflexivity | right; eexists; reflexivity] ].

(** The built timeline cannot make the loop raise. *)
Lemma shipped_timeline_safe (pal : nat -> Palette) : safe_timeline (steps (shipped pal)).
Proof.
  split.
  - run_setup. eexists. split; [reflexivity |]. eexists. reflexivity.
  - run_setup. repeat (apply Forall_cons; split; [safe_one |]). apply Forall_nil_2.
Qed.

Lemma anim_safe_init (ticks_ms : nat -> Z) (reads e : nat) :
  anim_safe ticks_ms reads (OvershootAnimator.init e).
Proof.
  split; [left; reflexivity |]. split; [discriminate |]. left. split; reflexivity.
Qed.

Lemma safe_timeline_never_raises_witness :
  exists results w',
    run_loop five_seconds 3 show_end = Ok (results, w') /\ length results = 3%nat.
Proof.
  assert (Hmono : monotone_clock five_seconds).
  { intros m n _. unfold five_seconds. lia. }
  assert (Hsafe : safe_world five_seconds show_end).
  { split; [split |].
    - eexists. split; [reflexivity |]. eexists. reflexivity.
    - cbv [show_end steps letter_at swap_step].
      repeat (apply Forall_cons; split; [safe_one |]). apply Forall_nil_2.
    - intros a. apply anim_safe_init. }
  assert (Hrange : world_in_range show_end).
  { split; [| split; [| split; [| split]]].
    - intros s Hin Hty. cbn in Hin.
      repeat (apply elem_of_cons in Hin as [->|Hin]); try discriminate Hty.
      + apply (bool_decide_unpack _). vm_compute. exact I.
      + inversion Hin.
    - intros s k Hin Hk. cbn in Hin. unfold step_keys in Hk.
      repeat (apply elem_of_cons in Hin as [->|Hin]);
        try (apply elem_of_nil in Hin; destruct Hin);
        repeat (apply elem_of_cons in Hk as [->|Hk]);
        try (apply elem_of_nil in Hk; destruct Hk);
        first [ apply lookup_empty
              | unfold letter_at; cbn [Step.palettes];
                apply lookup_singleton_ne; discriminate ].
    - intros s Hin Hty. cbn in Hin.
      repeat (apply elem_of_cons in Hin as [->|Hin]); try discriminate Hty.
      + unfold step_in_range. in_range.
      + inversion Hin.
    - intros e. in_range.
    - intros a. in_range. }
  destruct (safe_timeline_never_raises five_seconds Hmono 3 show_end Hrange Hsafe)
    as (results & w' & E & Hlen & _).
  exists results, w'. split; assumption.
Defined.

Lemma pass_ticks_elapsed_steps_witness :
  exists w' evs,
    steps_pass five_seconds three_letters = Ok (false, w') /\
    trace w' = [ev_ticks_ms 0] ++ evs ++ [ev_refresh] /\
    tick_calls evs = [0; 1; 2]%nat /\
    animate_to_calls evs = [0; 1; 2]%nat /\
    palette_writes evs = [ev_set_pixel_shader 0 red_a; ev_set_pixel_shader 1 red_b].
Proof.
  assert (Hmono : monotone_clock five_seconds).
  { intros m n _. unfold five_seconds. lia. }
  assert (Hsafe : safe_world five_seconds three_letters).
  { split; [split |].
    - eexists. split; [reflexivity |]. eexists. reflexivity.
    - cbv [three_letters steps letter letter_at swap_step].
      repeat (apply Forall_cons; split; [safe_one |]). apply Forall_nil_2.
    - intros a. apply anim_safe_init. }
  assert (Hnames : palette_names (steps three_letters)).
  { intros s Hin Hty. cbn in Hin.
    repeat (apply elem_of_cons in Hin as [->|Hin]); try discriminate Hty.
    - apply (bool_decide_unpack _). vm_compute. exact I.
    - inversion Hin. }
  destruct (steps_pass_safe five_seconds Hmono three_letters Hsafe) as (sg & w' & Hpass & _).
  destruct (pass_ticks_elapsed_steps five_seconds three_letters w' sg Hnames Hpass)
    as (evs & Ht & Htc & Hac & Hw & _ & _ & Hsg).
  assert (Hel : forall t, t <= 5 ->
            Rgeb (IZR (five_seconds (clock_reads three_letters)) / 1000
                  - start_time three_letters) t = true).
  { intros t Ht5. apply Rgeb_true. unfold five_seconds. cbn. lra. }
  assert (Hsg' : sg = false).
  { unfold decided_by_last, elapsed in Hsg.
    cbn [last steps three_letters swap_step Step.start_time Step.animator] in Hsg.
    rewrite Hel in Hsg by lra. exact Hsg. }
  subst sg. exists w', evs. split; [exact Hpass |]. split; [exact Ht |].
  split; [| split].
  - rewrite Htc. unfold ticked, elapsed.
    cbn [steps three_letters letter letter_at swap_step omap list_omap
         Step.start_time Step.animator].
    rewrite !Hel by lra. reflexivity.
  - rewrite Hac. unfold armed, elapsed.
    cbn [steps three_letters letter letter_at swap_step omap list_omap
         Step.start_time Step.animator Step.started Step.type].
    rewrite !Hel by lra. reflexivity.
  - rewrite Hw. unfold swapped, elapsed.
    cbn [steps three_letters letter letter_at swap_step flat_map
         Step.start_time Step.started Step.type Step.new_palette].
    rewrite !Hel by lra. cbn [negb andb String.eqb Ascii.eqb Bool.eqb app].
    unfold swap_events, letter, letter_at, swap_step.
    cbn [flat_map Step.palettes Step.tilegrid app].
    rewrite !lookup_singleton_eq, !lookup_empty. reflexivity.
Defined.

(** After the setup every animator is idle. *)
Lemma shipped_animators (pal : nat -> Palette) (a : nat) :
  exists e, animators (shipped pal) a = OvershootAnimator.init e.
Proof.
  run_setup.
  repeat match goal with
         | |- context [if ?c then _ else _] => destruct c; [eexists; reflexivity |]
         end.
  eexists; reflexivity.
Qed.

Lemma shipped_safe (ticks_ms : nat -> Z) (pal : nat -> Palette) :
  safe_world ticks_ms (shipped pal).
Proof.
  split; [apply shipped_timeline_safe |].
  intros a. destruct (shipped_animators pal a) as [e ->]. apply anim_safe_init.
Qed.

(** The steps of the show, one by one: an animation step moves one of the
    ten objects, from the place the setup left the object at, and a step that
    recorded palettes has the object's sheet palette as its default. *)
Lemma shipped_steps_layout (pal : nat -> Palette) (s : Step.t) :
  s ∈ steps (shipped pal) -> Step.type s = "animation_step" ->
  exists e,
    Step.tilegrid s = Some e /\ (e < 10)%nat /\
    Step.offscreen_loc s =
      (Element.x (elements (shipped pal) e), Element.y (elements (shipped pal) e)) /\
    forall p, Step.palettes s !! "default_palette" = Some p -> p = pal e.
Proof.
  intros Hin Hty. run_setup_in Hin.
  repeat (apply elem_of_cons in Hin as [->|Hin]);
    try (apply elem_of_nil in Hin; destruct Hin);
    try discriminate Hty;
    (eexists; split; [reflexivity |]; split; [lia |]; split; [run_setup; reflexivity |];
     cbv [Step.palettes]; intros p Hp;
     first [ rewrite lookup_empty in Hp; discriminate Hp
           | rewrite !lookup_insert_ne in Hp by discriminate;
             rewrite lookup_insert_eq in Hp; congruence ]).
Qed.

(** Each of the ten objects has an animation step, and each [TileGrid] one
    that recorded its sheet palette. *)
Lemma shipped_steps_cover (pal : nat -> Palette) (e : nat) :
  (e < 10)%nat ->
  exists s,
    s ∈ steps (shipped pal) /\ Step.type s = "animation_step" /\
    Step.tilegrid s = Some e /\
    (e <> 3%nat -> Step.palettes s !! "default_palette" = Some (pal e)).
Proof.
  intros He.
  assert (Hpal : forall (p : Palette) s,
            Step.palettes s =
              <["green_palette" := make_alternate_platte p 65280]>
                (<["blue_palette" := make_alternate_platte p 255]>
                   (<["pink_palette" := make_alternate_platte p 16711935]>
                      (<["teal_palette" := make_alternate_platte p 65535]>
                         (<["yellow_palette" := make_alternate_platte p 16776960]>
                            (<["red_palette" := make_alternate_platte p 16711680]>
                               (<["default_palette" := p]> ∅)))))) ->
            Step.palettes s !! "default_palette" = Some p).
  { intros p s ->. rewrite !lookup_insert_ne by discriminate. apply lookup_insert_eq. }
  pose (i := if (e <? 8)%nat then e else if (e =? 8)%nat then 9%nat else 11%nat).
  destruct (steps (shipped pal) !! i) as [s|] eqn:Hs; subst i.
  - exists s. split; [eapply list_elem_of_lookup_2; exact Hs |].
    run_setup_in Hs.
    do 10 (destruct e as [|e]; [injection Hs as <-; split; [reflexivity |]; split; [reflexivity |];
                                 intros Hne; first [apply Hpal; reflexivity | destruct Hne; reflexivity] |]).
    lia.
  - run_setup_in Hs.
    do 10 (destruct e as [|e]; [discriminate Hs |]). lia.
Qed.

Lemma shipped_clock (pal : nat -> Palette) : clock_reads (shipped pal) = 0%nat.
Proof. run_setup. reflexivity. Qed.

(** A step of the show that carries a palette variant belongs to one of the
    nine [TileGrid]s and carries its sheet palette masked. *)
Lemma shipped_steps_variant (pal : nat -> Palette) (name : string) (mask : Z)
    (s : Step.t) (p : Palette) :
  (name, mask) ∈ variant_masks -> s ∈ steps (shipped pal) ->
  Step.palettes s !! name = Some p ->
  exists e, Step.tilegrid s = Some e /\ (e < 10)%nat /\ e <> 3%nat /\
            p = make_alternate_platte (pal e) mask.
Proof.
  intros Hv Hin Hp. run_setup_in Hin. unfold variant_masks in Hv.
  repeat (apply elem_of_cons in Hv as [Hv|Hv]);
    try (apply elem_of_nil in Hv; destruct Hv);
    injection Hv as -> ->;
    repeat (apply elem_of_cons in Hin as [->|Hin]);
    try (apply elem_of_nil in Hin; destruct Hin);
    cbv [Step.palettes] in Hp;
    first [ rewrite lookup_empty in Hp; discriminate Hp
          | repeat (rewrite lookup_insert_ne in Hp by discriminate);
            rewrite lookup_insert_eq in Hp; injection Hp as <-;
            eexists; split; [reflexivity |]; split; [lia |]; split; [lia |];
            reflexivity ].
Qed.

(** Each [TileGrid] of the show has a step that carries its variants. *)
Lemma shipped_steps_variant_cover (pal : nat -> Palette) (name : string) (mask : Z)
    (e : nat) :
  (name, mask) ∈ variant_masks -> (e < 10)%nat -> e <> 3%nat ->
  exists s, s ∈ steps (shipped pal) /\ Step.tilegrid s = Some e /\
            Step.palettes s !! name = Some (make_alternate_platte (pal e) mask).
Proof.
  intros Hv He Hne.
  pose (i := if (e <? 8)%nat then e else if (e =? 8)%nat then 9%nat else 11%nat).
  destruct (steps (shipped pal) !! i) as [s|] eqn:Hs; subst i.
  - exists s. split; [eapply list_elem_of_lookup_2; exact Hs |].
    run_setup_in Hs. unfold variant_masks in Hv.
    repeat (apply elem_of_cons in Hv as [Hv|Hv]);
      try (apply elem_of_nil in Hv; destruct Hv);
      injection Hv as -> ->;
      do 10 (destruct e as [|e];
             [first [ destruct Hne; reflexivity
                    | injection Hs as <-; split; [reflexivity |];
                      cbv [Step.palettes];
                      repeat (rewrite lookup_insert_ne by discriminate);
                      apply lookup_insert_eq ] |]);
      lia.
  - run_setup_in Hs.
    do 10 (destruct e as [|e]; [discriminate Hs |]). lia.
Qed.

Lemma shipped_first (pal : nat -> Palette) :
  exists s0, steps (shipped pal) !! 0%nat = Some s0 /\ Step.tilegrid s0 = Some 0%nat.
Proof. run_setup. eexists. split; reflexivity. Qed.

Section ShippedShow.
Variable ticks_ms : nat -> Z.
Variable pal : nat -> Palette.

(** An iteration of the loop changes of the timeline the [started] entries
    only. *)
Lemma loop_body_clear (w w' : World) (sg : bool) :
  loop_body ticks_ms w = Ok (sg, w') ->
  clear_started <$> steps w' = clear_started <$> steps w.
Proof.
  intros H. unfold loop_body, bind in H.
  destruct (steps_pass ticks_ms w) as [[sg1 w1]|ex] eqn:Hpass; [| discriminate H].
  destruct (steps_pass_steps _ _ _ _ Hpass) as (_ & Hsteps).
  assert (Hclear : clear_started <$> steps w1 = clear_started <$> steps w).
  { rewrite Hsteps, <- list_fmap_compose. apply list_fmap_ext. intros i s _. reflexivity. }
  destruct sg1; cbn [negb] in H.
  - unfold ret in H. injection H as <- <-. exact Hclear.
  - destruct (restart ticks_ms w1) as [[[] w2]|ex] eqn:Hr; [| discriminate H].
    unfold ret in H. injection H as <- <-.
    destruct (restart_effect _ _ _ Hr) as (_ & _ & _ & _ & _ & _ & Hs2 & _).
    rewrite Hs2, <- list_fmap_compose, <- Hclear.
    apply list_fmap_ext. intros i s _. reflexivity.
Qed.

Lemma run_loop_clear (n : nat) (w w' : World) (results : list bool) :
  run_loop ticks_ms n w = Ok (results, w') ->
  clear_started <$> steps w' = clear_started <$> steps w.
Proof.
  revert w results. induction n as [|n IH]; intros w results H.
  - injection H as <- <-. reflexivity.
  - cbn [run_loop] in H. unfold bind at 1 in H.
    destruct (loop_body ticks_ms w) as [[sg w1]|ex] eqn:E; [| discriminate H].
    unfold bind in H.
    destruct (run_loop ticks_ms n w1) as [[rest w2]|ex] eqn:E2; [| discriminate H].
    unfold ret in H. injection H as <- <-.
    rewrite (IH _ _ E2). apply (loop_body_clear _ _ _ E).
Qed.

(** The reading of the epoch after the setup. *)
Lemma program_start_effect (w w1 : World) (appended : list nat) :
  build_timeline w = Ok (appended, w1) ->
  exists w0,
    program_start ticks_ms w = Ok (appended, w0) /\
    steps w0 = steps w1 /\ animators w0 = animators w1 /\
    elements w0 = elements w1 /\
    start_time w0 = IZR (ticks_ms (clock_reads w1)) / 1000 /\
    clock_reads w0 = S (clock_reads w1).
Proof.
  intros H. unfold program_start, bind. rewrite H.
  eexists. split; [reflexivity |]. cbn.
  split; [reflexivity |]. split; [reflexivity |]. split; [reflexivity |].
  split; reflexivity.
Qed.

(** X23: at any moment of the show (the timeline is the built one up to
    the [started] entries) the restart block raises nothing and undoes the
    show: every step is un-started, each of the ten objects is back where
    the setup put it, each [TileGrid] has its sprite sheet's palette again
    and the apple shows tile 0; the animators are not touched and the epoch
    is the clock reading made at the end of the block. *)
Theorem shipped_restart_restores (w : World) :
  clear_started <$> steps w = steps (shipped pal) ->
  exists w',
    restart ticks_ms w = Ok (tt, w') /\
    steps w' = steps (shipped pal) /\
    (forall e, (e < 10)%nat ->
       Element.x (elements w' e) = Element.x (elements (shipped pal) e) /\
       Element.y (elements w' e) = Element.y (elements (shipped pal) e) /\
       (e <> 3%nat -> Element.pixel_shader (elements w' e) = pal e)) /\
    Element.tile (elements w' 0%nat) = 0%Z /\
    animators w' = animators w /\
    start_time w' = IZR (ticks_ms (clock_reads w)) / 1000.
Proof.
  intros Hclear.
  assert (Hin : forall s, s ∈ steps w -> clear_started s ∈ steps (shipped pal)).
  { intros s Hs. rewrite <- Hclear. apply list_elem_of_fmap.
    exists s. split; [reflexivity | exact Hs]. }
  assert (Hlay : forall s, s ∈ steps w -> Step.type s = "animation_step" ->
            exists e, Step.tilegrid s = Some e /\ (e < 10)%nat /\
              Step.offscreen_loc s =
                (Element.x (elements (shipped pal) e), Element.y (elements (shipped pal) e)) /\
              forall p, Step.palettes s !! "default_palette" = Some p -> p = pal e).
  { intros s Hs Hty. apply (shipped_steps_layout pal (clear_started s) (Hin s Hs) Hty). }
  assert (Hcov : forall e, (e < 10)%nat ->
            exists s, s ∈ steps w /\ Step.type s = "animation_step" /\
              Step.tilegrid s = Some e /\
              (e <> 3%nat -> Step.palettes s !! "default_palette" = Some (pal e))).
  { intros e He. destruct (shipped_steps_cover pal e He) as (s0 & Hs0 & Hty & Ht & Hp).
    rewrite <- Hclear in Hs0. apply list_elem_of_fmap_1 in Hs0 as (s & -> & Hs).
    exists s. auto. }
  assert (Hfirst : exists s0, steps w !! 0%nat = Some s0 /\ Step.tilegrid s0 = Some 0%nat).
  { destruct (shipped_first pal) as (s1 & Hs1 & Ht1).
    rewrite <- Hclear, list_lookup_fmap in Hs1.
    destruct (steps w !! 0%nat) as [s0|]; [| discriminate Hs1].
    injection Hs1 as <-. exists s0. split; [reflexivity | exact Ht1]. }
  destruct (restart_ok ticks_ms w) as [w' Hr].
  { split.
    - destruct Hfirst as (s0 & Hs0 & Ht0). exists s0. split; [exact Hs0 |].
      eexists. exact Ht0.
    - intros s Hs Hty. destruct (Hlay s Hs Hty) as (e & -> & _). eexists. reflexivity. }
  exists w'. split; [exact Hr |].
  destruct (restart_effect _ _ _ Hr)
    as (s0 & e0 & Hs0 & He0 & _ & Ha & Hs & Hst & _ & Htile & Hpos & Hpal).
  split; [rewrite Hs; exact Hclear |].
  split.
  { intros e He. destruct (Hcov e He) as (s & Hs1 & Hty & Ht & Hp).
    destruct (Hlay s Hs1 Hty) as (e1 & Ht1 & _ & Hoff & _).
    assert (e1 = e) by congruence. subst e1.
    destruct (Hpos s e Hs1 Hty Ht) as [Hx Hy].
    { intros s' Hs' Hty' Ht'. destruct (Hlay s' Hs' Hty') as (e2 & Ht2 & _ & Hoff' & _).
      assert (e2 = e) by congruence. subst e2. rewrite Hoff, Hoff'. reflexivity. }
    rewrite Hx, Hy, Hoff. split; [reflexivity |]. split; [reflexivity |].
    intros Hne. apply (Hpal s e (pal e) Hs1 Hty Ht (Hp Hne)).
    intros s' p' Hs' Hty' Ht' Hp'. destruct (Hlay s' Hs' Hty') as (e2 & Ht2 & _ & _ & Hd).
    assert (e2 = e) by congruence. subst e2. apply Hd. exact Hp'. }
  split.
  { destruct Hfirst as (s1 & Hs1 & Ht1). assert (e0 = 0%nat) by congruence.
    subst e0. exact Htile. }
  split; [exact Ha | exact Hst].
Qed.

(** X24: at any moment of the show, the broadcast of one of the six palette
    variants raises nothing and recolours all nine [TileGrid]s, each with
    its own sheet palette masked by the variant's colour
    ([make_alternate_platte]); [sliding_group] is not touched, and no
    position, tile, step or animator changes. *)
Theorem shipped_palette_swap (name : string) (mask : Z) (w : World) :
  (name, mask) ∈ variant_masks ->
  clear_started <$> steps w = steps (shipped pal) ->
  exists w',
    change_palette_broadcast name w = Ok (tt, w') /\
    (forall e, (e < 10)%nat -> e <> 3%nat ->
       Element.pixel_shader (elements w' e) = make_alternate_platte (pal e) mask) /\
    elements w' 3%nat = elements w 3%nat /\
    (forall e, Element.x (elements w' e) = Element.x (elements w e) /\
               Element.y (elements w' e) = Element.y (elements w e) /\
               Element.tile (elements w' e) = Element.tile (elements w e)) /\
    steps w' = steps w /\ animators w' = animators w.
Proof.
  intros Hv Hclear.
  assert (Hvar : forall s p, s ∈ steps w -> Step.palettes s !! name = Some p ->
            exists e, Step.tilegrid s = Some e /\ (e < 10)%nat /\ e <> 3%nat /\
                      p = make_alternate_platte (pal e) mask).
  { intros s p Hs Hp.
    apply (shipped_steps_variant pal name mask (clear_started s) p Hv); [| exact Hp].
    rewrite <- Hclear. apply list_elem_of_fmap. exists s. split; [reflexivity | exact Hs]. }
  unfold change_palette_broadcast.
  destruct (for_each_swap_ok name (steps w) w) as [w' E].
  { intros s Hs [p Hp]. destruct (Hvar s p Hs Hp) as (e & -> & _). eexists. reflexivity. }
  exists w'. split; [exact E |].
  destruct (for_each_swap name _ _ _ E) as (_ & Hs & Ha & _ & _ & Hxy & Hfr & Hlast).
  split.
  { intros e He Hne. apply Hlast.
    - intros s p' Hin Hp' Ht. destruct (Hvar s p' Hin Hp') as (e1 & Ht1 & _ & _ & ->).
      congruence.
    - left. destruct (shipped_steps_variant_cover pal name mask e Hv He Hne)
        as (s0 & Hs0 & Ht0 & Hp0).
      rewrite <- Hclear in Hs0. apply list_elem_of_fmap_1 in Hs0 as (s & -> & Hin).
      exists s. auto. }
  split.
  { apply Hfr. intros s Hin [p Hp] Ht. destruct (Hvar s p Hin Hp) as (e1 & Ht1 & _ & Hne & _).
    congruence. }
  split; [exact Hxy |]. split; assumption.
Qed.

Hypothesis Hmono : monotone_clock ticks_ms.

(** X25: the program as shipped raises nothing when the clock never goes
    back: the setup appends the nine [TileGrid]s to [sliding_group] and
    builds a timeline of 23 steps, and the main loop then runs any number of
    iterations, restarts included, changing of the timeline the [started]
    entries only. *)
Theorem shipped_show_never_raises (n : nat) :
  exists results w',
    program ticks_ms n (fresh_world pal)
      = Ok (([0; 1; 2; 4; 5; 6; 7; 8; 9]%nat, results), w') /\
    length results = n /\
    clear_started <$> steps w' = steps (shipped pal) /\
    length (steps w') = 23%nat.
Proof.
  destruct (program_start_effect _ _ _ (build_timeline_shipped pal))
    as (w0 & E0 & Hs0 & Ha0 & _ & _ & Hc0).
  assert (Hsafe : safe_world ticks_ms w0).
  { destruct (shipped_safe ticks_ms pal) as [Hl Han]. split.
    - rewrite Hs0. exact Hl.
    - intros a. rewrite Ha0. eapply anim_safe_later; [apply Han | lia]. }
  destruct (run_loop_safe ticks_ms Hmono n w0 Hsafe) as (results & w' & E & Hlen & _).
  exists results, w'. unfold program, bind. rewrite E0, E. split; [reflexivity |].
  split; [exact Hlen |].
  assert (Hclear : clear_started <$> steps w' = steps (shipped pal)).
  { rewrite (run_loop_clear _ _ _ _ E), Hs0. apply shipped_unstarted. }
  split; [exact Hclear |].
  rewrite <- (length_fmap clear_started), Hclear. apply shipped_length.
Qed.

End ShippedShow.


Lemma shipped_restart_restores_witness :
  exists w',
    restart five_seconds (shipped (fun _ => plain)) = Ok (tt, w') /\
    steps w' = steps (shipped (fun _ => plain)) /\
    Element.pixel_shader (elements w' 1%nat) = plain.
Proof.
  destruct (shipped_restart_restores five_seconds (fun _ => plain)
              (shipped (fun _ => plain)) (shipped_unstarted _))
    as (w' & E & Hs & Hel & _).
  exists w'. split; [exact E |]. split; [exact Hs |].
  destruct (Hel 1%nat ltac:(lia)) as (_ & _ & Hp). apply Hp. lia.
Defined.

Lemma shipped_palette_swap_witness :
  exists w',
    change_palette_broadcast "red_palette" (shipped (fun _ => plain)) = Ok (tt, w') /\
    Element.pixel_shader (elements w' 1%nat) = make_alternate_platte plain 0xff0000.
Proof.
  assert (Hv : ("red_palette", 0xff0000%Z) ∈ variant_masks) by left.
  destruct (shipped_palette_swap (fun _ => plain) "red_palette" _
              (shipped (fun _ => plain)) Hv (shipped_unstarted _))
    as (w' & E & Hp & _).
  exists w'. split; [exact E |]. apply Hp; lia.
Defined.

Lemma shipped_show_never_raises_witness :
  exists results w',
    program five_seconds 2 (fresh_world (fun _ => plain))
      = Ok (([0; 1; 2; 4; 5; 6; 7; 8; 9]%nat, results), w') /\
    length results = 2%nat.
Proof.
  assert (Hmono : monotone_clock five_seconds).
  { intros m n _. unfold five_seconds. lia. }
  destruct (shipped_show_never_raises five_seconds (fun _ => plain) Hmono 2)
    as (results & w' & E & Hlen & _).
  exists results, w'. split; assumption.
Defined.
